(** * Editor-Undo-Redo: the snapshot history of [src/index.js]

    A shallow embedding of the [Undo] class (history stack, change
    classifier, undo and redo executors, cursor restorer) together with
    the properties of its specification.

    Conventions of the embedding.
    - JavaScript numbers that hold indices, lengths and caret offsets are
      integers; they are modelled by [Z].
    - [undefined] and [null] results of array reads and of optional
      fields are [None].
    - History entries are JavaScript objects shared by reference between
      [this.stack] and [this.initialItem]; they live in a store
      ([heap]) and the stack holds references.
    - The live editor (Editor.js block and caret API, the DOM holder, the
      external caret primitive) is a parameter: an interface of queries
      and of the effect of each call on the editor.  Its calls always
      return; the only exception modelled is the [TypeError] that the
      class itself raises when it reads a property of [undefined].
    - An [async] method runs to completion: callers serialise undo, redo
      and commits, as the specification demands.
    - The data of a block is JSON data: [null], booleans, finite numbers,
      strings, arrays and objects with string keys in property order.
      [JSON.stringify] prints a number as [Number::toString] does, from
      its shortest decimal digits and its decimal exponent, and a string
      of 8-bit characters with the escapes of [QuoteJSONString].
    - [Object.prototype] is the standard one: a lookup in an object
      literal finds its members under their names. *)

From Stdlib Require Import ZArith String Ascii List Bool Lia DecimalString.
From Stdlib Require Import Decimal DecimalFacts DecimalPos.
From stdpp Require Import base list.
Import ListNotations.

#[local] Open Scope string_scope.
#[local] Open Scope list_scope.
#[local] Open Scope Z_scope.

(** ** JSON values and [JSON.stringify] *)

(** A finite number, as [Number::toString] takes it apart (ECMA-262,
    Number::toString, step 5): zero, or a sign and the integers [s] and
    [n] for which the magnitude is [s * 10 ^ (n - k)], [k] being the number
    of decimal digits of [s] and as small as possible.  Every finite
    JavaScript number is of this form; [1.5] is [NumDec false 15 1] and
    [10 ^ 21] is [NumDec false 1 22].  [NaN] and the infinities, which
    [JSON.stringify] prints as [null], are no JSON data. *)
Inductive number : Type :=
| NumZero
| NumDec (negative : bool) (s : positive) (n : Z).

#[warnings="-register-all"]
Inductive json : Type :=
| JNull
| JBool (b : bool)
| JNum (x : number)
| JStr (s : string)
| JArr (items : list json)
| JObj (props : list (string * json)).

(** A JavaScript object with string keys, in property order. *)
Definition JObject : Type := list (string * json).

Definition dquote : ascii := ascii_of_nat 34.
Definition backslash : ascii := ascii_of_nat 92.

Definition hex_digit (n : N) : ascii :=
  match n with
  | 0%N => "0" | 1%N => "1" | 2%N => "2" | 3%N => "3" | 4%N => "4"
  | 5%N => "5" | 6%N => "6" | 7%N => "7" | 8%N => "8" | 9%N => "9"
  | 10%N => "a" | 11%N => "b" | 12%N => "c" | 13%N => "d" | 14%N => "e"
  | _ => "f"
  end%char.

(** QuoteJSONString, one character at a time. *)
Definition escape_char (c : ascii) : string :=
  let n := N_of_ascii c in
  if (n =? 8)%N then String backslash "b"
  else if (n =? 9)%N then String backslash "t"
  else if (n =? 10)%N then String backslash "n"
  else if (n =? 12)%N then String backslash "f"
  else if (n =? 13)%N then String backslash "r"
  else if (n =? 34)%N then String backslash (String dquote EmptyString)
  else if (n =? 92)%N then String backslash (String backslash EmptyString)
  else if (n <? 32)%N then
    String backslash
      (String "u" (String "0" (String "0"
         (String (hex_digit (n / 16)) (String (hex_digit (n mod 16)) EmptyString)))))
  else String c EmptyString.

Fixpoint escape (s : string) : string :=
  match s with
  | EmptyString => EmptyString
  | String c rest => (escape_char c ++ escape rest)%string
  end.

Definition quote (s : string) : string :=
  String dquote (escape s ++ String dquote EmptyString)%string.

(** *** [Number::toString] *)

(** The decimal digits of [s]. *)
Definition digits (s : positive) : list ascii :=
  list_ascii_of_string (NilEmpty.string_of_uint (Pos.to_uint s)).

Definition zeros (k : nat) : list ascii := replicate k "0"%char.

(** The sign and the decimal digits of the exponent. *)
Definition exponent_chars (e : Z) : list ascii :=
  (if e <? 0 then "-"%char else "+"%char)
  :: match Z.abs_N e with
     | N0 => ["0"%char]
     | Npos p => digits p
     end.

(** Steps 7 to 11 of Number::toString, [k] the number of digits of [s]:
    the digits and [n - k] zeros when [k <= n <= 21]; a point after the
    first [n] digits when [0 < n <= 21]; [0.], [-n] zeros and the digits
    when [-6 < n <= 0]; and the exponential notation otherwise, with one
    digit before the point. *)
Definition unsigned_chars (s : positive) (n : Z) : list ascii :=
  let ds := digits s in
  let k := Z.of_nat (length ds) in
  if (k <=? n) && (n <=? 21) then ds ++ zeros (Z.to_nat (n - k))
  else if (0 <? n) && (n <=? 21) then
    take (Z.to_nat n) ds ++ "."%char :: drop (Z.to_nat n) ds
  else if (-6 <? n) && (n <=? 0) then
    "0"%char :: "."%char :: zeros (Z.to_nat (- n)) ++ ds
  else if k =? 1 then ds ++ "e"%char :: exponent_chars (n - 1)
  else take 1 ds ++ "."%char :: drop 1 ds ++ "e"%char :: exponent_chars (n - 1).

Definition number_chars (x : number) : list ascii :=
  match x with
  | NumZero => ["0"%char]
  | NumDec negative s n =>
      (if negative then ["-"%char] else []) ++ unsigned_chars s n
  end.

Definition number_to_string (x : number) : string :=
  string_of_list_ascii (number_chars x).

(** [k] is as small as possible: [s] does not end in the digit [0]. *)
Definition shortest (s : positive) : bool :=
  match last (digits s) with
  | Some c => negb (Ascii.eqb c "0")
  | None => true
  end.

Fixpoint join_with (sep : string) (parts : list string) : string :=
  match parts with
  | [] => EmptyString
  | [p] => p
  | p :: rest => (p ++ sep ++ join_with sep rest)%string
  end.

Fixpoint stringify_json (v : json) : string :=
  match v with
  | JNull => "null"
  | JBool true => "true"
  | JBool false => "false"
  | JNum x => number_to_string x
  | JStr s => quote s
  | JArr items =>
      ("[" ++ join_with "," (List.map stringify_json items) ++ "]")%string
  | JObj props =>
      ("{" ++ join_with ","
                (List.map
                   (fun kv => (quote (fst kv) ++ ":" ++ stringify_json (snd kv))%string)
                   props)
           ++ "}")%string
  end.

(** *** Reading a serialisation back

    What the proofs about [stringify_json] use: the classes of the
    characters, the inverse of [escape_char], the values that JavaScript
    can hold, and deep equality. *)

Abbreviation chars := list_ascii_of_string.

Definition is_digit (c : ascii) : bool :=
  let n := N_of_ascii c in ((48 <=? n) && (n <=? 57))%N.

Definition is_number_char (c : ascii) : bool :=
  is_digit c || Ascii.eqb c "-" || Ascii.eqb c "+" || Ascii.eqb c "."
  || Ascii.eqb c "e".

(** Where a value ends inside an array or an object. *)
Definition is_stop (c : ascii) : bool :=
  Ascii.eqb c "," || Ascii.eqb c "]" || Ascii.eqb c "}".

Definition stops (r : list ascii) : Prop :=
  match r with
  | [] => True
  | c :: _ => is_stop c = true
  end.

(** What tells the five forms of a number apart: an exponent, a point, a
    leading zero. *)
Definition shape (l : list ascii) : bool * bool * bool :=
  (existsb (Ascii.eqb "e") l, existsb (Ascii.eqb ".") l,
   match l with
   | c :: _ => Ascii.eqb c "0"
   | [] => false
   end).

Definition hex_value (c : ascii) : N :=
  let n := N_of_ascii c in
  if (n <=? 57)%N then (n - 48)%N else (n - 87)%N.

(** The inverse of [escape_char] at the head of a list of characters;
    [None] at the closing quote. *)
Definition unescape_char (l : list ascii) : option (ascii * list ascii) :=
  match l with
  | [] => None
  | c :: rest =>
      if Ascii.eqb c dquote then None
      else if Ascii.eqb c backslash then
        match rest with
        | e :: rest' =>
            if Ascii.eqb e "b" then Some (ascii_of_N 8, rest')
            else if Ascii.eqb e "t" then Some (ascii_of_N 9, rest')
            else if Ascii.eqb e "n" then Some (ascii_of_N 10, rest')
            else if Ascii.eqb e "f" then Some (ascii_of_N 12, rest')
            else if Ascii.eqb e "r" then Some (ascii_of_N 13, rest')
            else if Ascii.eqb e "u" then
              match rest' with
              | _ :: _ :: h :: l :: rest'' =>
                  Some (ascii_of_N (16 * hex_value h + hex_value l), rest'')
              | _ => None
              end
            else Some (e, rest')
        | [] => None
        end
      else Some (c, rest)
  end.

(** Well-formed values: every number in its shortest form, the keys of
    every object distinct. *)
Fixpoint distinct (keys : list string) : bool :=
  match keys with
  | [] => true
  | k :: rest => negb (existsb (String.eqb k) rest) && distinct rest
  end.

Fixpoint wf_json (v : json) : bool :=
  match v with
  | JNum (NumDec _ s _) => shortest s
  | JArr items => forallb wf_json items
  | JObj props =>
      distinct (List.map fst props)
      && forallb (fun kv => wf_json (snd kv)) props
  | _ => true
  end.

(** Deep equality: two values are deep-equal when they are of the same
    kind and, for arrays, have deep-equal elements index by index, and for
    objects, have as many keys and deep-equal values under every key,
    whatever the order of the keys. *)
Definition number_eqb (x y : number) : bool :=
  match x, y with
  | NumZero, NumZero => true
  | NumDec a s n, NumDec b t m => Bool.eqb a b && Pos.eqb s t && Z.eqb n m
  | _, _ => false
  end.

Fixpoint assoc (k : string) (props : list (string * json)) : option json :=
  match props with
  | [] => None
  | (k', v) :: rest => if String.eqb k k' then Some v else assoc k rest
  end.

Fixpoint deep_equal_json (a b : json) : bool :=
  match a, b with
  | JNull, JNull => true
  | JBool x, JBool y => Bool.eqb x y
  | JNum x, JNum y => number_eqb x y
  | JStr x, JStr y => String.eqb x y
  | JArr xs, JArr ys =>
      (fix all2 (xs ys : list json) : bool :=
         match xs, ys with
         | [], [] => true
         | x :: xs', y :: ys' => deep_equal_json x y && all2 xs' ys'
         | _, _ => false
         end) xs ys
  | JObj ps, JObj qs =>
      Nat.eqb (length ps) (length qs)
      && (fix all (ps : list (string * json)) : bool :=
            match ps with
            | [] => true
            | (k, v) :: ps' =>
                match assoc k qs with
                | Some w => deep_equal_json v w
                | None => false
                end && all ps'
            end) ps
  | _, _ => false
  end.


(** A list of digits that does not start with [0]. *)
Definition no_leading_zero (l : list ascii) : Prop :=
  match l with
  | c :: _ => Ascii.eqb c "0" = false
  | [] => True
  end.

(** The five forms of [Number::toString]. *)
Inductive form (s : positive) (n : Z) (u : list ascii) : Prop :=
| form_integer :
    Z.of_nat (length (digits s)) <= n <= 21 ->
    u = digits s ++ zeros (Z.to_nat (n - Z.of_nat (length (digits s)))) ->
    shape u = (false, false, false) -> form s n u
| form_fraction :
    0 < n < Z.of_nat (length (digits s)) -> n <= 21 ->
    u = take (Z.to_nat n) (digits s) ++ "."%char :: drop (Z.to_nat n) (digits s) ->
    shape u = (false, true, false) -> form s n u
| form_small :
    -6 < n <= 0 ->
    u = "0"%char :: "."%char :: zeros (Z.to_nat (- n)) ++ digits s ->
    shape u = (false, true, true) -> form s n u
| form_exponent_1 :
    21 < n \/ n <= -6 -> Z.of_nat (length (digits s)) = 1 ->
    u = digits s ++ "e"%char :: exponent_chars (n - 1) ->
    shape u = (true, false, false) -> form s n u
| form_exponent :
    21 < n \/ n <= -6 -> 1 < Z.of_nat (length (digits s)) ->
    u = take 1 (digits s) ++ "."%char :: drop 1 (digits s)
        ++ "e"%char :: exponent_chars (n - 1) ->
    shape u = (true, true, false) -> form s n u.

(** The first character of a serialisation tells the kind of the value. *)
Definition first_kind (c : ascii) : nat :=
  if Ascii.eqb c "n" then 0
  else if Ascii.eqb c "t" then 1
  else if Ascii.eqb c "f" then 2
  else if Ascii.eqb c dquote then 3
  else if Ascii.eqb c "[" then 4
  else if Ascii.eqb c "{" then 5
  else if is_digit c || Ascii.eqb c "-" then 6
  else 7.

Definition json_kind (v : json) : nat :=
  match v with
  | JNull => 0
  | JBool true => 1
  | JBool false => 2
  | JStr _ => 3
  | JArr _ => 4
  | JObj _ => 5
  | JNum _ => 6
  end.

(** ** Blocks and snapshots *)

(** A block as [editor.save()] returns it: [{ id, type, data }].  The
    default block of [clear] has no [id] property. *)
Record Block : Type := mkBlock {
  id : option string;
  type : string;
  data : JObject;
}.

Definition Snapshot : Type := list Block.

Definition block_to_json (b : Block) : json :=
  JObj (match id b with
        | Some i => [("id", JStr i)]
        | None => []
        end ++ [("type", JStr (type b)); ("data", JObj (data b))]).

(** [JSON.stringify(blocks)] *)
Definition stringify (blocks : Snapshot) : string :=
  stringify_json (JArr (List.map block_to_json blocks)).

Arguments stringify : simpl never.

(** The snapshot as a JSON value, its well-formedness and the deep
    equality of two snapshots. *)
Definition snapshot_to_json (blocks : Snapshot) : json :=
  JArr (List.map block_to_json blocks).

Definition wf_snapshot (blocks : Snapshot) : bool :=
  wf_json (snapshot_to_json blocks).

Definition deep_equal (s1 s2 : Snapshot) : bool :=
  deep_equal_json (snapshot_to_json s1) (snapshot_to_json s2).

(** [JSON.stringify(x)] where [x] may be [undefined]: the result is then
    [undefined] as well. *)
Definition stringify_opt (b : option Block) : option string :=
  match b with
  | Some b => Some (stringify_json (block_to_json b))
  | None => None
  end.

Definition opt_string_eqb (a b : option string) : bool :=
  match a, b with
  | Some x, Some y => String.eqb x y
  | None, None => true
  | _, _ => false
  end.

(** ** Arrays *)

(** [arr[i]] for an integer [i]: [undefined] out of range. *)
Definition at_index {A : Type} (arr : list A) (i : Z) : option A :=
  if i <? 0 then None else arr !! Z.to_nat i.

Definition len {A : Type} (arr : list A) : Z := Z.of_nat (length arr).

(** [arr.slice(0, e)]: a negative [e] counts from the end. *)
Definition slice0 {A : Type} (arr : list A) (e : Z) : list A :=
  let k := if e <? 0 then Z.max (len arr + e) 0 else Z.min e (len arr) in
  take (Z.to_nat k) arr.

(** [arr.shift()] as far as the array is concerned. *)
Definition shift {A : Type} (arr : list A) : list A := tail arr.

(** ** History entries and the state of an [Undo] instance *)

Record Entry : Type := mkEntry {
  index : Z;
  state : Snapshot;
  caretIndex : option Z;
}.

(** A reference to an entry object in the store. *)
Abbreviation ref := nat (only parsing).

Record Undo : Type := mkUndo {
  heap : list Entry;
  stack : list ref;
  position : Z;
  maxLength : Z;
  shouldSaveHistory : bool;
  readOnly : bool;
  initialItem : option ref;
  defaultBlock : string;
}.

Definition set_heap (h : list Entry) (u : Undo) : Undo :=
  mkUndo h (stack u) (position u) (maxLength u) (shouldSaveHistory u)
         (readOnly u) (initialItem u) (defaultBlock u).
Definition set_stack (s : list ref) (u : Undo) : Undo :=
  mkUndo (heap u) s (position u) (maxLength u) (shouldSaveHistory u)
         (readOnly u) (initialItem u) (defaultBlock u).
Definition set_position (p : Z) (u : Undo) : Undo :=
  mkUndo (heap u) (stack u) p (maxLength u) (shouldSaveHistory u)
         (readOnly u) (initialItem u) (defaultBlock u).
Definition set_shouldSaveHistory (b : bool) (u : Undo) : Undo :=
  mkUndo (heap u) (stack u) (position u) (maxLength u) b
         (readOnly u) (initialItem u) (defaultBlock u).
Definition set_readOnly (b : bool) (u : Undo) : Undo :=
  mkUndo (heap u) (stack u) (position u) (maxLength u) (shouldSaveHistory u)
         b (initialItem u) (defaultBlock u).
Definition set_initialItem (r : option ref) (u : Undo) : Undo :=
  mkUndo (heap u) (stack u) (position u) (maxLength u) (shouldSaveHistory u)
         (readOnly u) r (defaultBlock u).

(** [this.stack[i]], dereferenced. *)
Definition entry_at (u : Undo) (i : Z) : option Entry :=
  match at_index (stack u) i with
  | Some r => heap u !! r
  | None => None
  end.

(** The snapshots of the stack, oldest first. *)
Definition snapshots (u : Undo) : list (option Snapshot) :=
  List.map (fun r => option_map state (heap u !! r)) (stack u).

(** ** Calls that leave the class *)

Inductive Call : Type :=
| BlocksInsert (tp : string) (d : JObject) (at_ : Z) (needToFocus : bool)
    (** [blocks.insert(type, data, {}, index, needToFocus)] *)
| BlocksDelete (at_ : Z)
    (** [blocks.delete(index)] *)
| BlocksUpdate (blockId : option string) (d : JObject)
    (** [blocks.update(id, data)] *)
| BlocksRender (blocks : Snapshot)
    (** [blocks.render({ blocks }, true)] *)
| CaretSetToBlock (at_ : Z)
    (** [caret.setToBlock(index, "end")] *)
| CaretSetPosLater (at_ : Z) (offset : Z)
    (** [setTimeout(() => caretBlock.setPos(offset), 50)] on the content of
        block [index] *)
| EditorSave
    (** [editor.save()] *)
| OnUpdate.
    (** [this.onUpdate()] *)

(** The calls that change the block structure of the live document. *)
Definition is_structural (c : Call) : bool :=
  match c with
  | BlocksInsert _ _ _ _ | BlocksDelete _ | BlocksRender _ => true
  | _ => false
  end.

(** A call together with the value [shouldSaveHistory] had when it was
    issued. *)
Record Event : Type := mkEvent {
  flag : bool;
  call : Call;
}.

(** The live editor as the class sees it. *)
Class Editor (E : Type) : Type := {
  (** [blocks.getBlocksCount()] *)
  getBlocksCount : E -> Z;
  (** [blocks.getCurrentBlockIndex()] *)
  getCurrentBlockIndex : E -> Z;
  (** [blocks.getBlockByIndex(i)]: the [id] of the live block, if any *)
  getBlockByIndex : E -> Z -> option string;
  (** [editor.blocks.getById(id)] is truthy *)
  getById : E -> option string -> bool;
  (** [editor.save] is present *)
  hasSave : E -> bool;
  (** the [blocks] of the data [editor.save()] resolves with *)
  savedBlocks : E -> Snapshot;
  (** [holder.querySelector(".ce-toolbox")] is not null *)
  hasToolbox : E -> bool;
  (** [holder.getElementsByClassName("ce-block__content")[i]] exists *)
  hasContent : E -> Z -> bool;
  (** [new VanillaCaret(blocks[i].firstChild).getPos()] *)
  getPos : E -> Z -> Z;
  (** what a call does to the editor *)
  perform : Call -> E -> E;
}.

(** ** The monad of the methods: state, trace, [TypeError], divergence *)

Inductive Exn : Type := TypeError.

Inductive Completion (A : Type) : Type :=
| Normal (a : A)
| Abrupt (e : Exn).
Arguments Normal {A} a.
Arguments Abrupt {A} e.

Declare Scope method_scope.
Delimit Scope method_scope with method.

Section Methods.

Context {E : Type} `{Editor E}.

Record World : Type := mkWorld {
  self : Undo;
  editor : E;
  trace : list Event;
}.

(** A method maps the world to the world it leaves and its completion;
    [None] when it does not return.  What was written before an exception
    stays written. *)
Definition M (A : Type) : Type := World -> option (World * Completion A).

Definition ret {A : Type} (a : A) : M A := fun w => Some (w, Normal a).

Definition bind {A B : Type} (m : M A) (k : A -> M B) : M B :=
  fun w =>
    match m w with
    | None => None
    | Some (w', Normal a) => k a w'
    | Some (w', Abrupt e) => Some (w', Abrupt e)
    end.

Notation "x ← m ; k" := (bind m (fun x => k))
  (at level 20, m at level 100, k at level 200, only parsing) : method_scope.
Notation "m ;; k" := (bind m (fun _ => k))
  (at level 100, k at level 200, only parsing, right associativity) : method_scope.
#[local] Open Scope method_scope.

Definition throw {A : Type} : M A := fun w => Some (w, Abrupt TypeError).
Definition diverge {A : Type} : M A := fun _ => None.

Definition this : M Undo := fun w => Some (w, Normal (self w)).
Definition update (f : Undo -> Undo) : M unit :=
  fun w => Some (mkWorld (f (self w)) (editor w) (trace w), Normal tt).
Definition query {A : Type} (q : E -> A) : M A :=
  fun w => Some (w, Normal (q (editor w))).
Definition emit (c : Call) : M unit :=
  fun w =>
    Some (mkWorld (self w) (perform c (editor w))
                  (trace w ++ [mkEvent (shouldSaveHistory (self w)) c]),
          Normal tt).

(** Reading a property of [o]: a [TypeError] when [o] is [undefined]. *)
Definition defined {A : Type} (o : option A) : M A :=
  match o with
  | Some a => ret a
  | None => throw
  end.

(** [new] object in the store. *)
Definition alloc (e : Entry) : M ref :=
  fun w =>
    let u := self w in
    Some (mkWorld (set_heap (heap u ++ [e]) u) (editor w) (trace w),
          Normal (length (heap u))).

(** *** [truncate] *)

(** The [while] loop of [truncate]; [None] when the fuel runs out. *)
Fixpoint truncate_loop (fuel : nat) (stk : list ref) (limit : Z) : option (list ref) :=
  if len stk >? limit then
    match fuel with
    | O => None
    | S fuel' => truncate_loop fuel' (shift stk) limit
    end
  else Some stk.

(** [truncate(stack, limit)]: one round of the loop per element is enough
    when the loop ends at all (see [truncate_loop_negative]). *)
Definition truncate (stk : list ref) (limit : Z) : option (list ref) :=
  truncate_loop (length stk) stk limit.

(** *** [count], [canUndo], [canRedo] *)

Definition count (u : Undo) : Z := len (stack u) - 1.

Definition canUndo (u : Undo) : bool :=
  negb (readOnly u) && (position u >? 0).

Definition canRedo (u : Undo) : bool :=
  negb (readOnly u) && (position u <? count u).

(** *** [initialize], [clear] and the constructor *)

(** [initialize(initialItem)], given the block array of the initial
    data. *)
Definition initialize (initialData : Snapshot) : M unit :=
  let initialIndex := len initialData - 1 in
  firstElement ← alloc (mkEntry initialIndex initialData None);
  update (fun u =>
            set_stack (match stack u with
                       | [] => [firstElement]
                       | _ :: rest => firstElement :: rest
                       end) u);;
  update (set_initialItem (Some firstElement)).

Definition clear : M unit :=
  u ← this;
  match initialItem u with
  | Some r => update (set_stack [r])
  | None =>
      r ← alloc (mkEntry 0 [mkBlock None (defaultBlock u) []] None);
      update (set_stack [r])
  end;;
  update (set_position 0);;
  emit OnUpdate.

(** [maxLength || defaultOptions.maxLength] *)
Definition maxLength_option (maxLength : option Z) : Z :=
  match maxLength with
  | Some n => if n =? 0 then 30 else n
  | None => 30
  end.

(** The part of the constructor that sets up the history. *)
Definition constructor (e : E) (configReadOnly : bool) (defaultBlock : string)
    (maxLength : option Z) : option (World * Completion unit) :=
  clear (mkWorld (mkUndo [] [] 0 (maxLength_option maxLength) true
                         configReadOnly None defaultBlock)
                 e []).

(** *** [setReadOnly], [editorDidUpdate], [getCaretIndex], [save] *)

Definition setReadOnly : M unit :=
  toolbox ← query hasToolbox;
  update (set_readOnly (negb toolbox)).

Definition editorDidUpdate (newData : Snapshot) : M bool :=
  u ← this;
  current ← defined (entry_at u (position u));
  if len newData =? 0 then ret false
  else if negb (len newData =? len (state current)) then ret true
  else ret (negb (String.eqb (stringify (state current)) (stringify newData))).

Definition getCaretIndex (i : Z) : M Z :=
  content ← query (fun e => hasContent e i);
  if content then query (fun e => getPos e i) else throw.

Definition is_text_type (tp : string) : bool :=
  String.eqb tp "paragraph" || String.eqb tp "header".

Definition save (newState : Snapshot) : M unit :=
  u ← this;
  (if position u >=? maxLength u then
     match truncate (stack u) (maxLength u) with
     | Some stk => update (set_stack stk)
     | None => diverge
     end
   else ret tt);;
  update (fun u => set_position (Z.min (position u) (len (stack u) - 1)) u);;
  update (fun u => set_stack (slice0 (stack u) (position u + 1)) u);;
  i ← query getCurrentBlockIndex;
  blockCount ← query getBlocksCount;
  let indexInState :=
    match at_index newState i with
    | Some _ => i
    | None => i - (blockCount - len newState)
    end in
  caret ← match at_index newState indexInState with
           | Some b =>
               if is_text_type (type b)
               then c ← getCaretIndex i; ret (Some c)
               else ret None
           | None => ret None
           end;
  r ← alloc (mkEntry indexInState newState caret);
  update (fun u => set_stack (stack u ++ [r]) u);;
  update (fun u => set_position (position u + 1) u);;
  emit OnUpdate.

(** [registerChange], with the callback of the promise of [editor.save()]
    run once the synchronous part is over; an exception of the callback is
    the completion of the whole. *)
Definition registerChange : M unit :=
  setReadOnly;;
  u ← this;
  if negb (readOnly u) then
    pending ← (present ← query hasSave;
               if present && shouldSaveHistory u
               then emit EditorSave;; blocks ← query savedBlocks; ret (Some blocks)
               else ret None);
    update (set_shouldSaveHistory true);;
    match pending with
    | Some blocks =>
        changed ← editorDidUpdate blocks;
        if changed then save blocks else ret tt
    | None => ret tt
    end
  else ret tt.

(** *** The change classifier *)

(** [arr.some((x, i) => p(x, i))] from index [i] on; [None] when the
    callback raises a [TypeError]. *)
Fixpoint some_from {A : Type} (p : A -> Z -> option bool) (arr : list A) (i : Z)
    : option bool :=
  match arr with
  | [] => Some false
  | x :: rest =>
      match p x i with
      | Some true => Some true
      | Some false => some_from p rest (i + 1)
      | None => None
      end
  end.

(** [arr.findIndex((x, i) => p(x, i))] from index [i] on. *)
Fixpoint findIndex_from {A : Type} (p : A -> Z -> bool) (arr : list A) (i : Z) : Z :=
  match arr with
  | [] => -1
  | x :: rest => if p x i then i else findIndex_from p rest (i + 1)
  end.

Definition blockWasDropped (st compState : Snapshot) : option bool :=
  if len st =? len compState then
    some_from (fun block i =>
                 match at_index compState i with
                 | Some c => Some (negb (opt_string_eqb (id block) (id c)))
                 | None => None
                 end) st 0
  else Some false.

Definition blockWasSkipped (st compState : Snapshot) : bool :=
  negb (len st =? len compState).

Definition contentChangedInNoFocusBlock (i compIndex : Z) : bool :=
  negb (i =? compIndex).

Definition blockWasDeleted (st compState : Snapshot) : bool :=
  len st >? len compState.

Definition opt_string_neqb (a b : option string) : bool :=
  negb (opt_string_eqb a b).

Definition contentWasCopied (st compState : Snapshot) (i : Z) : option bool :=
  match at_index st i with
  | Some b =>
      Some ((len (data b) =? 0)
            && opt_string_neqb (stringify_opt (at_index compState (i + 1)))
                               (stringify_opt (at_index st (i + 1))))
  | None => None
  end.

(** *** The cursor restorer *)

Definition setCaretIndex (i : Z) (caret : option Z) : M unit :=
  match caret with
  | Some c =>
      if negb (c =? 0) && negb (c =? -1) then
        content ← query (fun e => hasContent e i);
        if content then emit (CaretSetPosLater i c) else throw
      else emit (CaretSetToBlock i)
  | None => emit (CaretSetToBlock i)
  end.

(** *** The undo executor *)

(** The [for] loop of [insertDeletedBlock], from index [i] on. *)
Fixpoint insertDeletedBlock_from (rest : list Block) (i : Z)
    (compState : Snapshot) (focus : Z) : M unit :=
  match rest with
  | [] => ret tt
  | b :: rest' =>
      if match at_index compState i with
         | None => true
         | Some c => opt_string_neqb (id b) (id c)
         end
      then emit (BlocksInsert (type b) (data b) i true);;
           emit (CaretSetToBlock focus)
      else insertDeletedBlock_from rest' (i + 1) compState focus
  end.

Definition insertDeletedBlock (st compState : Snapshot) (focus : Z) : M unit :=
  insertDeletedBlock_from st 0 compState focus.

(** [this.stack[this.position].index = i] *)
Definition write_index (i : Z) : M unit :=
  u ← this;
  r ← defined (at_index (stack u) (position u));
  e ← defined (heap u !! r);
  update (set_heap (<[r := mkEntry i (state e) (caretIndex e)]> (heap u))).

Definition undo : M unit :=
  u ← this;
  if canUndo u then
    next ← defined (entry_at u (position u));
    let nextIndex := index next in
    let nextState := state next in
    update (set_position (position u - 1));;
    update (set_shouldSaveHistory false);;
    u ← this;
    target ← defined (entry_at u (position u));
    let st := state target in
    let caret := caretIndex target in
    emit OnUpdate;;
    blockCount ← query getBlocksCount;
    i ← match at_index st (index target) with
         | Some _ => ret (index target)
         | None => write_index (index target - 1);; ret (index target - 1)
         end;
    (if blockWasDeleted st nextState then insertDeletedBlock st nextState i
     else
       copied ← defined (contentWasCopied st nextState i);
       if copied then emit (BlocksRender st);; emit (CaretSetToBlock i)
       else if (i <? nextIndex) && blockWasSkipped st nextState then
         emit (BlocksDelete nextIndex);; emit (CaretSetToBlock i)
       else if blockCount >? len st then
         emit (BlocksRender st);; setCaretIndex i caret
       else
         dropped ← defined (blockWasDropped st nextState);
         if dropped then emit (BlocksRender st);; emit (CaretSetToBlock i)
         else if contentChangedInNoFocusBlock i nextIndex then
           live ← query (fun e => getBlockByIndex e nextIndex);
           blockId ← defined live;
           b ← defined (at_index st nextIndex);
           emit (BlocksUpdate (Some blockId) (data b));;
           setCaretIndex i caret
         else ret tt);;
    live ← query (fun e => getBlockByIndex e i);
    match live with
    | Some blockId =>
        b ← defined (at_index st i);
        emit (BlocksUpdate (Some blockId) (data b));;
        setCaretIndex i caret
    | None => ret tt
    end
  else ret tt.

(** *** The redo executor *)

(** [insertBlock(state, index)].  Its one caller, the loop of
    [insertSkippedBlocks], does not await it and keeps [index] below the
    length of [state], so the read of [state[index]] never fails there. *)
Definition insertBlock (st : Snapshot) (i : Z) : M unit :=
  b ← defined (at_index st i);
  emit (BlocksInsert (type b) (data b) i true).

Definition updateModifiedBlock (st : Snapshot) (i : Z) : M unit :=
  block ← defined (at_index st (i - 1));
  found ← query (fun e => getById e (id block));
  if found then emit (BlocksUpdate (id block) (data block))
  else emit (BlocksRender st).

(** The [for] loop of [insertSkippedBlocks]: [n] rounds from index [i]. *)
Fixpoint insertSkippedBlocks_loop (n : nat) (i : Z) (st : Snapshot) : M unit :=
  match n with
  | O => ret tt
  | S n' => insertBlock st i;; insertSkippedBlocks_loop n' (i + 1) st
  end.

Definition insertSkippedBlocks (prevState st : Snapshot) (i : Z) : M unit :=
  insertSkippedBlocks_loop (length st - length prevState) (len prevState) st;;
  if opt_string_neqb (stringify_opt (at_index prevState (i - 1)))
                     (stringify_opt (at_index st (i - 1)))
  then updateModifiedBlock st i
  else ret tt.

(** The callback of [findIndex] in [redo]. *)
Definition deleted_here (st : Snapshot) (block : Block) (i : Z) : bool :=
  negb (existsb (fun stateBlock => opt_string_eqb (id stateBlock) (id block)) st)
  || match at_index st i with
     | Some b => opt_string_neqb (id b) (id block)
     | None => false
     end.

Definition redo : M unit :=
  u ← this;
  if canRedo u then
    update (set_position (position u + 1));;
    update (set_shouldSaveHistory false);;
    u ← this;
    target ← defined (entry_at u (position u));
    let i := index target in
    let st := state target in
    let caret := caretIndex target in
    prev ← defined (entry_at u (position u - 1));
    let prevState := state prev in
    (if blockWasDeleted prevState st then
       let deletedIndex := findIndex_from (deleted_here st) prevState 0 in
       if negb (deletedIndex =? -1) then
         emit (BlocksDelete deletedIndex);;
         emit (CaretSetToBlock (Z.min deletedIndex (len st - 1)))
       else ret tt
     else if blockWasSkipped st prevState then
       insertSkippedBlocks prevState st i;;
       emit (CaretSetToBlock i)
     else
       dropped ← defined (blockWasDropped st prevState);
       if dropped && negb (position u =? 1) then
         emit (BlocksRender st);; emit (CaretSetToBlock i)
       else ret tt);;
    emit OnUpdate;;
    live ← query (fun e => getBlockByIndex e i);
    match live with
    | Some blockId =>
        b ← defined (at_index st i);
        emit (BlocksUpdate (Some blockId) (data b));;
        setCaretIndex i caret
    | None => ret tt
    end
  else ret tt.

(** *** The public wrappers *)

(** A call of an [async] method whose promise is dropped: what the method
    does is done, and its exception, the rejection of the promise, reaches
    no one. *)
Definition detached (m : M unit) : M unit :=
  fun w =>
    match m w with
    | Some (w', _) => Some (w', Normal tt)
    | None => None
    end.

Definition performUndo : M unit :=
  u ← this; if canUndo u then detached undo else ret tt.

Definition performRedo : M unit :=
  u ← this; if canRedo u then detached redo else ret tt.

End Methods.

Arguments World : clear implicits.
Arguments M : clear implicits.

(** ** A reference editor

    The simplest editor that implements the interface: the live document
    is a list of blocks, every block has a content element, and an
    inserted block receives a fresh identifier.  It serves to run the
    methods on concrete documents. *)

Module Ref.

Record Live : Type := mkLive {
  doc : list Block;
  current : Z;
  caret : Z;
  toolbox : bool;
  fresh : nat;
}.

Definition fresh_id (n : nat) : string :=
  ("live-" ++ NilZero.string_of_uint (Nat.to_uint n))%string.

Definition has_id (i : option string) (b : Block) : bool :=
  opt_string_eqb (id b) i.

Definition insert_at (i : Z) (b : Block) (d : list Block) : list Block :=
  let k := Z.to_nat (Z.max 0 (Z.min i (len d))) in
  take k d ++ b :: drop k d.

Definition delete_at (i : Z) (d : list Block) : list Block :=
  if (i <? 0) || (len d <=? i) then d
  else take (Z.to_nat i) d ++ drop (S (Z.to_nat i)) d.

Definition update_data (i : option string) (dt : JObject) (d : list Block)
    : list Block :=
  List.map (fun b => if has_id i b then mkBlock (id b) (type b) dt else b) d.

Definition perform (c : Call) (e : Live) : Live :=
  match c with
  | BlocksInsert tp d i focus =>
      mkLive (insert_at i (mkBlock (Some (fresh_id (fresh e))) tp d) (doc e))
             (if focus then i else current e) (caret e) (toolbox e) (S (fresh e))
  | BlocksDelete i =>
      mkLive (delete_at i (doc e)) (current e) (caret e) (toolbox e) (fresh e)
  | BlocksUpdate i d =>
      mkLive (update_data i d (doc e)) (current e) (caret e) (toolbox e) (fresh e)
  | BlocksRender blocks =>
      mkLive blocks (current e) (caret e) (toolbox e) (fresh e)
  | CaretSetToBlock i =>
      mkLive (doc e) i (caret e) (toolbox e) (fresh e)
  | CaretSetPosLater i offset =>
      mkLive (doc e) i offset (toolbox e) (fresh e)
  | EditorSave | OnUpdate => e
  end.

#[global] Instance editor : Editor Live := {
  getBlocksCount e := len (doc e);
  getCurrentBlockIndex e := current e;
  getBlockByIndex e i :=
    match at_index (doc e) i with
    | Some b => Some (match id b with Some s => s | None => EmptyString end)
    | None => None
    end;
  getById e i := existsb (has_id i) (doc e);
  hasSave _ := true;
  savedBlocks e := doc e;
  hasToolbox e := toolbox e;
  hasContent e i := match at_index (doc e) i with Some _ => true | None => false end;
  getPos e _ := caret e;
  perform := perform;
}.

(** The type and data of the blocks of a document, identifiers apart. *)
Definition contents (d : list Block) : list (string * JObject) :=
  List.map (fun b => (type b, data b)) d.

End Ref.

(** ** A sample document *)

Module Demo.

Definition paragraph (i text : string) : Block :=
  mkBlock (Some i) "paragraph" [("text", JStr text)].

Definition a : Block := paragraph "a" "first".
Definition b : Block := paragraph "b" "second".
Definition c : Block := paragraph "c" "third".

(** A heading of level 2, and the same heading with the keys of its data
    in the other order. *)
Definition heading : Block :=
  mkBlock (Some "h") "header"
          [("text", JStr "Title"); ("level", JNum (NumDec false 2 1))].

Definition heading_reordered : Block :=
  mkBlock (Some "h") "header"
          [("level", JNum (NumDec false 2 1)); ("text", JStr "Title")].

(** The editor showing the document [d], with the focus on block [focus],
    the caret at [offset], not read-only. *)
Definition showing (d : list Block) (focus offset : Z) : Ref.Live :=
  Ref.mkLive d focus offset true 0.

(** The same editor in read-only mode: the toolbox is gone. *)
Definition read_only (d : list Block) (focus offset : Z) : Ref.Live :=
  Ref.mkLive d focus offset false 0.

End Demo.

(** ** Sessions, invariants and specifications *)

Section Specification.

Context {E : Type} `{Editor E}.

(** The operations a caller can invoke. *)
Inductive Op : Type :=
| OpSave (newState : Snapshot)
| OpUndo
| OpRedo
| OpClear
| OpInitialize (initialData : Snapshot)
| OpRegisterChange.

Definition run (op : Op) : M E unit :=
  match op with
  | OpSave s => save s
  | OpUndo => undo
  | OpRedo => redo
  | OpClear => clear
  | OpInitialize s => initialize s
  | OpRegisterChange => registerChange
  end.

(** The editor is in state [e] when the next call is made. *)
Definition install (e : E) (w : World E) : World E :=
  mkWorld (self w) e (trace w).

(** A sequence of calls, each made in some state of the editor.  State
    written before an exception stays, and the next call goes ahead;
    [None] when a call does not return. *)
Fixpoint exec (calls : list (E * Op)) (w : World E) : option (World E) :=
  match calls with
  | [] => Some w
  | (e, op) :: rest =>
      match run op (install e w) with
      | Some (w', _) => exec rest w'
      | None => None
      end
  end.

(** A session: the constructor, then a sequence of calls. *)
Definition session (e : E) (configReadOnly : bool) (defaultBlock : string)
    (maxLength : option Z) (calls : list (E * Op)) : option (World E) :=
  match constructor e configReadOnly defaultBlock maxLength with
  | Some (w, _) => exec calls w
  | None => None
  end.

Definition saves (cs : list (E * Snapshot)) : list (E * Op) :=
  List.map (fun c => (fst c, OpSave (snd c))) cs.

Definition undos (es : list E) : list (E * Op) :=
  List.map (fun e => (e, OpUndo)) es.

Definition redos (es : list E) : list (E * Op) :=
  List.map (fun e => (e, OpRedo)) es.

(** A sequence of commits that all succeed. *)
Fixpoint commits (cs : list (E * Snapshot)) (w : World E) : option (World E) :=
  match cs with
  | [] => Some w
  | (e, s) :: rest =>
      match save s (install e w) with
      | Some (w', Normal _) => commits rest w'
      | _ => None
      end
  end.

(** The invariant of the history stack. *)
Definition inv (u : Undo) : Prop :=
  1 <= len (stack u) /\ 0 <= position u < len (stack u).

(** Every reference of the stack points into the store. *)
Definition refs_valid (u : Undo) : Prop :=
  Forall (fun r => (r < length (heap u))%nat) (stack u)
  /\ (forall r, initialItem u = Some r -> (r < length (heap u))%nat).

(** What holds of every state a session reaches when [maxLength] is
    positive. *)
Definition good (u : Undo) : Prop :=
  1 <= maxLength u /\ inv u /\ len (stack u) <= maxLength u + 1 /\ refs_valid u.

(** What every call keeps of a state [u] with the invariant, in the state
    [u'] it leaves. *)
Definition preserved (u u' : Undo) : Prop :=
  inv u'
  /\ maxLength u' = maxLength u
  /\ (len (stack u) <= maxLength u + 1 -> len (stack u') <= maxLength u + 1)
  /\ (refs_valid u -> refs_valid u').

(** [m] returns from [w], and [Q] holds of what it leaves. *)
Definition wp {A : Type} (m : M E A) (w : World E)
    (Q : World E -> Completion A -> Prop) : Prop :=
  exists w' c, m w = Some (w', c) /\ Q w' c.

(** The events [evs] were appended to the trace. *)
Definition emitted (w w' : World E) (evs : list Event) : Prop :=
  trace w' = trace w ++ evs.

(** What a replay may change: the [index] fields of the stored entries,
    the editor and the trace.  Every new call satisfies [Q] and is issued
    under the current value of [shouldSaveHistory]. *)
Definition replay_rel (Q : Call -> Prop) (w w' : World E) : Prop :=
  stack (self w') = stack (self w)
  /\ position (self w') = position (self w)
  /\ maxLength (self w') = maxLength (self w)
  /\ shouldSaveHistory (self w') = shouldSaveHistory (self w)
  /\ readOnly (self w') = readOnly (self w)
  /\ initialItem (self w') = initialItem (self w)
  /\ defaultBlock (self w') = defaultBlock (self w)
  /\ length (heap (self w')) = length (heap (self w))
  /\ (forall r, option_map state (heap (self w') !! r)
               = option_map state (heap (self w) !! r))
  /\ (forall r, option_map caretIndex (heap (self w') !! r)
               = option_map caretIndex (heap (self w) !! r))
  /\ exists evs, emitted w w' evs
       /\ Forall (fun ev => flag ev = shouldSaveHistory (self w) /\ Q (call ev)) evs.

(** Calls that leave the block structure alone. *)
Definition quiet (c : Call) : Prop := is_structural c = false.

(** Any call. *)
Definition any (c : Call) : Prop := True.

Definition replays {A : Type} (Q : Call -> Prop) (m : M E A) : Prop :=
  forall w, wp m w (fun w' _ => replay_rel Q w w').

(** The structural calls among the events. *)
Definition structural (evs : list Event) : list Call :=
  List.filter is_structural (List.map call evs).

(** The state [undo] writes before the replay. *)
Definition undo_begin (u : Undo) : Undo :=
  set_shouldSaveHistory false (set_position (position u - 1) u).

(** The state [redo] writes before the replay. *)
Definition redo_begin (u : Undo) : Undo :=
  set_shouldSaveHistory false (set_position (position u + 1) u).

(** The stack once [save] has evicted and cut it, before the push. *)
Definition save_evicted (u : Undo) : list ref :=
  if position u >=? maxLength u
  then drop (length (stack u) - Z.to_nat (maxLength u)) (stack u)
  else stack u.

Definition save_position (u : Undo) : Z :=
  Z.min (position u) (len (save_evicted u) - 1).

Definition save_stack (u : Undo) : list ref :=
  slice0 (save_evicted u) (save_position u + 1).

(** The state of [save] just before the push, where it stays when
    [getCaretIndex] raises an exception. *)
Definition save_prepared (u : Undo) : Undo :=
  mkUndo (heap u) (save_stack u) (save_position u) (maxLength u)
         (shouldSaveHistory u) (readOnly u) (initialItem u) (defaultBlock u).

(** The state [save] leaves when it has pushed the entry [ent]. *)
Definition save_pushed (u : Undo) (ent : Entry) : Undo :=
  mkUndo (heap u ++ [ent]) (save_stack u ++ [length (heap u)])
         (save_position u + 1) (maxLength u)
         (shouldSaveHistory u) (readOnly u) (initialItem u) (defaultBlock u).

(** The state [clear] leaves. *)
Definition cleared (u : Undo) : Undo :=
  match initialItem u with
  | Some r =>
      mkUndo (heap u) [r] 0 (maxLength u) (shouldSaveHistory u) (readOnly u)
             (initialItem u) (defaultBlock u)
  | None =>
      mkUndo (heap u ++ [mkEntry 0 [mkBlock None (defaultBlock u) []] None])
             [length (heap u)] 0 (maxLength u) (shouldSaveHistory u) (readOnly u)
             (initialItem u) (defaultBlock u)
  end.

(** The state [initialize] leaves. *)
Definition initialized (initialData : Snapshot) (u : Undo) : Undo :=
  mkUndo (heap u ++ [mkEntry (len initialData - 1) initialData None])
         (match stack u with
          | [] => [length (heap u)]
          | _ :: rest => length (heap u) :: rest
          end)
         (position u) (maxLength u) (shouldSaveHistory u) (readOnly u)
         (Some (length (heap u))) (defaultBlock u).

(** The result of [editorDidUpdate] against the snapshot [current]. *)
Definition did_update (current newData : Snapshot) : bool :=
  if len newData =? 0 then false
  else if negb (len newData =? len current) then true
  else negb (String.eqb (stringify current) (stringify newData)).

(** The last [k] elements of a list. *)
Definition lastn {A : Type} (k : nat) (l : list A) : list A :=
  drop (length l - k) l.

(** The snapshot stored at the current position. *)
Definition current_snapshot (u : Undo) : option Snapshot :=
  option_map state (entry_at u (position u)).

End Specification.

(** ** Sample sessions on the reference editor *)

Module Scenario.

Import Demo.

(** The editor shows [[a; b; c]], focus on [b]. *)
Definition editing_abc : Ref.Live := showing [a; b; c] 1 2.

(** The editor shows [[a; c]] once [b] is removed, focus on [a]. *)
Definition editing_ac : Ref.Live := showing [a; c] 0 1.

Definition blank : World Ref.Live :=
  mkWorld (mkUndo [] [] 0 30 true false None "paragraph") (showing [] 0 0) [].

Definition reached (o : option (World Ref.Live)) : World Ref.Live :=
  match o with
  | Some w => w
  | None => blank
  end.

Definition returned {A : Type} (o : option (World Ref.Live * Completion A))
    : World Ref.Live :=
  match o with
  | Some (w, _) => w
  | None => blank
  end.

(** The commits of the deletion round trip: [[a; b; c]], then [[a; c]]. *)
Definition deletion : list (Ref.Live * Snapshot) :=
  [(editing_abc, [a; b; c]); (editing_ac, [a; c])].

(** After the constructor and the two commits. *)
Definition committed : World Ref.Live :=
  Eval vm_compute in
    reached (session editing_abc false "paragraph" None (saves deletion)).

(** After the [undo] that follows. *)
Definition undone : World Ref.Live :=
  Eval vm_compute in returned (undo committed).

(** After the [redo] that follows. *)
Definition redone : World Ref.Live :=
  Eval vm_compute in returned (redo undone).

(** After a commit of [[a]] that follows the [undo]. *)
Definition recommitted : World Ref.Live :=
  Eval vm_compute in returned (save [a] (install (showing [a] 0 0) undone)).

(** After a second commit of [[a; c]], the snapshot of the current
    position, right after the two commits. *)
Definition committed_again : World Ref.Live :=
  Eval vm_compute in returned (save [a; c] committed).

(** A session whose stack keeps two changes. *)
Definition small : option Z := Some 2.

(** Three commits in that session. *)
Definition three : list (Ref.Live * Snapshot) :=
  [(showing [a] 0 0, [a]); (showing [a; b] 1 0, [a; b]);
   (showing [a; b; c] 2 0, [a; b; c])].

Definition opened_small : World Ref.Live :=
  Eval vm_compute in returned (constructor (showing [] 0 0) false "paragraph" small).

Definition committed_three : World Ref.Live :=
  Eval vm_compute in reached (commits three opened_small).

(** A session at capacity: [maxLength] is 1 and one change is recorded. *)
Definition full : World Ref.Live :=
  Eval vm_compute in
    reached (session (showing [a] 0 0) false "paragraph" (Some 1)
                     (saves [(showing [a] 0 0, [a])])).

Definition full_again : World Ref.Live :=
  Eval vm_compute in returned (save [a] full).

(** A read-only session. *)
Definition locked : World Ref.Live :=
  Eval vm_compute in
    returned (constructor (read_only [a] 0 0) true "paragraph" None).

(** The sample session after its [undo], once the toolbox is gone: the
    instance is read-only in the middle of its history. *)
Definition locked_midway : World Ref.Live :=
  Eval vm_compute in
    returned (registerChange (install (read_only [a; b; c] 1 2) undone)).

(** A session with one commit, of the heading. *)
Definition titled : World Ref.Live :=
  Eval vm_compute in
    reached (session (showing [heading] 0 0) false "paragraph" None
                     (saves [(showing [heading] 0 0, [heading])])).

(** The editor then reports the heading with the keys of its data in the
    other order. *)
Definition retitling : World Ref.Live :=
  install (showing [heading_reordered] 0 0) titled.

(** After the observation of that report. *)
Definition retitled : World Ref.Live :=
  Eval vm_compute in returned (registerChange retitling).

End Scenario.

(** ** The rest of the class: shortcuts, and the parts of the executors *)

(** *** [parseKeys] *)

(** What [specialKeys[key]] can be: a string of the object literal, a
    member the literal inherits from [Object.prototype] (a function, or
    the prototype itself for [__proto__]), or [undefined]. *)
Inductive KeyValue : Type :=
| KString (s : string)
| KInherited (name : string)
| KUndefined.

(** The property names of [Object.prototype] in a standard environment. *)
Definition object_prototype_names : list string :=
  ["constructor"; "hasOwnProperty"; "isPrototypeOf"; "propertyIsEnumerable";
   "toLocaleString"; "toString"; "valueOf"; "__proto__";
   "__defineGetter__"; "__defineSetter__"; "__lookupGetter__"; "__lookupSetter__"].

Definition inherited (key : string) : bool :=
  existsb (String.eqb key) object_prototype_names.

Section ParseKeys.

(** [String.prototype.toUpperCase] and [toLowerCase], and whether
    [navigator.platform] matches [/(Mac)/i]. *)
Variables (toUpperCase toLowerCase : string -> string) (mac : bool).

(** [specialKeys[key]]: the own properties of the literal first, then
    what it inherits. *)
Definition specialKeys (key : string) : KeyValue :=
  if String.eqb key "CMD" then KString (if mac then "metaKey" else "ctrlKey")
  else if String.eqb key "ALT" then KString "altKey"
  else if String.eqb key "SHIFT" then KString "shiftKey"
  else if inherited key then KInherited key
  else KUndefined.

(** [arr.includes(x)] for a string [x]: only the same string is the same
    value. *)
Definition includes (x : string) (arr : list KeyValue) : bool :=
  existsb (fun v => match v with
                    | KString s => String.eqb x s
                    | _ => false
                    end) arr.

(** [parseKeys(keys)]; [None] is the [TypeError] of reading the last key
    of an empty array. *)
Definition parseKeys (keys : list string) : option (list KeyValue) :=
  let parsedKeys := List.map specialKeys (slice0 keys (-1)) in
  let shifted := includes "shiftKey" parsedKeys && (len keys =? 2) in
  match at_index keys (len keys - 1) with
  | Some letter =>
      Some (parsedKeys
            ++ [KString (if shifted then toUpperCase letter
                         else toLowerCase letter)])
  | None => None
  end.

End ParseKeys.

(** Case conversion of the letters of ASCII, to run [parseKeys]. *)
Definition ascii_upper (c : ascii) : ascii :=
  let n := N_of_ascii c in
  if ((97 <=? n) && (n <=? 122))%N then ascii_of_N (n - 32) else c.

Definition ascii_lower (c : ascii) : ascii :=
  let n := N_of_ascii c in
  if ((65 <=? n) && (n <=? 90))%N then ascii_of_N (n + 32) else c.

Fixpoint string_map (f : ascii -> ascii) (s : string) : string :=
  match s with
  | EmptyString => EmptyString
  | String c rest => String (f c) (string_map f rest)
  end.

Section Parts.

Context {E : Type} `{Editor E}.

(** [isUndoAvailable()] and [isRedoAvailable()] *)
Definition isUndoAvailable (u : Undo) : bool := canUndo u.
Definition isRedoAvailable (u : Undo) : bool := canRedo u.

(** The end of [undo] and of [redo]: the block in focus takes the data of
    the snapshot. *)
Definition sync_focused (st : Snapshot) (i : Z) (caret : option Z) : M E unit :=
  bind (query (fun e => getBlockByIndex e i)) (fun live =>
  match live with
  | Some blockId =>
      bind (defined (at_index st i)) (fun b =>
      bind (emit (BlocksUpdate (Some blockId) (data b))) (fun _ =>
      setCaretIndex i caret))
  | None => ret tt
  end).

(** The chain of branches of [undo]. *)
Definition undo_branch (st nextState : Snapshot) (i nextIndex blockCount : Z)
    (caret : option Z) : M E unit :=
  if blockWasDeleted st nextState then insertDeletedBlock st nextState i
  else
    bind (defined (contentWasCopied st nextState i)) (fun copied =>
    if copied then
      bind (emit (BlocksRender st)) (fun _ => emit (CaretSetToBlock i))
    else if (i <? nextIndex) && blockWasSkipped st nextState then
      bind (emit (BlocksDelete nextIndex)) (fun _ => emit (CaretSetToBlock i))
    else if blockCount >? len st then
      bind (emit (BlocksRender st)) (fun _ => setCaretIndex i caret)
    else
      bind (defined (blockWasDropped st nextState)) (fun dropped =>
      if dropped then
        bind (emit (BlocksRender st)) (fun _ => emit (CaretSetToBlock i))
      else if contentChangedInNoFocusBlock i nextIndex then
        bind (query (fun e => getBlockByIndex e nextIndex)) (fun live =>
        bind (defined live) (fun blockId =>
        bind (defined (at_index st nextIndex)) (fun b =>
        bind (emit (BlocksUpdate (Some blockId) (data b))) (fun _ =>
        setCaretIndex i caret))))
      else ret tt)).

(** The chain of branches of [redo]; [p] is the position after the
    step. *)
Definition redo_branch (prevState st : Snapshot) (i p : Z) : M E unit :=
  if blockWasDeleted prevState st then
    let deletedIndex := findIndex_from (deleted_here st) prevState 0 in
    if negb (deletedIndex =? -1) then
      bind (emit (BlocksDelete deletedIndex)) (fun _ =>
      emit (CaretSetToBlock (Z.min deletedIndex (len st - 1))))
    else ret tt
  else if blockWasSkipped st prevState then
    bind (insertSkippedBlocks prevState st i) (fun _ => emit (CaretSetToBlock i))
  else
    bind (defined (blockWasDropped st prevState)) (fun dropped =>
    if dropped && negb (p =? 1) then
      bind (emit (BlocksRender st)) (fun _ => emit (CaretSetToBlock i))
    else ret tt).

(** The index [undo] works with: the recorded one, or the one before it
    when the snapshot has no block there. *)
Definition undo_index (target : Entry) : Z :=
  match at_index (state target) (index target) with
  | Some _ => index target
  | None => index target - 1
  end.

(** The state [undo] leaves: the position and the flag are written, and
    the index of the entry [r] it enters when it had to be corrected. *)
Definition undo_written (u : Undo) (r : ref) (target : Entry) : Undo :=
  match at_index (state target) (index target) with
  | Some _ => undo_begin u
  | None =>
      set_heap (<[r := mkEntry (index target - 1) (state target) (caretIndex target)]>
                  (heap u))
               (undo_begin u)
  end.

(** The index [save] records: the index of the live block in focus, moved
    back by the number of blocks the snapshot lacks when the snapshot has
    no block there. *)
Definition save_index (e : E) (s : Snapshot) : Z :=
  let i := getCurrentBlockIndex e in
  match at_index s i with
  | Some _ => i
  | None => i - (getBlocksCount e - len s)
  end.

(** Whether [save] reads the caret: the block it resolved is a paragraph
    or a header. *)
Definition save_reads_caret (e : E) (s : Snapshot) : bool :=
  match at_index s (save_index e s) with
  | Some b => is_text_type (type b)
  | None => false
  end.

(** The entry [save] pushes when it succeeds. *)
Definition save_entry (e : E) (s : Snapshot) : Entry :=
  mkEntry (save_index e s) s
          (if save_reads_caret e s then Some (getPos e (getCurrentBlockIndex e))
           else None).

(** [m] leaves the state of the instance as it is. *)
Definition keeps {A : Type} (m : M E A) : Prop :=
  forall w, wp m w (fun w' _ => self w' = self w).

(** [m] returns from [w] and its structural calls are [cs], in this
    order. *)
Definition issues {A : Type} (m : M E A) (w : World E) (cs : list Call) : Prop :=
  exists w' r evs, m w = Some (w', r) /\ emitted w w' evs /\ structural evs = cs.

(** The same, [m] completing normally. *)
Definition completes {A : Type} (m : M E A) (w : World E) (cs : list Call) : Prop :=
  exists w' a evs,
    m w = Some (w', Normal a) /\ emitted w w' evs /\ structural evs = cs
    /\ self w' = self w.

(** The store only grows, and what an entry holds of the document, its
    snapshot and its caret offset, never changes. *)
Definition extends (u u' : Undo) : Prop :=
  (length (heap u) <= length (heap u'))%nat
  /\ forall r ent, heap u !! r = Some ent ->
       exists ent', heap u' !! r = Some ent'
         /\ state ent' = state ent /\ caretIndex ent' = caretIndex ent.

(** No call of the sequence is [initialize]. *)
Definition no_initialize (calls : list (E * Op)) : Prop :=
  Forall (fun c => match snd c with OpInitialize _ => False | _ => True end) calls.

(** The insertions of the blocks [blocks] at the indices from [i] on. *)
Fixpoint insertions (blocks : list Block) (i : Z) : list Call :=
  match blocks with
  | [] => []
  | b :: rest => BlocksInsert (type b) (data b) i true :: insertions rest (i + 1)
  end.

End Parts.

(** The identifiers of the blocks of a snapshot, in order. *)
Definition identifiers (st : Snapshot) : list (option string) := List.map id st.

(** ** More sample sessions *)

Module Samples.

Import Demo Scenario.

(** The block [a] with its text edited. *)
Definition a_edited : Block := paragraph "a" "first, edited".

(** The commits of an edit: [[a; b]], then the text of [a] changed. *)
Definition edit : list (Ref.Live * Snapshot) :=
  [(showing [a; b] 0 5, [a; b]); (showing [a_edited; b] 0 13, [a_edited; b])].

Definition edited : World Ref.Live :=
  Eval vm_compute in
    reached (session (showing [a; b] 0 5) false "paragraph" None (saves edit)).

Definition edit_undone : World Ref.Live :=
  Eval vm_compute in returned (undo edited).

(** The commits of a move: [[a; b]], then [[b; a]]. *)
Definition move : list (Ref.Live * Snapshot) :=
  [(showing [a; b] 0 5, [a; b]); (showing [b; a] 1 5, [b; a])].

Definition moved : World Ref.Live :=
  Eval vm_compute in
    reached (session (showing [a; b] 0 5) false "paragraph" None (saves move)).

Definition move_undone : World Ref.Live :=
  Eval vm_compute in returned (undo moved).

(** The commits of the removal of the first block: [[a; b; c]], then
    [[b; c]]. *)
Definition removal : list (Ref.Live * Snapshot) :=
  [(editing_abc, [a; b; c]); (showing [b; c] 0 0, [b; c])].

Definition removed : World Ref.Live :=
  Eval vm_compute in
    reached (session editing_abc false "paragraph" None (saves removal)).

(** A session initialized with a document without blocks, then a commit
    of [[a]]. *)
Definition emptied : World Ref.Live :=
  Eval vm_compute in
    reached (session (showing [] 0 0) false "paragraph" None
               [(showing [] 0 0, OpInitialize []); (showing [a] 0 0, OpSave [a])]).

(** A paragraph without data, and the commits of an append to it. *)
Definition blank_paragraph : Block := mkBlock (Some "e") "paragraph" [].

Definition growth : list (Ref.Live * Snapshot) :=
  [(showing [blank_paragraph] 0 0, [blank_paragraph]);
   (showing [blank_paragraph; b] 1 0, [blank_paragraph; b])].

Definition grown : World Ref.Live :=
  Eval vm_compute in
    reached (session (showing [blank_paragraph] 0 0) false "paragraph" None
               (saves growth)).

(** The commits of an append made with the focus on the first block. *)
Definition refocus : list (Ref.Live * Snapshot) :=
  [(showing [a; b] 1 0, [a; b]); (showing [a; b; c] 0 0, [a; b; c])].

Definition refocused : World Ref.Live :=
  Eval vm_compute in
    reached (session (showing [a; b] 1 0) false "paragraph" None (saves refocus)).

(** The session of three commits after an [undo]. *)
Definition three_undone : World Ref.Live :=
  Eval vm_compute in returned (undo committed_three).

(** Calls after an [initialize]: a commit, an undo, a commit. *)
Definition busy : list (Ref.Live * Op) :=
  [(showing [a; b; c] 2 0, OpSave [a; b; c]); (showing [a; b; c] 2 0, OpUndo);
   (showing [a] 0 3, OpSave [a])].

End Samples.

(** * Properties *)

(** ** [JSON.stringify] can be read back

    The serialisation of a well-formed value determines the value: two
    snapshots have the same serialisation exactly when they are the same,
    the order of the keys of every object included. *)

Lemma chars_app (a b : string) : chars (a ++ b)%string = chars a ++ chars b.
Proof. induction a as [|c a IH]; simpl; [reflexivity|]. rewrite IH. reflexivity. Qed.

Lemma chars_inj (a b : string) : chars a = chars b -> a = b.
Proof.
  intros Heq. rewrite <- (string_of_list_ascii_of_string a),
    <- (string_of_list_ascii_of_string b), Heq. reflexivity.
Qed.

Lemma chars_number (x : number) : chars (number_to_string x) = number_chars x.
Proof. apply list_ascii_of_string_of_list_ascii. Qed.

(** *** Strings *)

Lemma unescape_escape (c : ascii) (rest : list ascii) :
  unescape_char (chars (escape_char c) ++ rest) = Some (c, rest).
Proof.
  destruct c as [[] [] [] [] [] [] [] []]; reflexivity.
Qed.

Lemma escape_delimited (s s' : string) (r r' : list ascii) :
  chars (escape s) ++ dquote :: r = chars (escape s') ++ dquote :: r' ->
  s = s' /\ r = r'.
Proof.
  revert s'. induction s as [|c s IH]; intros [|c' s'] Heq; simpl in Heq.
  - injection Heq as ->. split; reflexivity.
  - apply (f_equal unescape_char) in Heq.
    rewrite chars_app, <- app_assoc, unescape_escape in Heq. discriminate.
  - apply (f_equal unescape_char) in Heq.
    rewrite chars_app, <- app_assoc, unescape_escape in Heq. discriminate.
  - apply (f_equal unescape_char) in Heq.
    rewrite !chars_app, <- !app_assoc, !unescape_escape in Heq.
    injection Heq as -> Heq. destruct (IH _ Heq) as (-> & ->).
    split; reflexivity.
Qed.

Lemma chars_quote (s : string) :
  chars (quote s) = dquote :: chars (escape s) ++ [dquote].
Proof. unfold quote. simpl. rewrite chars_app. reflexivity. Qed.

Lemma quote_delimited (s s' : string) (r r' : list ascii) :
  chars (quote s) ++ r = chars (quote s') ++ r' -> s = s' /\ r = r'.
Proof.
  rewrite !chars_quote. simpl. rewrite <- !app_assoc. simpl.
  intros Heq. injection Heq as Heq. exact (escape_delimited _ _ _ _ Heq).
Qed.

(** *** Numbers *)

Lemma uint_chars_digits (d : uint) :
  Forall (fun c => is_digit c = true) (chars (NilEmpty.string_of_uint d)).
Proof. induction d; simpl; constructor; auto. Qed.

Lemma digits_all (s : positive) : Forall (fun c => is_digit c = true) (digits s).
Proof. apply uint_chars_digits. Qed.

Lemma to_uint_no_leading_zero (p : positive) (u : uint) : Pos.to_uint p <> D0 u.
Proof.
  intros Heq.
  pose proof (Unsigned.to_of (Pos.to_uint p)) as Hnorm.
  rewrite Unsigned.of_to in Hnorm. simpl in Hnorm.
  rewrite Heq in Hnorm. unfold unorm in Hnorm. rewrite nzhead_D0 in Hnorm.
  destruct (nzhead u) eqn:Hu;
    try (apply (nzhead_nonzero u u); congruence).
  injection Hnorm as ->. exact (Unsigned.to_uint_nonzero p Heq).
Qed.

Lemma digits_head (s : positive) :
  exists c rest, digits s = c :: rest /\ Ascii.eqb c "0" = false.
Proof.
  unfold digits. destruct (Pos.to_uint s) as [|u|u|u|u|u|u|u|u|u|u] eqn:Hs; simpl;
    try (eexists _, _; split; reflexivity).
  - contradiction (Unsigned.to_uint_nonnil s).
  - contradiction (to_uint_no_leading_zero s u).
Qed.

Lemma digits_inj (s s' : positive) : digits s = digits s' -> s = s'.
Proof.
  unfold digits. intros Heq. apply chars_inj in Heq.
  apply (f_equal NilEmpty.uint_of_string) in Heq. rewrite !NilEmpty.usu in Heq.
  injection Heq as Heq. apply Unsigned.to_uint_inj. exact Heq.
Qed.

Lemma length_digits_pos (s : positive) : 1 <= Z.of_nat (length (digits s)).
Proof.
  destruct (digits_head s) as (c & rest & -> & _). simpl length. lia.
Qed.

Lemma existsb_not_digit (c : ascii) (l : list ascii) :
  is_digit c = false -> Forall (fun d => is_digit d = true) l ->
  existsb (Ascii.eqb c) l = false.
Proof.
  intros Hc. induction 1 as [|d l Hd _ IH]; simpl; [reflexivity|].
  rewrite IH, orb_false_r. destruct (Ascii.eqb_spec c d) as [->|]; [congruence|reflexivity].
Qed.

Lemma zeros_digits (k : nat) : Forall (fun c => is_digit c = true) (zeros k).
Proof. unfold zeros. apply Forall_replicate. reflexivity. Qed.

Lemma split_first (c : ascii) (l1 l2 r1 r2 : list ascii) :
  existsb (Ascii.eqb c) l1 = false -> existsb (Ascii.eqb c) l2 = false ->
  l1 ++ c :: r1 = l2 ++ c :: r2 -> l1 = l2 /\ r1 = r2.
Proof.
  revert l2. induction l1 as [|a l1 IH]; intros [|b l2] H1 H2 Heq; simpl in *.
  - injection Heq as ->. split; reflexivity.
  - injection Heq as -> _. rewrite Ascii.eqb_refl in H2. discriminate.
  - injection Heq as -> _. rewrite Ascii.eqb_refl in H1. discriminate.
  - injection Heq as -> Heq.
    apply orb_false_elim in H1 as (_ & H1). apply orb_false_elim in H2 as (_ & H2).
    destruct (IH _ H1 H2 Heq) as (-> & ->). split; reflexivity.
Qed.

Lemma zeros_head (a b : nat) (l l' : list ascii) :
  no_leading_zero l -> no_leading_zero l' ->
  zeros a ++ l = zeros b ++ l' -> a = b /\ l = l'.
Proof.
  revert b. induction a as [|a IH]; intros [|b] Hl Hl' Heq; simpl in Heq.
  - split; [reflexivity|exact Heq].
  - subst l. simpl in Hl. discriminate.
  - subst l'. simpl in Hl'. discriminate.
  - injection Heq as Heq. destruct (IH b Hl Hl' Heq) as (-> & ->).
    split; reflexivity.
Qed.

Lemma zeros_tail (a b : nat) (l l' : list ascii) :
  no_leading_zero (reverse l) -> no_leading_zero (reverse l') ->
  l ++ zeros a = l' ++ zeros b -> l = l' /\ a = b.
Proof.
  intros Hl Hl' Heq. apply (f_equal reverse) in Heq.
  rewrite !reverse_app in Heq. unfold zeros in Heq.
  rewrite !reverse_replicate in Heq.
  destruct (zeros_head a b _ _ Hl Hl' Heq) as (-> & Hrev).
  split; [|reflexivity].
  rewrite <- (reverse_involutive l), <- (reverse_involutive l'), Hrev. reflexivity.
Qed.

Lemma shortest_reverse (s : positive) :
  shortest s = true -> no_leading_zero (reverse (digits s)).
Proof.
  unfold shortest. rewrite <- head_reverse.
  destruct (reverse (digits s)) as [|c rest]; simpl; [trivial|].
  intros Hc. apply negb_true_iff in Hc. exact Hc.
Qed.

Lemma exponent_chars_inj (e e' : Z) : exponent_chars e = exponent_chars e' -> e = e'.
Proof.
  unfold exponent_chars. intros Heq. injection Heq as Hsign Hmag.
  assert (Habs : Z.abs_N e = Z.abs_N e').
  { destruct (Z.abs_N e) as [|p] eqn:Hp, (Z.abs_N e') as [|p'] eqn:Hp'.
    - reflexivity.
    - destruct (digits_head p') as (c & rest & Hd & Hc). rewrite Hd in Hmag.
      injection Hmag as <- _. discriminate.
    - destruct (digits_head p) as (c & rest & Hd & Hc). rewrite Hd in Hmag.
      injection Hmag as -> _. discriminate.
    - f_equal. apply digits_inj. exact Hmag. }
  destruct (Z.ltb_spec e 0), (Z.ltb_spec e' 0); try discriminate; lia.
Qed.

Lemma exponent_chars_shape (e : Z) :
  existsb (Ascii.eqb "e") (exponent_chars e) = false
  /\ existsb (Ascii.eqb ".") (exponent_chars e) = false.
Proof.
  unfold exponent_chars.
  assert (Hmag : Forall (fun c => is_digit c = true)
                   match Z.abs_N e with N0 => ["0"%char] | Npos p => digits p end).
  { destruct (Z.abs_N e); [repeat constructor|apply digits_all]. }
  split; cbn [existsb]; rewrite existsb_not_digit by (reflexivity || exact Hmag);
    destruct (e <? 0); reflexivity.
Qed.

Lemma unsigned_chars_form (s : positive) (n : Z) : form s n (unsigned_chars s n).
Proof.
  pose proof (digits_all s) as Hall. pose proof (length_digits_pos s) as Hk.
  destruct (digits_head s) as (c & rest & Hds & Hc).
  destruct (exponent_chars_shape (n - 1)) as (Hee & Hed).
  assert (He : forall l, Forall (fun d => is_digit d = true) l ->
                         existsb (Ascii.eqb "e") l = false)
    by (intros l; apply existsb_not_digit; reflexivity).
  assert (Hd : forall l, Forall (fun d => is_digit d = true) l ->
                         existsb (Ascii.eqb ".") l = false)
    by (intros l; apply existsb_not_digit; reflexivity).
  assert (Hshape : forall u : list ascii,
            shape (digits s ++ u)
            = (existsb (Ascii.eqb "e") u, existsb (Ascii.eqb ".") u, false)).
  { intros u. unfold shape. rewrite !existsb_app, (He _ Hall), (Hd _ Hall).
    rewrite Hds. simpl. rewrite Hc. reflexivity. }
  assert (Htake : forall (m : nat) (u : list ascii), (0 < m)%nat ->
            shape (take m (digits s) ++ "."%char :: drop m (digits s) ++ u)
            = (existsb (Ascii.eqb "e") u, true, false)).
  { intros m u Hm. unfold shape. rewrite !existsb_app. cbn [existsb].
    rewrite !existsb_app.
    rewrite (He _ (Forall_take _ m _ Hall)), (He _ (Forall_drop _ m _ Hall)).
    rewrite Hds. destruct m as [|m]; [lia|]. simpl. rewrite Hc, orb_true_r.
    reflexivity. }
  unfold unsigned_chars. cbv zeta.
  destruct (Z.leb_spec (Z.of_nat (length (digits s))) n) as [Hkn|Hkn];
    destruct (Z.leb_spec n 21) as [Hn21|Hn21];
    destruct (Z.ltb_spec 0 n) as [H0|H0];
    destruct (Z.ltb_spec (-6) n) as [H6|H6];
    destruct (Z.leb_spec n 0) as [Hn0|Hn0];
    destruct (Z.eqb_spec (Z.of_nat (length (digits s))) 1) as [H1|H1];
    cbn [andb]; try (exfalso; lia).
  all: first
    [ apply form_integer; [lia|reflexivity|];
      rewrite Hshape, (He _ (zeros_digits _)), (Hd _ (zeros_digits _));
      reflexivity
    | apply form_fraction; [lia|lia|reflexivity|];
      rewrite <- (app_nil_r (drop _ _)), Htake by lia; reflexivity
    | apply form_small; [lia|reflexivity|];
      unfold shape; cbn [existsb]; rewrite !existsb_app;
      rewrite (He _ Hall), (He _ (zeros_digits _)); reflexivity
    | apply form_exponent_1; [lia|exact H1|reflexivity|];
      rewrite Hshape; cbn [existsb]; rewrite Hee, Hed; reflexivity
    | apply form_exponent; [lia|lia|reflexivity|];
      rewrite Htake by lia; cbn [existsb]; rewrite Hee; reflexivity ].
Qed.

Lemma unsigned_chars_inj (s s' : positive) (n n' : Z) :
  shortest s = true -> shortest s' = true ->
  unsigned_chars s n = unsigned_chars s' n' -> s = s' /\ n = n'.
Proof.
  intros Hs Hs' Heq.
  pose proof (digits_all s) as Hall. pose proof (digits_all s') as Hall'.
  assert (He : forall l, Forall (fun d => is_digit d = true) l ->
                         existsb (Ascii.eqb "e") l = false)
    by (intros l; apply existsb_not_digit; reflexivity).
  assert (Hd : forall l, Forall (fun d => is_digit d = true) l ->
                         existsb (Ascii.eqb ".") l = false)
    by (intros l; apply existsb_not_digit; reflexivity).
  assert (Hnz : forall t, no_leading_zero (digits t)).
  { intros t. destruct (digits_head t) as (c & rest & -> & Hc). exact Hc. }
  destruct (unsigned_chars_form s n) as [Hn Hu Hsh|Hn Hn21 Hu Hsh|Hn Hu Hsh
                                        |Hn Hk Hu Hsh|Hn Hk Hu Hsh];
    destruct (unsigned_chars_form s' n') as [Hn' Hu' Hsh'|Hn' Hn21' Hu' Hsh'
                                            |Hn' Hu' Hsh'|Hn' Hk' Hu' Hsh'
                                            |Hn' Hk' Hu' Hsh'];
    try (rewrite Heq in Hsh; rewrite Hsh in Hsh'; discriminate).
  - rewrite Hu, Hu' in Heq.
    destruct (zeros_tail _ _ _ _ (shortest_reverse _ Hs) (shortest_reverse _ Hs') Heq)
      as (Hds & Hz).
    apply digits_inj in Hds. subst s'. split; [reflexivity|]. lia.
  - rewrite Hu, Hu' in Heq.
    destruct (split_first "." _ _ _ _ (Hd _ (Forall_take _ _ _ Hall))
                (Hd _ (Forall_take _ _ _ Hall')) Heq) as (Htake & Hdrop).
    assert (Hds : digits s = digits s')
      by (rewrite <- (take_drop (Z.to_nat n) (digits s)),
            <- (take_drop (Z.to_nat n') (digits s')), Htake, Hdrop; reflexivity).
    apply (f_equal length) in Htake. rewrite !length_take in Htake.
    apply digits_inj in Hds. subst s'. split; [reflexivity|].
    lia.
  - rewrite Hu, Hu' in Heq. injection Heq as Heq.
    destruct (zeros_head _ _ _ _ (Hnz s) (Hnz s') Heq) as (Hz & Hds).
    apply digits_inj in Hds. subst s'. split; [reflexivity|]. lia.
  - rewrite Hu, Hu' in Heq.
    destruct (split_first "e" _ _ _ _ (He _ Hall) (He _ Hall') Heq) as (Hds & Hexp).
    apply digits_inj in Hds. apply exponent_chars_inj in Hexp.
    subst s'. split; [reflexivity|]. lia.
  - rewrite Hu, Hu' in Heq.
    change (?x ++ "."%char :: ?y ++ "e"%char :: ?z)
      with (x ++ ("."%char :: y) ++ "e"%char :: z) in Heq.
    rewrite !app_assoc in Heq.
    assert (Hmant : forall t, existsb (Ascii.eqb "e")
                                (take 1 (digits t) ++ "."%char :: drop 1 (digits t))
                              = false).
    { intros t. rewrite existsb_app. cbn [existsb].
      rewrite (He _ (Forall_take _ _ _ (digits_all t))),
        (He _ (Forall_drop _ _ _ (digits_all t))). reflexivity. }
    destruct (split_first "e" _ _ _ _ (Hmant s) (Hmant s') Heq) as (Hm & Hexp).
    destruct (split_first "." _ _ _ _ (Hd _ (Forall_take _ _ _ Hall))
                (Hd _ (Forall_take _ _ _ Hall')) Hm) as (Htake & Hdrop).
    assert (Hds : digits s = digits s')
      by (rewrite <- (take_drop 1 (digits s)), <- (take_drop 1 (digits s')),
            Htake, Hdrop; reflexivity).
    apply digits_inj in Hds. apply exponent_chars_inj in Hexp.
    subst s'. split; [reflexivity|]. lia.
Qed.

Lemma unsigned_chars_head (s : positive) (n : Z) :
  exists c rest, unsigned_chars s n = c :: rest /\ is_digit c = true.
Proof.
  pose proof (digits_all s) as Hall.
  destruct (digits_head s) as (c & rest & Hds & Hc).
  rewrite Hds in Hall. apply Forall_cons in Hall as (Hdc & _).
  destruct (unsigned_chars_form s n) as [Hn Hu Hsh|Hn Hn21 Hu Hsh|Hn Hu Hsh
                                        |Hn Hk Hu Hsh|Hn Hk Hu Hsh];
    rewrite Hu, ?Hds.
  - eexists _, _. split; [reflexivity|exact Hdc].
  - destruct (Z.to_nat n) as [|m] eqn:Hm; [lia|]. simpl.
    eexists _, _. split; [reflexivity|exact Hdc].
  - eexists _, _. split; reflexivity.
  - eexists _, _. split; [reflexivity|exact Hdc].
  - simpl. eexists _, _. split; [reflexivity|exact Hdc].
Qed.

Lemma number_chars_inj (x y : number) :
  match x with NumDec _ s _ => shortest s = true | NumZero => True end ->
  match y with NumDec _ s _ => shortest s = true | NumZero => True end ->
  number_chars x = number_chars y -> x = y.
Proof.
  intros Hx Hy Heq.
  assert (Hzero : forall s n, unsigned_chars s n <> ["0"%char]).
  { intros s n Hu. destruct (unsigned_chars_form s n) as [? ? Hsh|? ? ? Hsh|? ? Hsh
                                                      |? ? ? Hsh|? ? ? Hsh];
      rewrite Hu in Hsh; discriminate. }
  assert (Hminus : forall s n rest, unsigned_chars s n <> "-"%char :: rest).
  { intros s n rest Hu. destruct (unsigned_chars_head s n) as (c & r & Hc & Hd).
    rewrite Hu in Hc. injection Hc as <- _. discriminate. }
  destruct x as [|neg s n], y as [|neg' s' n']; simpl in Heq.
  - reflexivity.
  - destruct neg'; simpl in Heq; [discriminate|].
    symmetry in Heq. contradiction (Hzero _ _ Heq).
  - destruct neg; simpl in Heq; [discriminate|]. contradiction (Hzero _ _ Heq).
  - destruct neg, neg'; simpl in Heq.
    + injection Heq as Heq.
      destruct (unsigned_chars_inj _ _ _ _ Hx Hy Heq) as (-> & ->). reflexivity.
    + symmetry in Heq. contradiction (Hminus _ _ _ Heq).
    + contradiction (Hminus _ _ _ Heq).
    + destruct (unsigned_chars_inj _ _ _ _ Hx Hy Heq) as (-> & ->). reflexivity.
Qed.

Lemma exponent_chars_number (e : Z) :
  Forall (fun c => is_number_char c = true) (exponent_chars e).
Proof.
  unfold exponent_chars. constructor; [destruct (e <? 0); reflexivity|].
  destruct (Z.abs_N e) as [|p]; [repeat constructor|].
  eapply Forall_impl; [apply digits_all|]. intros c Hc. unfold is_number_char.
  rewrite Hc. reflexivity.
Qed.

Lemma number_chars_all (x : number) :
  Forall (fun c => is_number_char c = true) (number_chars x).
Proof.
  assert (Hdig : forall l, Forall (fun c => is_digit c = true) l ->
                           Forall (fun c => is_number_char c = true) l).
  { intros l Hl. eapply Forall_impl; [exact Hl|]. intros c Hc.
    unfold is_number_char. rewrite Hc. reflexivity. }
  destruct x as [|neg s n]; [repeat constructor|]. simpl.
  apply Forall_app. split; [destruct neg; repeat constructor|].
  pose proof (Hdig _ (digits_all s)) as Hall.
  destruct (unsigned_chars_form s n) as [Hn Hu Hsh|Hn Hn21 Hu Hsh|Hn Hu Hsh
                                        |Hn Hk Hu Hsh|Hn Hk Hu Hsh];
    rewrite Hu;
    repeat first [ apply Forall_app; split
                 | apply Forall_cons; split; [reflexivity|]
                 | apply Forall_take | apply Forall_drop
                 | exact Hall | apply Hdig, zeros_digits
                 | apply exponent_chars_number ].
Qed.

Lemma number_chars_nonempty (x : number) : number_chars x <> [].
Proof.
  destruct x as [|neg s n]; [discriminate|]. simpl.
  destruct (unsigned_chars_head s n) as (c & rest & -> & _).
  destruct neg; discriminate.
Qed.

(** A token ends where the characters of its kind end. *)
Lemma munch (P : ascii -> bool) (l l' r r' : list ascii) :
  Forall (fun c => P c = true) l -> Forall (fun c => P c = true) l' ->
  match r with c :: _ => P c = false | [] => True end ->
  match r' with c :: _ => P c = false | [] => True end ->
  l ++ r = l' ++ r' -> l = l' /\ r = r'.
Proof.
  intros Hl. revert l'. induction Hl as [|c l Hc _ IH]; intros l' Hl' Hr Hr' Heq.
  - destruct Hl' as [|c' l' Hc' _]; [split; [reflexivity|exact Heq]|].
    simpl in Heq. subst r. congruence.
  - destruct Hl' as [|c' l' Hc' Hl']; simpl in Heq.
    + subst r'. congruence.
    + injection Heq as -> Heq. destruct (IH _ Hl' Hr Hr' Heq) as (-> & ->).
      split; reflexivity.
Qed.

Lemma stops_not_number (r : list ascii) :
  stops r -> match r with c :: _ => is_number_char c = false | [] => True end.
Proof.
  destruct r as [|c r]; [trivial|]. unfold stops, is_stop. intros Hc.
  destruct (Ascii.eqb_spec c ",") as [->|]; [reflexivity|].
  destruct (Ascii.eqb_spec c "]") as [->|]; [reflexivity|].
  destruct (Ascii.eqb_spec c "}") as [->|]; [reflexivity|discriminate].
Qed.

Lemma number_delimited (x y : number) (r r' : list ascii) :
  match x with NumDec _ s _ => shortest s = true | NumZero => True end ->
  match y with NumDec _ s _ => shortest s = true | NumZero => True end ->
  stops r -> stops r' ->
  number_chars x ++ r = number_chars y ++ r' -> x = y /\ r = r'.
Proof.
  intros Hx Hy Hr Hr' Heq.
  destruct (munch is_number_char _ _ _ _ (number_chars_all x) (number_chars_all y)
              (stops_not_number _ Hr) (stops_not_number _ Hr') Heq) as (Hxy & ->).
  split; [|reflexivity]. exact (number_chars_inj _ _ Hx Hy Hxy).
Qed.

(** *** Arrays and objects *)

Lemma first_kind_digit (c : ascii) :
  is_digit c = true \/ c = "-"%char -> first_kind c = 6%nat.
Proof.
  intros [Hc| ->]; [|reflexivity].
  destruct c as [[] [] [] [] [] [] [] []]; try discriminate; reflexivity.
Qed.

Lemma first_kind_stop (c : ascii) : is_stop c = true -> first_kind c = 7%nat.
Proof.
  destruct c as [[] [] [] [] [] [] [] []]; try discriminate; reflexivity.
Qed.

Lemma json_head (v : json) :
  exists c rest,
    chars (stringify_json v) = c :: rest /\ first_kind c = json_kind v.
Proof.
  destruct v as [|[]|x|s|items|props]; simpl;
    try (eexists _, _; split; reflexivity).
  rewrite chars_number. destruct x as [|neg s n]; simpl.
  - eexists _, _. split; reflexivity.
  - destruct (unsigned_chars_head s n) as (c & rest & -> & Hc).
    destruct neg; simpl; eexists _, _; (split; [reflexivity|]).
    + reflexivity.
    + apply first_kind_digit. left. exact Hc.
Qed.

Lemma json_kind_value (v : json) : (json_kind v < 7)%nat.
Proof. destruct v as [|[]| | | |]; simpl; lia. Qed.

Section Sequences.

Context {A : Type} (print : A -> string) (close : ascii).

Hypothesis close_stops : is_stop close = true.
Hypothesis close_not_comma : Ascii.eqb close "," = false.
Hypothesis print_head :
  forall x, exists c rest, chars (print x) = c :: rest /\ is_stop c = false.

(** What follows the first element of a sequence. *)
Lemma join_first (x : A) (t : list A) (r : list ascii) :
  chars (join_with "," (List.map print (x :: t))) ++ close :: r
  = chars (print x)
    ++ match t with
       | [] => close :: r
       | _ :: _ => ","%char :: chars (join_with "," (List.map print t)) ++ close :: r
       end.
Proof.
  destruct t as [|y t]; [reflexivity|].
  change (join_with "," (List.map print (x :: y :: t)))
    with (print x ++ "," ++ join_with "," (List.map print (y :: t)))%string.
  rewrite !chars_app, <- !app_assoc. reflexivity.
Qed.

Lemma sequence_delimited (Q : A -> Prop) (items items' : list A)
    (r r' : list ascii) :
  Forall (fun x => forall x' R R', Q x' -> stops R -> stops R' ->
            chars (print x) ++ R = chars (print x') ++ R' ->
            x = x' /\ R = R') items ->
  Forall Q items' ->
  chars (join_with "," (List.map print items)) ++ close :: r
  = chars (join_with "," (List.map print items')) ++ close :: r' ->
  items = items' /\ r = r'.
Proof.
  intros Hitems. revert items'.
  induction Hitems as [|x t Hx _ IH]; intros [|x' t'] HQ Heq.
  - simpl in Heq. injection Heq as ->. split; reflexivity.
  - rewrite join_first in Heq. simpl in Heq.
    destruct (print_head x') as (c & rest & Hc & Hstop). rewrite Hc in Heq.
    injection Heq as <- _. congruence.
  - rewrite join_first in Heq. simpl in Heq.
    destruct (print_head x) as (c & rest & Hc & Hstop). rewrite Hc in Heq.
    injection Heq as <- _. congruence.
  - rewrite !join_first in Heq. apply Forall_cons in HQ as (HQx & HQt).
    assert (Hstops : forall (l : list A) (R : list ascii),
              stops match l with
                    | [] => close :: R
                    | _ :: _ =>
                        ","%char :: chars (join_with "," (List.map print l))
                        ++ close :: R
                    end)
      by (intros [|y l] R; simpl; [exact close_stops|reflexivity]).
    destruct (Hx x' _ _ HQx (Hstops t r) (Hstops t' r') Heq) as (-> & Hrest).
    destruct t as [|y t], t' as [|y' t'].
    + injection Hrest as ->. split; reflexivity.
    + injection Hrest as Hc _. rewrite Hc in close_not_comma. discriminate.
    + injection Hrest as Hc _. rewrite <- Hc in close_not_comma. discriminate.
    + injection Hrest as Hrest.
      destruct (IH _ HQt Hrest) as (-> & ->). split; reflexivity.
Qed.

End Sequences.

Lemma json_induction (P : json -> Prop) :
  P JNull -> (forall b, P (JBool b)) -> (forall x, P (JNum x)) ->
  (forall s, P (JStr s)) ->
  (forall items, Forall P items -> P (JArr items)) ->
  (forall props, Forall (fun kv => P (snd kv)) props -> P (JObj props)) ->
  forall v, P v.
Proof.
  intros HNull HBool HNum HStr HArr HObj. fix IH 1.
  intros [|b|x|s|items|props].
  - exact HNull.
  - apply HBool.
  - apply HNum.
  - apply HStr.
  - apply HArr. induction items as [|x t IHt]; constructor; [apply IH|exact IHt].
  - apply HObj. induction props as [|[k v] t IHt]; constructor;
      [apply IH|exact IHt].
Qed.

Lemma wf_number (x : number) :
  wf_json (JNum x) = true ->
  match x with NumDec _ s _ => shortest s = true | NumZero => True end.
Proof. destruct x; simpl; auto. Qed.

Lemma json_head_not_stop (v : json) :
  exists c rest, chars (stringify_json v) = c :: rest /\ is_stop c = false.
Proof.
  destruct (json_head v) as (c & rest & Hc & Hk). exists c, rest.
  split; [exact Hc|]. destruct (is_stop c) eqn:Hs; [|reflexivity].
  apply first_kind_stop in Hs. pose proof (json_kind_value v). lia.
Qed.

Lemma chars_array (items : list json) (r : list ascii) :
  chars (stringify_json (JArr items)) ++ r
  = "["%char :: chars (join_with "," (List.map stringify_json items))
    ++ "]"%char :: r.
Proof.
  change (stringify_json (JArr items))
    with ("[" ++ join_with "," (List.map stringify_json items) ++ "]")%string.
  rewrite !chars_app, <- !app_assoc. reflexivity.
Qed.

Lemma chars_object (props : list (string * json)) (r : list ascii) :
  chars (stringify_json (JObj props)) ++ r
  = "{"%char
    :: chars (join_with ","
                (List.map (fun kv : string * json =>
                             (quote (fst kv) ++ ":" ++ stringify_json (snd kv))%string)
                          props))
    ++ "}"%char :: r.
Proof.
  change (stringify_json (JObj props))
    with ("{" ++ join_with ","
                   (List.map (fun kv : string * json =>
                                (quote (fst kv) ++ ":"
                                 ++ stringify_json (snd kv))%string) props)
              ++ "}")%string.
  rewrite !chars_app, <- !app_assoc. reflexivity.
Qed.

(** The serialisation of a well-formed value can be read back: inside an
    array or an object it ends where the value ends, and it tells the
    value. *)
Lemma json_delimited (v : json) :
  wf_json v = true ->
  forall (v' : json) (r r' : list ascii),
    wf_json v' = true -> stops r -> stops r' ->
    chars (stringify_json v) ++ r = chars (stringify_json v') ++ r' ->
    v = v' /\ r = r'.
Proof.
  induction v as [|b|x|s|items IH|props IH] using json_induction;
    intros Hwf v' r r' Hwf' Hr Hr' Heq.
  all: assert (Hkind : json_kind v' = _)
         by (destruct (json_head v') as (c' & rest' & Hc' & Hk');
             rewrite <- Hk'; rewrite Hc' in Heq;
             lazymatch type of Heq with
             | chars (stringify_json ?v) ++ _ = _ =>
                 destruct (json_head v) as (c & rest & Hc & Hk);
                 rewrite Hc in Heq; injection Heq as <- _; exact Hk
             end).
  - destruct v' as [|[]| | | |]; try discriminate.
    simpl in Heq. injection Heq as ->. split; reflexivity.
  - destruct b, v' as [|[]| | | |]; try discriminate;
      simpl in Heq; injection Heq as ->; split; reflexivity.
  - destruct v' as [|[]|y| | |]; try discriminate.
    simpl stringify_json in Heq. rewrite !chars_number in Heq.
    destruct (number_delimited _ _ _ _ (wf_number _ Hwf) (wf_number _ Hwf')
                Hr Hr' Heq) as (-> & ->).
    split; reflexivity.
  - destruct v' as [|[]| |s'| |]; try discriminate.
    destruct (quote_delimited _ _ _ _ Heq) as (-> & ->). split; reflexivity.
  - destruct v' as [|[]| | |items'|]; try discriminate.
    rewrite !chars_array in Heq. injection Heq as Heq.
    simpl in Hwf, Hwf'. rewrite forallb_forall in Hwf'.
    destruct (sequence_delimited stringify_json "]" eq_refl eq_refl
                json_head_not_stop (fun x => wf_json x = true) items items' r r')
      as (-> & ->); [| |exact Heq|split; reflexivity].
    + rewrite Forall_forall in IH. apply Forall_forall. intros x Hx x' R R' Hq HR HR'.
      apply IH; [exact Hx| |exact Hq|exact HR|exact HR'].
      rewrite forallb_forall in Hwf. apply Hwf. apply list_elem_of_In. exact Hx.
    + apply Forall_forall. intros x Hx. apply Hwf'. apply list_elem_of_In. exact Hx.
  - destruct v' as [|[]| | | |props']; try discriminate.
    rewrite !chars_object in Heq. injection Heq as Heq.
    simpl in Hwf, Hwf'.
    apply andb_prop in Hwf as (_ & Hwf). apply andb_prop in Hwf' as (_ & Hwf').
    rewrite forallb_forall in Hwf, Hwf'.
    destruct (sequence_delimited
                (fun kv : string * json =>
                   (quote (fst kv) ++ ":" ++ stringify_json (snd kv))%string)
                "}" eq_refl eq_refl) with
      (Q := fun kv : string * json => wf_json (snd kv) = true)
      (items := props) (items' := props') (r := r) (r' := r')
      as (-> & ->); [| | |exact Heq|split; reflexivity].
    + intros kv. rewrite chars_app, chars_quote. simpl.
      eexists _, _. split; reflexivity.
    + rewrite Forall_forall in IH. apply Forall_forall.
      intros [k v] Hx [k' v'] R R' Hq HR HR' Helem. cbn [fst snd] in *.
      rewrite !chars_app, <- !app_assoc in Helem.
      destruct (quote_delimited _ _ _ _ Helem) as (-> & Hrest).
      change (chars ":") with [":"%char] in Hrest.
      injection Hrest as Hrest.
      pose proof (IH (k', v) Hx) as IHv. cbn [snd] in IHv.
      assert (Hwfv : wf_json v = true)
        by (apply (Hwf (k', v)); apply list_elem_of_In; exact Hx).
      destruct (IHv Hwfv v' R R' Hq HR HR' Hrest) as (Hv & HRR).
      subst. split; reflexivity.
    + apply Forall_forall. intros kv Hx. apply Hwf'. apply list_elem_of_In. exact Hx.
Qed.

Theorem stringify_json_inj (v v' : json) :
  wf_json v = true -> wf_json v' = true ->
  stringify_json v = stringify_json v' -> v = v'.
Proof.
  intros Hwf Hwf' Heq.
  destruct (json_delimited v Hwf v' [] [] Hwf' I I) as (-> & _); [|reflexivity].
  rewrite Heq. reflexivity.
Qed.

(** *** Deep equality *)

Lemma number_eqb_refl (x : number) : number_eqb x x = true.
Proof.
  destruct x as [|neg s n]; [reflexivity|]. simpl.
  rewrite Pos.eqb_refl, Z.eqb_refl. destruct neg; reflexivity.
Qed.

Lemma assoc_distinct (props : list (string * json)) (k : string) (v : json) :
  distinct (List.map fst props) = true -> List.In (k, v) props ->
  assoc k props = Some v.
Proof.
  induction props as [|[k' v'] props IH]; intros Hd Hin; [contradiction|].
  simpl in Hd. apply andb_prop in Hd as (Hfresh & Hd). simpl.
  destruct Hin as [Heq|Hin].
  - injection Heq as -> ->. rewrite String.eqb_refl. reflexivity.
  - destruct (String.eqb_spec k k') as [->|_]; [|exact (IH Hd Hin)].
    apply negb_true_iff in Hfresh.
    assert (Hex : existsb (String.eqb k') (List.map fst props) = true).
    { apply existsb_exists. exists k'. split; [|apply String.eqb_refl].
      apply in_map_iff. exists (k', v). split; [reflexivity|exact Hin]. }
    congruence.
Qed.

Lemma deep_equal_json_refl (v : json) :
  wf_json v = true -> deep_equal_json v v = true.
Proof.
  induction v as [|b|x|s|items IH|props IH] using json_induction; intros Hwf.
  - reflexivity.
  - destruct b; reflexivity.
  - apply number_eqb_refl.
  - apply String.eqb_refl.
  - simpl in Hwf. simpl.
    induction IH as [|x t Hx _ IHt]; [reflexivity|].
    simpl in Hwf. apply andb_prop in Hwf as (Hwfx & Hwft).
    rewrite (Hx Hwfx). exact (IHt Hwft).
  - simpl in Hwf. apply andb_prop in Hwf as (Hd & Hwf).
    cbn [deep_equal_json]. rewrite Nat.eqb_refl. cbn [andb].
    assert (Hsub : forall sub : list (string * json),
              (forall kv, List.In kv sub -> List.In kv props) ->
              (fix all (ps : list (string * json)) : bool :=
                 match ps with
                 | [] => true
                 | (k, v) :: ps' =>
                     match assoc k props with
                     | Some w => deep_equal_json v w
                     | None => false
                     end && all ps'
                 end) sub = true).
    { induction sub as [|[k v] sub IHsub]; intros Hin; [reflexivity|].
      rewrite (assoc_distinct props k v Hd) by (apply Hin; left; reflexivity).
      rewrite Forall_forall in IH. rewrite forallb_forall in Hwf.
      assert (Hv : deep_equal_json v v = true).
      { apply (IH (k, v)).
        - apply list_elem_of_In. apply Hin. left. reflexivity.
        - apply (Hwf (k, v)). apply Hin. left. reflexivity. }
      rewrite Hv. apply IHsub. intros kv Hkv. apply Hin. right. exact Hkv. }
    apply Hsub. auto.
Qed.

(** *** Snapshots *)

Lemma block_to_json_inj (b b' : Block) : block_to_json b = block_to_json b' -> b = b'.
Proof.
  destruct b as [[i|] t d], b' as [[i'|] t' d']; unfold block_to_json; simpl;
    intros Heq; injection Heq; intros; subst; try reflexivity; discriminate.
Qed.

Lemma cons_eq {A : Type} (x y : A) (l k : list A) :
  x :: l = y :: k -> x = y /\ l = k.
Proof. intros Heq. injection Heq as -> ->. split; reflexivity. Qed.

Lemma snapshot_to_json_inj (s1 s2 : Snapshot) :
  snapshot_to_json s1 = snapshot_to_json s2 -> s1 = s2.
Proof.
  unfold snapshot_to_json. intros Heq.
  assert (Hmap : List.map block_to_json s1 = List.map block_to_json s2)
    by congruence.
  clear Heq. revert s2 Hmap. induction s1 as [|b s1 IH]; intros [|b' s2] Heq;
    cbn [List.map] in Heq; try discriminate; [reflexivity|].
  apply cons_eq in Heq as (Hb & Heq). apply block_to_json_inj in Hb. subst b'.
  rewrite (IH _ Heq). reflexivity.
Qed.

(** Two well-formed snapshots with the same serialisation are the same
    snapshot. *)
Lemma stringify_inj (s1 s2 : Snapshot) :
  wf_snapshot s1 = true -> wf_snapshot s2 = true ->
  stringify s1 = stringify s2 -> s1 = s2.
Proof.
  intros Hwf1 Hwf2 Heq. apply snapshot_to_json_inj.
  exact (stringify_json_inj _ _ Hwf1 Hwf2 Heq).
Qed.

(** The same for the serialisation of a block that may be [undefined]. *)
Lemma stringify_opt_inj (x y : option Block) :
  (forall b, x = Some b -> wf_json (block_to_json b) = true) ->
  (forall b, y = Some b -> wf_json (block_to_json b) = true) ->
  stringify_opt x = stringify_opt y -> x = y.
Proof.
  intros Hx Hy. destruct x as [b|], y as [b'|]; cbn [stringify_opt];
    intros Heq; try discriminate; [|reflexivity].
  f_equal. apply block_to_json_inj.
  apply stringify_json_inj; [apply Hx|apply Hy|congruence]; reflexivity.
Qed.

Lemma deep_equal_refl (s : Snapshot) : wf_snapshot s = true -> deep_equal s s = true.
Proof. apply deep_equal_json_refl. Qed.


(** ** Arrays *)

Lemma len_nonneg {A : Type} (l : list A) : 0 <= len l.
Proof. unfold len. lia. Qed.

Lemma len_app {A : Type} (l k : list A) : len (l ++ k) = len l + len k.
Proof. unfold len. rewrite length_app. lia. Qed.

Lemma at_index_in_range {A : Type} (l : list A) (i : Z) :
  0 <= i < len l -> exists x, at_index l i = Some x.
Proof.
  intros Hi. unfold at_index, len in *.
  destruct (Z.ltb_spec i 0) as [Hneg|_]; [lia|].
  destruct (lookup_lt_is_Some_2 l (Z.to_nat i)) as [x Hx]; [lia|].
  exists x. exact Hx.
Qed.

Lemma at_index_Some_range {A : Type} (l : list A) (i : Z) (x : A) :
  at_index l i = Some x -> 0 <= i < len l.
Proof.
  unfold at_index, len.
  destruct (Z.ltb_spec i 0) as [Hneg|Hpos]; [discriminate|].
  intros Hx. apply lookup_lt_Some in Hx. lia.
Qed.

Lemma at_index_out_of_range {A : Type} (l : list A) (i : Z) :
  i < 0 \/ len l <= i -> at_index l i = None.
Proof.
  intros Hi. destruct (at_index l i) as [x|] eqn:Hx; [|reflexivity].
  apply at_index_Some_range in Hx. lia.
Qed.

Lemma slice0_prefix {A : Type} (l : list A) (e : Z) :
  0 <= e <= len l -> slice0 l e = take (Z.to_nat e) l.
Proof.
  intros He. unfold slice0.
  destruct (Z.ltb_spec e 0) as [Hneg|_]; [lia|].
  rewrite Z.min_l by lia. reflexivity.
Qed.

Lemma len_slice0_prefix {A : Type} (l : list A) (e : Z) :
  0 <= e <= len l -> len (slice0 l e) = e.
Proof.
  intros He. rewrite slice0_prefix by exact He.
  unfold len in *. rewrite length_take. lia.
Qed.

Lemma opt_string_eqb_refl (a : option string) : opt_string_eqb a a = true.
Proof. destruct a as [s|]; simpl; [apply String.eqb_refl|reflexivity]. Qed.

Lemma opt_string_eqb_neq (a b : option string) :
  a <> b -> opt_string_eqb a b = false.
Proof.
  destruct a as [x|], b as [y|]; simpl; intros Hne; try reflexivity.
  - destruct (String.eqb_spec x y) as [->|Hxy]; [contradiction|reflexivity].
  - contradiction.
Qed.

(** ** [truncate] *)

Lemma truncate_loop_done (fuel : nat) (stk : list ref) (limit : Z) :
  0 <= limit -> (length stk <= fuel + Z.to_nat limit)%nat ->
  truncate_loop fuel stk limit = Some (drop (length stk - Z.to_nat limit) stk).
Proof.
  revert stk. induction fuel as [|fuel IH]; intros stk Hlimit Hfuel; simpl.
  - destruct (Z.gtb_spec (len stk) limit) as [Hgt|Hle]; unfold len in *; [lia|].
    replace (length stk - Z.to_nat limit)%nat with 0%nat by lia. reflexivity.
  - destruct (Z.gtb_spec (len stk) limit) as [Hgt|Hle]; unfold len in *.
    + destruct stk as [|r stk]; simpl in *; [lia|].
      rewrite IH by lia.
      replace (S (length stk) - Z.to_nat limit)%nat
        with (S (length stk - Z.to_nat limit)) by lia.
      reflexivity.
    + replace (length stk - Z.to_nat limit)%nat with 0%nat by lia. reflexivity.
Qed.

(** The loop never ends on a negative limit, whatever the fuel. *)
Lemma truncate_loop_negative (fuel : nat) (stk : list ref) (limit : Z) :
  limit < 0 -> truncate_loop fuel stk limit = None.
Proof.
  revert stk. induction fuel as [|fuel IH]; intros stk Hlimit; simpl;
    destruct (Z.gtb_spec (len stk) limit) as [Hgt|Hle];
    try (pose proof (len_nonneg stk); lia); auto.
Qed.

Lemma truncate_nonneg (stk : list ref) (limit : Z) :
  0 <= limit -> truncate stk limit = Some (drop (length stk - Z.to_nat limit) stk).
Proof. intros Hlimit. apply truncate_loop_done; [exact Hlimit|lia]. Qed.

Lemma truncate_negative (stk : list ref) (limit : Z) :
  limit < 0 -> truncate stk limit = None.
Proof. apply truncate_loop_negative. Qed.

(** ** The monad *)

Section MonadLaws.

Context {E : Type} `{Editor E}.

Lemma bind_ret {A B : Type} (a : A) (k : A -> M E B) (w : World E) :
  bind (ret a) k w = k a w.
Proof. reflexivity. Qed.

Lemma bind_this {B : Type} (k : Undo -> M E B) (w : World E) :
  bind this k w = k (self w) w.
Proof. reflexivity. Qed.

Lemma bind_update {B : Type} (f : Undo -> Undo) (k : unit -> M E B) (w : World E) :
  bind (update f) k w = k tt (mkWorld (f (self w)) (editor w) (trace w)).
Proof. reflexivity. Qed.

Lemma bind_query {A B : Type} (q : E -> A) (k : A -> M E B) (w : World E) :
  bind (query q) k w = k (q (editor w)) w.
Proof. reflexivity. Qed.

Lemma bind_emit {B : Type} (c : Call) (k : unit -> M E B) (w : World E) :
  bind (emit c) k w
  = k tt (mkWorld (self w) (perform c (editor w))
                  (trace w ++ [mkEvent (shouldSaveHistory (self w)) c])).
Proof. reflexivity. Qed.

Lemma bind_throw {A B : Type} (k : A -> M E B) (w : World E) :
  bind throw k w = Some (w, Abrupt TypeError).
Proof. reflexivity. Qed.

Lemma bind_defined_Some {A B : Type} (a : A) (k : A -> M E B) (w : World E) :
  bind (defined (Some a)) k w = k a w.
Proof. reflexivity. Qed.

Lemma bind_defined_None {A B : Type} (k : A -> M E B) (w : World E) :
  bind (defined None) k w = Some (w, Abrupt TypeError).
Proof. reflexivity. Qed.

Lemma bind_alloc {B : Type} (e : Entry) (k : ref -> M E B) (w : World E) :
  bind (alloc e) k w
  = k (length (heap (self w)))
      (mkWorld (set_heap (heap (self w) ++ [e]) (self w)) (editor w) (trace w)).
Proof. reflexivity. Qed.

Lemma bind_assoc {A B C : Type} (m : M E A) (k : A -> M E B) (h : B -> M E C)
    (w : World E) :
  bind (bind m k) h w = bind m (fun a => bind (k a) h) w.
Proof.
  unfold bind. destruct (m w) as [[w1 [a|e]]|]; reflexivity.
Qed.

(** *** Replays compose *)

Lemma replay_rel_refl (Q : Call -> Prop) (w : World E) : replay_rel Q w w.
Proof.
  unfold replay_rel. split_and!; try reflexivity.
  exists []. split; [unfold emitted; rewrite app_nil_r; reflexivity|constructor].
Qed.

Lemma replay_rel_trans (Q : Call -> Prop) (w1 w2 w3 : World E) :
  replay_rel Q w1 w2 -> replay_rel Q w2 w3 -> replay_rel Q w1 w3.
Proof.
  intros (Hs1 & Hp1 & Hm1 & Hf1 & Hr1 & Hi1 & Hd1 & Hl1 & Hst1 & Hc1 & evs1 & He1 & Ha1)
         (Hs2 & Hp2 & Hm2 & Hf2 & Hr2 & Hi2 & Hd2 & Hl2 & Hst2 & Hc2 & evs2 & He2 & Ha2).
  unfold replay_rel. split_and!; try congruence.
  exists (evs1 ++ evs2). split.
  - unfold emitted in *. rewrite He2, He1, app_assoc. reflexivity.
  - apply Forall_app. split; [exact Ha1|].
    rewrite <- Hf1. exact Ha2.
Qed.

Lemma replays_ret {A : Type} (Q : Call -> Prop) (a : A) : replays Q (ret a : M E A).
Proof. intros w. exists w, (Normal a). split; [reflexivity|apply replay_rel_refl]. Qed.

Lemma replays_throw {A : Type} (Q : Call -> Prop) : replays Q (throw : M E A).
Proof.
  intros w. exists w, (Abrupt TypeError). split; [reflexivity|apply replay_rel_refl].
Qed.

Lemma replays_this (Q : Call -> Prop) : replays Q (this : M E Undo).
Proof.
  intros w. exists w, (Normal (self w)). split; [reflexivity|apply replay_rel_refl].
Qed.

Lemma replays_query {A : Type} (Q : Call -> Prop) (q : E -> A) : replays Q (query q).
Proof.
  intros w. exists w, (Normal (q (editor w))).
  split; [reflexivity|apply replay_rel_refl].
Qed.

Lemma replays_defined {A : Type} (Q : Call -> Prop) (o : option A) :
  replays Q (defined o : M E A).
Proof. destruct o as [a|]; [apply replays_ret|apply replays_throw]. Qed.

Lemma replays_emit (Q : Call -> Prop) (c : Call) : Q c -> replays Q (emit c : M E unit).
Proof.
  intros Hc w. eexists _, _. split; [reflexivity|].
  unfold replay_rel; simpl. split_and!; try reflexivity.
  eexists. split; [reflexivity|].
  constructor; [split; [reflexivity|exact Hc]|constructor].
Qed.

Lemma replays_bind {A B : Type} (Q : Call -> Prop) (m : M E A) (k : A -> M E B) :
  replays Q m -> (forall a, replays Q (k a)) -> replays Q (bind m k).
Proof.
  intros Hm Hk w. destruct (Hm w) as (w1 & c1 & Heq1 & Hrel1).
  unfold wp, bind. rewrite Heq1. destruct c1 as [a|e].
  - destruct (Hk a w1) as (w2 & c2 & Heq2 & Hrel2).
    exists w2, c2. split; [exact Heq2|].
    eapply replay_rel_trans; eassumption.
  - exists w1, (Abrupt e). split; [reflexivity|exact Hrel1].
Qed.

Lemma replays_write_index (Q : Call -> Prop) (i : Z) :
  replays Q (write_index i : M E unit).
Proof.
  intros w. unfold write_index, wp. rewrite bind_this.
  destruct (at_index (stack (self w)) (position (self w))) as [r|];
    [rewrite bind_defined_Some|rewrite bind_defined_None;
     eexists _, _; split; [reflexivity|apply replay_rel_refl]].
  destruct (heap (self w) !! r) as [e|] eqn:Hr;
    [rewrite bind_defined_Some|rewrite bind_defined_None;
     eexists _, _; split; [reflexivity|apply replay_rel_refl]].
  eexists _, _. split; [reflexivity|].
  unfold replay_rel; simpl. split_and!; try reflexivity.
  - apply length_insert.
  - intros r'. destruct (decide (r = r')) as [<-|Hne].
    + rewrite list_lookup_insert_eq by (eapply lookup_lt_Some; exact Hr).
      rewrite Hr. reflexivity.
    + rewrite list_lookup_insert_ne by exact Hne. reflexivity.
  - intros r'. destruct (decide (r = r')) as [<-|Hne].
    + rewrite list_lookup_insert_eq by (eapply lookup_lt_Some; exact Hr).
      rewrite Hr. reflexivity.
    + rewrite list_lookup_insert_ne by exact Hne. reflexivity.
  - exists []. split; [unfold emitted; simpl; rewrite app_nil_r; reflexivity|constructor].
Qed.

Lemma replays_weaken {A : Type} (Q Q' : Call -> Prop) (m : M E A) :
  (forall c, Q c -> Q' c) -> replays Q m -> replays Q' m.
Proof.
  intros HQ Hm w. destruct (Hm w) as (w' & c & Heq & Hrel).
  exists w', c. split; [exact Heq|].
  destruct Hrel as (Hs & Hp & Hmx & Hf & Hr & Hi & Hd & Hl & Hst & Hc & evs & He & Ha).
  unfold replay_rel. split_and!; try assumption.
  exists evs. split; [exact He|].
  eapply Forall_impl; [exact Ha|]. intros ev [Hflag Hq]. split; [exact Hflag|auto].
Qed.

End MonadLaws.

(** Symbolic steps for goals of the form [replays Q m]. *)
Ltac replays_step :=
  lazymatch goal with
  | |- replays _ (bind _ _) => apply replays_bind; [|intros ?]
  | |- replays _ (ret _) => apply replays_ret
  | |- replays _ throw => apply replays_throw
  | |- replays _ this => apply replays_this
  | |- replays _ (query _) => apply replays_query
  | |- replays _ (defined _) => apply replays_defined
  | |- replays _ (emit _) => apply replays_emit; first [exact I|reflexivity]
  | |- replays _ (write_index _) => apply replays_write_index
  | |- replays _ (if ?b then _ else _) => destruct b
  | |- replays _ (match ?x with _ => _ end) => destruct x
  end.

Ltac replays_auto := repeat replays_step.

Section Replays.

Context {E : Type} `{Editor E}.

Lemma replays_any {A : Type} (Q : Call -> Prop) (m : M E A) :
  replays Q m -> replays any m.
Proof. apply replays_weaken. intros c _. exact I. Qed.

Lemma replays_setCaretIndex (i : Z) (c : option Z) :
  replays quiet (setCaretIndex i c : M E unit).
Proof. unfold setCaretIndex. replays_auto. Qed.

Lemma replays_insertDeletedBlock_from (rest : list Block) (i : Z)
    (compState : Snapshot) (focus : Z) :
  replays any (insertDeletedBlock_from rest i compState focus : M E unit).
Proof.
  revert i. induction rest as [|b rest IH]; intros i; simpl.
  - apply replays_ret.
  - destruct (match at_index compState i with
              | Some c => opt_string_neqb (id b) (id c)
              | None => true
              end).
    + replays_auto.
    + apply IH.
Qed.

Lemma replays_insertBlock (st : Snapshot) (i : Z) :
  replays any (insertBlock st i : M E unit).
Proof. unfold insertBlock. replays_auto. Qed.

Lemma replays_insertSkippedBlocks_loop (n : nat) (i : Z) (st : Snapshot) :
  replays any (insertSkippedBlocks_loop n i st : M E unit).
Proof.
  revert i. induction n as [|n IH]; intros i; simpl.
  - apply replays_ret.
  - apply replays_bind; [apply replays_insertBlock|intros _; apply IH].
Qed.

Lemma replays_updateModifiedBlock (st : Snapshot) (i : Z) :
  replays any (updateModifiedBlock st i : M E unit).
Proof. unfold updateModifiedBlock. replays_auto. Qed.

Lemma replays_insertSkippedBlocks (prevState st : Snapshot) (i : Z) :
  replays any (insertSkippedBlocks prevState st i : M E unit).
Proof.
  unfold insertSkippedBlocks.
  apply replays_bind; [apply replays_insertSkippedBlocks_loop|intros _].
  destruct (opt_string_neqb _ _);
    [apply replays_updateModifiedBlock|apply replays_ret].
Qed.

End Replays.

Ltac replays_quiet_step :=
  lazymatch goal with
  | |- replays quiet (setCaretIndex _ _) => apply replays_setCaretIndex
  | |- _ => replays_step
  end.

Ltac replays_any_step :=
  lazymatch goal with
  | |- replays any (setCaretIndex _ _) =>
      apply (replays_any quiet); apply replays_setCaretIndex
  | |- replays any (insertDeletedBlock _ _ _) =>
      apply replays_insertDeletedBlock_from
  | |- replays any (insertSkippedBlocks _ _ _) =>
      apply replays_insertSkippedBlocks
  | |- _ => replays_step
  end.


(** One step of a method on a given world. *)
Ltac mstep :=
  first [ rewrite bind_this | rewrite bind_update | rewrite bind_query
        | rewrite bind_emit | rewrite bind_ret | rewrite bind_alloc
        | rewrite bind_defined_Some | rewrite bind_defined_None
        | rewrite bind_throw ];
  cbv beta; cbn [self editor trace].

(** ** What the methods do to the history *)

Section MethodSpecs.

Context {E : Type} `{Editor E}.

Lemma undo_idle (w : World E) :
  canUndo (self w) = false -> undo w = Some (w, Normal tt).
Proof. intros Hcan. unfold undo. rewrite bind_this, Hcan. reflexivity. Qed.

Lemma redo_idle (w : World E) :
  canRedo (self w) = false -> redo w = Some (w, Normal tt).
Proof. intros Hcan. unfold redo. rewrite bind_this, Hcan. reflexivity. Qed.

Lemma undo_proceeds (w : World E) (next : Entry) :
  canUndo (self w) = true ->
  entry_at (self w) (position (self w)) = Some next ->
  wp undo w (fun w' _ =>
    replay_rel any (mkWorld (undo_begin (self w)) (editor w) (trace w)) w').
Proof.
  intros Hcan Hnext. unfold undo.
  unfold wp. rewrite bind_this, Hcan, Hnext, bind_defined_Some, !bind_update.
  cbv beta.
  lazymatch goal with
  | |- exists w' c, ?m ?w1 = Some (w', c) /\ _ =>
      assert (Hr : replays any m) by (repeat replays_any_step);
      exact (Hr w1)
  end.
Qed.

Lemma undo_throws (w : World E) :
  canUndo (self w) = true ->
  entry_at (self w) (position (self w)) = None ->
  undo w = Some (w, Abrupt TypeError).
Proof.
  intros Hcan Hnext. unfold undo. rewrite bind_this, Hcan, Hnext. reflexivity.
Qed.

Lemma redo_proceeds (w : World E) :
  canRedo (self w) = true ->
  wp redo w (fun w' _ =>
    replay_rel any (mkWorld (redo_begin (self w)) (editor w) (trace w)) w').
Proof.
  intros Hcan. unfold redo.
  unfold wp. rewrite bind_this, Hcan, !bind_update.
  cbv beta.
  lazymatch goal with
  | |- exists w' c, ?m ?w1 = Some (w', c) /\ _ =>
      assert (Hr : replays any m) by (repeat replays_any_step);
      exact (Hr w1)
  end.
Qed.

(** [save] returns when [maxLength] is not negative: either it pushed an
    entry that holds the snapshot, or [getCaretIndex] raised an exception,
    the focused block having no content element, and the stack stays as
    it was cut. *)
Lemma save_spec (s : Snapshot) (w : World E) :
  0 <= maxLength (self w) ->
  exists w' c, save s w = Some (w', c) /\
    match c with
    | Normal _ =>
        exists ent, state ent = s
          /\ self w' = save_pushed (self w) ent
          /\ trace w' = trace w ++ [mkEvent (shouldSaveHistory (self w)) OnUpdate]
    | Abrupt _ =>
        self w' = save_prepared (self w) /\ trace w' = trace w
        /\ hasContent (editor w) (getCurrentBlockIndex (editor w)) = false
    end.
Proof.
  intros Hmax. destruct w as [u e tr]. simpl in *.
  unfold save. rewrite bind_this. simpl self.
  assert (Hstep : forall (B : Type) (k : unit -> M E B),
    bind (if position u >=? maxLength u
          then match truncate (stack u) (maxLength u) with
               | Some stk => update (set_stack stk)
               | None => diverge
               end
          else ret tt) k (mkWorld u e tr)
    = k tt (mkWorld (set_stack (save_evicted u) u) e tr)).
  { intros B k. unfold save_evicted.
    destruct (position u >=? maxLength u).
    - rewrite truncate_nonneg by exact Hmax. reflexivity.
    - destruct u; reflexivity. }
  rewrite Hstep. do 4 mstep. simpl.
  fold (save_position u). fold (save_stack u).
  set (i := getCurrentBlockIndex e).
  set (ix := match at_index s i with
             | Some _ => i
             | None => i - (getBlocksCount e - len s)
             end).
  destruct (at_index s ix) as [b|].
  - destruct (is_text_type (type b)).
    + unfold getCaretIndex. rewrite !bind_assoc. mstep. cbn [editor].
      destruct (hasContent e i) eqn:Hcontent.
      * eexists _, _. split; [reflexivity|]. simpl.
        eexists. split; [|split; reflexivity]. reflexivity.
      * eexists _, _. split; [reflexivity|]. simpl.
        split; [reflexivity|]. split; reflexivity.
    + eexists _, _. split; [reflexivity|]. simpl.
      eexists. split; [|split; reflexivity]. reflexivity.
  - eexists _, _. split; [reflexivity|]. simpl.
    eexists. split; [|split; reflexivity]. reflexivity.
Qed.

(** [save] does not return when [maxLength] is negative and the position
    is not: the loop of [truncate] never ends. *)
Lemma save_diverges (s : Snapshot) (w : World E) :
  maxLength (self w) < 0 -> 0 <= position (self w) -> save s w = None.
Proof.
  intros Hmax Hpos. unfold save. rewrite bind_this.
  destruct (Z.geb_spec (position (self w)) (maxLength (self w))) as [_|Hlt]; [|lia].
  rewrite truncate_negative by exact Hmax. reflexivity.
Qed.

Lemma len_save_evicted (u : Undo) :
  1 <= maxLength u -> 1 <= len (stack u) ->
  1 <= len (save_evicted u) <= len (stack u)
  /\ (maxLength u <= position u -> len (save_evicted u) <= maxLength u).
Proof.
  intros Hmax Hlen. unfold save_evicted.
  destruct (Z.geb_spec (position u) (maxLength u)) as [Hge|Hlt].
  - unfold len in *. rewrite length_drop. lia.
  - lia.
Qed.

(** The shape of the stack before the push. *)
Lemma save_shape (u : Undo) :
  1 <= maxLength u -> inv u ->
  0 <= save_position u
  /\ len (save_stack u) = save_position u + 1
  /\ save_position u + 1 <= maxLength u.
Proof.
  intros Hmax (Hlen & Hpos).
  destruct (len_save_evicted u Hmax Hlen) as (Hev & Hcap).
  unfold save_stack. rewrite len_slice0_prefix by (unfold save_position; lia).
  unfold save_position. split; [lia|]. split; [lia|].
  destruct (Z_le_gt_dec (maxLength u) (position u)); lia.
Qed.

(** Below capacity nothing is evicted: the stack is cut after the
    position. *)
Lemma save_no_eviction (u : Undo) :
  inv u -> position u < maxLength u ->
  save_position u = position u
  /\ save_stack u = take (Z.to_nat (position u + 1)) (stack u).
Proof.
  intros (Hlen & Hpos) Hlt.
  assert (Hev : save_evicted u = stack u).
  { unfold save_evicted.
    destruct (Z.geb_spec (position u) (maxLength u)); [lia|reflexivity]. }
  assert (Hp : save_position u = position u).
  { unfold save_position. rewrite Hev. lia. }
  split; [exact Hp|].
  unfold save_stack. rewrite Hp, Hev. apply slice0_prefix. lia.
Qed.

(** At capacity the oldest entry is evicted. *)
Lemma save_at_capacity (u : Undo) :
  1 <= maxLength u -> inv u -> len (stack u) <= maxLength u + 1 ->
  position u = maxLength u ->
  save_position u = maxLength u - 1 /\ count u = maxLength u.
Proof.
  intros Hmax (Hlen & Hpos) Hcap Hfull.
  assert (Hev : len (save_evicted u) = maxLength u).
  { unfold save_evicted.
    destruct (Z.geb_spec (position u) (maxLength u)); [|lia].
    unfold len in *. rewrite length_drop. lia. }
  unfold save_position, count. rewrite Hev. lia.
Qed.

Lemma save_stack_refs (u : Undo) (n : nat) :
  Forall (fun r => (r < n)%nat) (stack u) ->
  Forall (fun r => (r < n)%nat) (save_stack u).
Proof.
  intros Hrefs. unfold save_stack, slice0. apply Forall_take.
  unfold save_evicted. destruct (position u >=? maxLength u);
    [apply Forall_drop|]; exact Hrefs.
Qed.

Lemma save_prepared_inv (u : Undo) :
  1 <= maxLength u -> inv u -> inv (save_prepared u).
Proof.
  intros Hmax Hinv. destruct (save_shape u Hmax Hinv) as (Hp & Hl & Hc).
  unfold inv; simpl. lia.
Qed.

Lemma save_pushed_inv (u : Undo) (ent : Entry) :
  1 <= maxLength u -> inv u -> inv (save_pushed u ent).
Proof.
  intros Hmax Hinv. destruct (save_shape u Hmax Hinv) as (Hp & Hl & Hc).
  unfold inv; simpl. rewrite len_app. unfold len at 2 4; simpl. lia.
Qed.

Lemma save_prepared_preserved (u : Undo) :
  1 <= maxLength u -> inv u -> preserved u (save_prepared u).
Proof.
  intros Hmax Hinv. destruct (save_shape u Hmax Hinv) as (Hp & Hl & Hc).
  split; [apply save_prepared_inv; assumption|].
  split; [reflexivity|]. split; [intros _; simpl; lia|].
  intros (Hrefs & Hinit). split; simpl; [apply save_stack_refs; exact Hrefs|exact Hinit].
Qed.

Lemma save_pushed_preserved (u : Undo) (ent : Entry) :
  1 <= maxLength u -> inv u -> preserved u (save_pushed u ent).
Proof.
  intros Hmax Hinv. destruct (save_shape u Hmax Hinv) as (Hp & Hl & Hc).
  split; [apply save_pushed_inv; assumption|].
  split; [reflexivity|].
  split; [intros _; simpl; rewrite len_app; unfold len at 2; simpl; lia|].
  intros (Hrefs & Hinit). split; simpl.
  - rewrite length_app; simpl. apply Forall_app. split.
    + eapply Forall_impl; [apply save_stack_refs; exact Hrefs|].
      simpl. intros r Hr. lia.
    + constructor; [lia|constructor].
  - intros r Hr. rewrite length_app; simpl. specialize (Hinit r Hr). lia.
Qed.

Lemma preserved_frame (u u1 u' : Undo) :
  stack u1 = stack u -> position u1 = position u ->
  maxLength u1 = maxLength u -> heap u1 = heap u ->
  initialItem u1 = initialItem u ->
  preserved u1 u' -> preserved u u'.
Proof.
  intros Hs Hp Hm Hh Hi (Hinv & Hmax & Hcap & Hrefs).
  unfold preserved, refs_valid in *. rewrite Hs, Hm, Hh, Hi in *.
  split_and!; assumption.
Qed.

Lemma preserved_refl (u : Undo) : inv u -> preserved u u.
Proof. intros Hinv. unfold preserved. split_and!; auto. Qed.

Lemma preserved_same (u u' : Undo) :
  stack u' = stack u -> position u' = position u ->
  maxLength u' = maxLength u -> heap u' = heap u ->
  initialItem u' = initialItem u ->
  inv u -> preserved u u'.
Proof.
  intros Hs Hp Hm Hh Hi Hinv.
  unfold preserved, inv, refs_valid in *. rewrite Hs, Hp, Hm, Hh, Hi.
  split_and!; auto; tauto.
Qed.

Lemma save_preserved (s : Snapshot) (w : World E) :
  1 <= maxLength (self w) -> inv (self w) ->
  wp (save s) w (fun w' _ => preserved (self w) (self w')).
Proof.
  intros Hmax Hinv.
  destruct (save_spec s w) as (w' & c & Heq & Hc); [lia|].
  exists w', c. split; [exact Heq|]. destruct c as [[]|ex].
  - destruct Hc as (ent & _ & -> & _). apply save_pushed_preserved; assumption.
  - destruct Hc as (-> & _). apply save_prepared_preserved; assumption.
Qed.

Lemma replay_preserved (Q : Call -> Prop) (u : Undo) (w1 w' : World E) :
  inv (self w1) -> maxLength (self w1) = maxLength u ->
  stack (self w1) = stack u -> heap (self w1) = heap u ->
  initialItem (self w1) = initialItem u ->
  replay_rel Q w1 w' -> preserved u (self w').
Proof.
  intros (Hlen & Hpos) Hmax Hstk Hheap Hinit
         (Hs & Hp & Hm & _ & _ & Hi & _ & Hl & _).
  unfold preserved, inv, refs_valid.
  rewrite Hs, Hp, Hm, Hi, Hl, Hstk, Hmax, Hheap, Hinit.
  rewrite Hstk in *.
  split_and!; auto; lia.
Qed.

Lemma canUndo_true (u : Undo) :
  canUndo u = true -> readOnly u = false /\ 0 < position u.
Proof.
  unfold canUndo. intros Hcan. apply andb_prop in Hcan as [Hro Hpos].
  apply negb_true_iff in Hro. apply Z.gtb_lt in Hpos. split; assumption.
Qed.

Lemma canRedo_true (u : Undo) :
  canRedo u = true -> readOnly u = false /\ position u < len (stack u) - 1.
Proof.
  unfold canRedo, count. intros Hcan. apply andb_prop in Hcan as [Hro Hpos].
  apply negb_true_iff in Hro. apply Z.ltb_lt in Hpos. split; assumption.
Qed.

Lemma undo_preserved (w : World E) :
  inv (self w) -> wp undo w (fun w' _ => preserved (self w) (self w')).
Proof.
  intros Hinv. destruct (canUndo (self w)) eqn:Hcan.
  - destruct (canUndo_true _ Hcan) as (_ & Hpos).
    destruct (entry_at (self w) (position (self w))) as [next|] eqn:Hnext.
    + destruct (undo_proceeds w next Hcan Hnext) as (w' & c & Heq & Hrel).
      exists w', c. split; [exact Heq|].
      eapply replay_preserved; [| | | | |exact Hrel]; try reflexivity.
      destruct Hinv as (Hlen & Hp). unfold inv; simpl. lia.
    + exists w, (Abrupt TypeError). split; [apply undo_throws; assumption|].
      apply preserved_refl. exact Hinv.
  - exists w, (Normal tt). split; [apply undo_idle; exact Hcan|].
    apply preserved_refl. exact Hinv.
Qed.

Lemma redo_preserved (w : World E) :
  inv (self w) -> wp redo w (fun w' _ => preserved (self w) (self w')).
Proof.
  intros Hinv. destruct (canRedo (self w)) eqn:Hcan.
  - destruct (canRedo_true _ Hcan) as (_ & Hpos).
    destruct (redo_proceeds w Hcan) as (w' & c & Heq & Hrel).
    exists w', c. split; [exact Heq|].
    eapply replay_preserved; [| | | | |exact Hrel]; try reflexivity.
    destruct Hinv as (Hlen & Hp). unfold inv; simpl. lia.
  - exists w, (Normal tt). split; [apply redo_idle; exact Hcan|].
    apply preserved_refl. exact Hinv.
Qed.

Lemma clear_spec (w : World E) :
  clear w
  = Some (mkWorld (cleared (self w)) (perform OnUpdate (editor w))
                  (trace w ++ [mkEvent (shouldSaveHistory (self w)) OnUpdate]),
          Normal tt).
Proof.
  destruct w as [u e tr]. unfold clear, cleared. mstep. simpl.
  destruct (initialItem u) as [r|] eqn:Hinit.
  - rewrite <- Hinit. reflexivity.
  - rewrite <- Hinit. reflexivity.
Qed.

Lemma initialize_spec (initialData : Snapshot) (w : World E) :
  initialize initialData w
  = Some (mkWorld (initialized initialData (self w)) (editor w) (trace w),
          Normal tt).
Proof.
  destruct w as [u e tr]. reflexivity.
Qed.

Lemma editorDidUpdate_spec (newData : Snapshot) (w : World E) (current : Entry) :
  entry_at (self w) (position (self w)) = Some current ->
  editorDidUpdate newData w = Some (w, Normal (did_update (state current) newData)).
Proof.
  intros Hcur. unfold editorDidUpdate, did_update. mstep. rewrite Hcur. mstep.
  destruct (len newData =? 0); [reflexivity|].
  destruct (negb (len newData =? len (state current))); reflexivity.
Qed.

Lemma editorDidUpdate_throws (newData : Snapshot) (w : World E) :
  entry_at (self w) (position (self w)) = None ->
  editorDidUpdate newData w = Some (w, Abrupt TypeError).
Proof. intros Hcur. unfold editorDidUpdate. mstep. rewrite Hcur. reflexivity. Qed.

(** [registerChange], case by case. *)
Lemma registerChange_spec (w : World E) :
  registerChange w
  = let u := set_readOnly (negb (hasToolbox (editor w))) (self w) in
    if hasToolbox (editor w) then
      if hasSave (editor w) && shouldSaveHistory (self w) then
        let e := perform EditorSave (editor w) in
        bind (editorDidUpdate (savedBlocks e))
             (fun changed => if changed then save (savedBlocks e) else ret tt)
             (mkWorld (set_shouldSaveHistory true u) e
                      (trace w ++ [mkEvent (shouldSaveHistory (self w)) EditorSave]))
      else Some (mkWorld (set_shouldSaveHistory true u) (editor w) (trace w),
                 Normal tt)
    else Some (mkWorld u (editor w) (trace w), Normal tt).
Proof.
  destruct w as [u e tr]. unfold registerChange, setReadOnly.
  rewrite bind_assoc. do 3 mstep. simpl.
  destruct (hasToolbox e); simpl; [|reflexivity].
  rewrite !bind_assoc. mstep. simpl.
  destruct (hasSave e && shouldSaveHistory u); reflexivity.
Qed.

Lemma cleared_shape (u : Undo) :
  len (stack (cleared u)) = 1 /\ position (cleared u) = 0
  /\ maxLength (cleared u) = maxLength u.
Proof. unfold cleared. destruct (initialItem u); simpl; auto. Qed.

Lemma cleared_refs (u : Undo) :
  (forall r, initialItem u = Some r -> (r < length (heap u))%nat) ->
  refs_valid (cleared u).
Proof.
  intros Hinit. unfold cleared, refs_valid.
  destruct (initialItem u) as [r|] eqn:Hi; simpl.
  - split; [constructor; [auto|constructor]|].
    intros r' Hr'. apply Hinit. congruence.
  - split; [|intros r Hr; congruence].
    constructor; [|constructor]. rewrite length_app; simpl. lia.
Qed.

Lemma clear_preserved (w : World E) :
  1 <= maxLength (self w) ->
  wp clear w (fun w' _ => preserved (self w) (self w')).
Proof.
  intros Hmax. eexists _, _. split; [apply clear_spec|]. simpl.
  destruct (cleared_shape (self w)) as (Hl & Hp & Hm).
  unfold preserved, inv. rewrite Hl, Hp, Hm.
  split_and!; try lia.
  intros (_ & Hinit). apply cleared_refs. exact Hinit.
Qed.

Lemma initialize_preserved (initialData : Snapshot) (w : World E) :
  inv (self w) ->
  wp (initialize initialData) w (fun w' _ => preserved (self w) (self w')).
Proof.
  intros (Hlen & Hpos). eexists _, _. split; [apply initialize_spec|]. simpl.
  destruct (stack (self w)) as [|r0 rest] eqn:Hstk; [unfold len in Hlen; simpl in Hlen; lia|].
  unfold preserved, inv, refs_valid, initialized. simpl. rewrite Hstk.
  replace (len (length (heap (self w)) :: rest)) with (len (r0 :: rest))
    by reflexivity.
  split_and!; try lia; try reflexivity.
  intros (Hrefs & Hinit). rewrite length_app; simpl. split.
  - inversion Hrefs as [|? ? Hr0 Hrest]; subst.
    constructor; [lia|].
    eapply Forall_impl; [exact Hrest|]. simpl. intros r Hr. lia.
  - intros r Hr. inversion Hr; subst. lia.
Qed.

Lemma registerChange_preserved (w : World E) :
  1 <= maxLength (self w) -> inv (self w) ->
  wp registerChange w (fun w' _ => preserved (self w) (self w')).
Proof.
  intros Hmax Hinv. unfold wp. rewrite registerChange_spec. cbv zeta.
  destruct (hasToolbox (editor w));
    [|eexists _, _; split; [reflexivity|apply preserved_same; try reflexivity; exact Hinv]].
  destruct (hasSave (editor w) && shouldSaveHistory (self w));
    [|eexists _, _; split; [reflexivity|apply preserved_same; try reflexivity; exact Hinv]].
  set (e := perform EditorSave (editor w)).
  set (w1 := mkWorld _ e _).
  destruct (entry_at (self w1) (position (self w1))) as [current|] eqn:Hcur.
  - unfold bind. rewrite (editorDidUpdate_spec _ w1 current Hcur).
    destruct (did_update (state current) (savedBlocks e)).
    + destruct (save_preserved (savedBlocks e) w1 Hmax Hinv)
        as (w' & c & Heq & Hpres).
      exists w', c. split; [exact Heq|].
      eapply preserved_frame; [| | | | |exact Hpres]; reflexivity.
    + eexists _, _. split; [reflexivity|]. apply preserved_same; try reflexivity; exact Hinv.
  - unfold bind. rewrite (editorDidUpdate_throws _ w1 Hcur).
    eexists _, _. split; [reflexivity|]. apply preserved_same; try reflexivity; exact Hinv.
Qed.

(** Every call returns and keeps the invariant when [maxLength] is
    positive. *)
Lemma run_preserved (op : Op) (w : World E) :
  1 <= maxLength (self w) -> inv (self w) ->
  wp (run op) w (fun w' _ => preserved (self w) (self w')).
Proof.
  intros Hmax Hinv. destruct op; simpl.
  - apply save_preserved; assumption.
  - apply undo_preserved; assumption.
  - apply redo_preserved; assumption.
  - apply clear_preserved; assumption.
  - apply initialize_preserved; assumption.
  - apply registerChange_preserved; assumption.
Qed.

Lemma preserved_good (u u' : Undo) : good u -> preserved u u' -> good u'.
Proof.
  intros (Hmax & Hinv & Hcap & Hrefs) (Hinv' & Hmax' & Hcap' & Hrefs').
  unfold good. rewrite Hmax'. split_and!; auto.
Qed.

Lemma run_good (op : Op) (w : World E) :
  good (self w) -> wp (run op) w (fun w' _ => good (self w')).
Proof.
  intros Hgood. pose proof Hgood as (Hmax & Hinv & _).
  destruct (run_preserved op w Hmax Hinv) as (w' & c & Heq & Hpres).
  exists w', c. split; [exact Heq|]. eapply preserved_good; eassumption.
Qed.

Lemma install_self (e : E) (w : World E) : self (install e w) = self w.
Proof. reflexivity. Qed.

Lemma exec_good (calls : list (E * Op)) (w : World E) :
  good (self w) -> exists w', exec calls w = Some w' /\ good (self w').
Proof.
  revert w. induction calls as [|[e op] calls IH]; intros w Hgood; simpl.
  - exists w. split; [reflexivity|exact Hgood].
  - destruct (run_good op (install e w) Hgood) as (w1 & c & Heq & Hgood1).
    rewrite Heq. apply IH. exact Hgood1.
Qed.

(** The constructor returns a state with the invariant. *)
Lemma constructor_spec (e : E) (ro : bool) (db : string) (ml : option Z) :
  exists w, constructor e ro db ml = Some (w, Normal tt)
    /\ inv (self w) /\ len (stack (self w)) = 1 /\ position (self w) = 0
    /\ refs_valid (self w)
    /\ maxLength (self w) = maxLength_option ml
    /\ readOnly (self w) = ro /\ shouldSaveHistory (self w) = true
    /\ snapshots (self w) = [Some [mkBlock None db []]].
Proof.
  unfold constructor. rewrite clear_spec. eexists. split; [reflexivity|].
  simpl. unfold inv, refs_valid, snapshots, len; simpl.
  split_and!; try reflexivity; try lia.
  - constructor; [lia|constructor].
  - intros r Hr. discriminate.
Qed.

Lemma maxLength_option_positive (ml : option Z) :
  match ml with Some n => 0 <= n | None => True end ->
  1 <= maxLength_option ml.
Proof.
  unfold maxLength_option. destruct ml as [n|]; [|lia].
  intros Hn. destruct (Z.eqb_spec n 0); lia.
Qed.

Lemma constructor_good (e : E) (ro : bool) (db : string) (ml : option Z) :
  match ml with Some n => 0 <= n | None => True end ->
  exists w, constructor e ro db ml = Some (w, Normal tt) /\ good (self w)
    /\ maxLength (self w) = maxLength_option ml.
Proof.
  intros Hml.
  destruct (constructor_spec e ro db ml)
    as (w & Heq & Hinv & Hlen & Hpos & Hrefs & Hmax & _).
  exists w. split; [exact Heq|]. split; [|exact Hmax].
  pose proof (maxLength_option_positive ml Hml).
  unfold good. rewrite Hmax, Hlen. split_and!; auto; lia.
Qed.

End MethodSpecs.

(** * The claims of the specification *)

Section Claims.

Context {E : Type} `{Editor E}.

Lemma exec_app (xs ys : list (E * Op)) (w : World E) :
  exec (xs ++ ys) w
  = match exec xs w with
    | Some w' => exec ys w'
    | None => None
    end.
Proof.
  revert w. induction xs as [|[e op] xs IH]; intros w; simpl; [reflexivity|].
  destruct (run op (install e w)) as [[w1 c]|]; [apply IH|reflexivity].
Qed.

Lemma good_entry_at (u : Undo) (i : Z) :
  refs_valid u -> 0 <= i < len (stack u) -> exists e, entry_at u i = Some e.
Proof.
  intros (Hrefs & _) Hi. unfold entry_at.
  destruct (at_index_in_range (stack u) i Hi) as (r & Hr). rewrite Hr.
  unfold at_index in Hr. destruct (i <? 0); [discriminate|].
  apply lookup_lt_is_Some_2.
  rewrite Forall_forall in Hrefs. apply Hrefs.
  eapply list_elem_of_lookup_2. exact Hr.
Qed.

Lemma good_current (u : Undo) : good u -> exists e, entry_at u (position u) = Some e.
Proof.
  intros (_ & (_ & Hpos) & _ & Hrefs). apply good_entry_at; assumption.
Qed.

(** Every call of a session returns, and every state it reaches is
    [good], when the [maxLength] option is absent or not negative. *)
Lemma session_good (e : E) (ro : bool) (db : string) (ml : option Z)
    (calls : list (E * Op)) :
  match ml with Some n => 0 <= n | None => True end ->
  exists w, session e ro db ml calls = Some w /\ good (self w).
Proof.
  intros Hml. unfold session.
  destruct (constructor_good e ro db ml Hml) as (w0 & Heq & Hgood & _).
  rewrite Heq. apply exec_good. exact Hgood.
Qed.

(** C1, as amended.  For every sequence of [save] calls made in a session
    whose [maxLength] option is absent or not negative, every call
    returns, and after each call the stack holds at most [maxLength + 1]
    entries: [count()], which leaves the initial entry out, is at most
    [maxLength]. *)
Theorem stack_bound (e : E) (ro : bool) (db : string) (ml : option Z)
    (cs : list (E * Snapshot)) :
  match ml with Some n => 0 <= n | None => True end ->
  exists w, session e ro db ml (saves cs) = Some w
    /\ len (stack (self w)) <= maxLength (self w) + 1
    /\ count (self w) <= maxLength (self w).
Proof.
  intros Hml.
  destruct (session_good e ro db ml (saves cs) Hml) as (w & Hexec & Hgood).
  exists w. split; [exact Hexec|].
  destruct Hgood as (_ & _ & Hcap & _). unfold count. lia.
Qed.

(** C2.  The constructor leaves a stack that is not empty with
    [0 <= position < length(stack)]; every operation ([save], [undo],
    [redo], [clear], and [initialize] and [registerChange] as well)
    returns and keeps it so when [maxLength] is positive, as the
    constructor makes it; so it holds of every state a session reaches. *)
Theorem history_invariant :
  (forall (e : E) (ro : bool) (db : string) (ml : option Z),
     exists w, constructor e ro db ml = Some (w, Normal tt) /\ inv (self w))
  /\ (forall (op : Op) (w : World E),
        1 <= maxLength (self w) -> inv (self w) ->
        exists w' c, run op w = Some (w', c)
          /\ inv (self w') /\ maxLength (self w') = maxLength (self w))
  /\ (forall (e : E) (ro : bool) (db : string) (ml : option Z)
             (calls : list (E * Op)),
        match ml with Some n => 0 <= n | None => True end ->
        exists w, session e ro db ml calls = Some w /\ inv (self w)).
Proof.
  split; [|split].
  - intros e ro db ml.
    destruct (constructor_spec e ro db ml) as (w & Heq & Hinv & _).
    exists w. split; assumption.
  - intros op w Hmax Hinv.
    destruct (run_preserved op w Hmax Hinv) as (w' & c & Heq & Hinv' & Hmax' & _).
    exists w', c. split_and!; assumption.
  - intros e ro db ml calls Hml.
    destruct (session_good e ro db ml calls Hml) as (w & Hexec & (_ & Hinv & _)).
    exists w. split; assumption.
Qed.

Lemma undo_good (w w1 : World E) (c1 : Completion unit) :
  good (self w) -> canUndo (self w) = true -> undo w = Some (w1, c1) ->
  good (self w1)
  /\ stack (self w1) = stack (self w)
  /\ position (self w1) = position (self w) - 1
  /\ readOnly (self w1) = readOnly (self w)
  /\ maxLength (self w1) = maxLength (self w)
  /\ shouldSaveHistory (self w1) = false
  /\ (forall r, option_map state (heap (self w1) !! r)
               = option_map state (heap (self w) !! r))
  /\ exists evs, emitted w w1 evs /\ Forall (fun ev => flag ev = false) evs.
Proof.
  intros Hgood Hcan Hundo.
  destruct (good_current _ Hgood) as (next & Hnext).
  destruct (undo_proceeds w next Hcan Hnext) as (w' & c' & Heq & Hrel).
  rewrite Hundo in Heq. inversion Heq; subst w' c'; clear Heq.
  pose proof Hgood as (_ & Hinv & _).
  destruct (canUndo_true _ Hcan) as (_ & Hpos).
  assert (Hpres : preserved (self w) (self w1)).
  { eapply replay_preserved; [| | | | |exact Hrel]; try reflexivity.
    destruct Hinv as (Hlen & Hp). unfold inv; simpl. lia. }
  destruct Hrel as (Hs & Hp & Hm & Hf & Hr & Hi & Hd & Hl & Hst & Hc & evs & He & Ha).
  simpl in *.
  split_and!; auto.
  - eapply preserved_good; eassumption.
  - exists evs. split; [exact He|].
    eapply Forall_impl; [exact Ha|]. simpl. intros ev [Hflag _]. exact Hflag.
Qed.

Lemma redo_good (w w1 : World E) (c1 : Completion unit) :
  good (self w) -> canRedo (self w) = true -> redo w = Some (w1, c1) ->
  good (self w1)
  /\ stack (self w1) = stack (self w)
  /\ position (self w1) = position (self w) + 1
  /\ readOnly (self w1) = readOnly (self w)
  /\ maxLength (self w1) = maxLength (self w)
  /\ shouldSaveHistory (self w1) = false
  /\ (forall r, option_map state (heap (self w1) !! r)
               = option_map state (heap (self w) !! r))
  /\ exists evs, emitted w w1 evs /\ Forall (fun ev => flag ev = false) evs.
Proof.
  intros Hgood Hcan Hredo.
  destruct (redo_proceeds w Hcan) as (w' & c' & Heq & Hrel).
  rewrite Hredo in Heq. inversion Heq; subst w' c'; clear Heq.
  pose proof Hgood as (_ & Hinv & _).
  destruct (canRedo_true _ Hcan) as (_ & Hpos).
  assert (Hpres : preserved (self w) (self w1)).
  { eapply replay_preserved; [| | | | |exact Hrel]; try reflexivity.
    destruct Hinv as (Hlen & Hp). unfold inv; simpl. lia. }
  destruct Hrel as (Hs & Hp & Hm & Hf & Hr & Hi & Hd & Hl & Hst & Hc & evs & He & Ha).
  simpl in *.
  split_and!; auto.
  - eapply preserved_good; eassumption.
  - exists evs. split; [exact He|].
    eapply Forall_impl; [exact Ha|]. simpl. intros ev [Hflag _]. exact Hflag.
Qed.

(** What a commit that succeeds leaves, in a state of a session. *)
Lemma save_committed (s : Snapshot) (w w' : World E) :
  good (self w) -> save s w = Some (w', Normal tt) ->
  exists ent, state ent = s
    /\ self w' = save_pushed (self w) ent
    /\ heap (self w') !! length (heap (self w)) = Some ent
    /\ position (self w') = count (self w')
    /\ current_snapshot (self w') = Some s.
Proof.
  intros Hgood Hsave. pose proof Hgood as (Hmax & Hinv & Hcap & Hrefs).
  destruct (save_spec s w) as (w2 & c & Heq & Hc); [lia|].
  rewrite Hsave in Heq. inversion Heq; subst w2 c; clear Heq.
  destruct Hc as (ent & Hstate & Hself & _).
  destruct (save_shape _ Hmax Hinv) as (Hp & Hl & Hc).
  assert (Hlook : (heap (self w) ++ [ent]) !! length (heap (self w)) = Some ent).
  { rewrite lookup_app_r by lia. rewrite Nat.sub_diag. reflexivity. }
  exists ent. rewrite Hself. split_and!; auto.
  - unfold count; simpl. rewrite len_app. unfold len at 2; simpl. lia.
  - unfold current_snapshot, entry_at; simpl.
    unfold at_index. destruct (Z.ltb_spec (save_position (self w) + 1) 0); [lia|].
    rewrite lookup_app_r by (unfold len in Hl; lia).
    replace (Z.to_nat (save_position (self w) + 1) - length (save_stack (self w)))%nat
      with 0%nat by (unfold len in Hl; lia).
    change ([length (heap (self w))] !! 0%nat) with (Some (length (heap (self w)))).
    cbv beta iota. rewrite Hlook. simpl. rewrite Hstate. reflexivity.
Qed.

(** [save] returns in every state of a session, and normally when the
    focused block has a content element. *)
Lemma save_returns (s : Snapshot) (w : World E) :
  good (self w) ->
  exists w' c, save s w = Some (w', c)
    /\ (hasContent (editor w) (getCurrentBlockIndex (editor w)) = true ->
        c = Normal tt)
    /\ (forall ex, c = Abrupt ex -> self w' = save_prepared (self w)).
Proof.
  intros (Hmax & _).
  destruct (save_spec s w) as (w' & c & Heq & Hc); [lia|].
  exists w', c. split; [exact Heq|]. destruct c as [[]|ex].
  - split; [reflexivity|]. intros ex Habs. discriminate.
  - destruct Hc as (Hself & _ & Hcontent). split.
    + intros Htrue. congruence.
    + intros ex' _. exact Hself.
Qed.

(** C3.  After an [undo()] that proceeds, a commit returns, in whatever
    state the editor is, and leaves [canRedo()] false: it keeps the
    entries up to the position the undo left and, when it succeeds, puts
    the new entry right after them, so that every entry beyond the
    position is gone.  It succeeds when the focused block has a content
    element. *)
Theorem redo_invalidated (w : World E) :
  good (self w) -> canUndo (self w) = true ->
  exists w1 c1,
    undo w = Some (w1, c1)
    /\ position (self w1) = position (self w) - 1
    /\ forall (e : E) (s : Snapshot),
         exists w2 c2,
           save s (install e w1) = Some (w2, c2)
           /\ canRedo (self w2) = false
           /\ (hasContent e (getCurrentBlockIndex e) = true -> c2 = Normal tt)
           /\ match c2 with
              | Normal _ =>
                  position (self w2) = position (self w1) + 1
                  /\ exists r ent,
                       stack (self w2)
                       = take (Z.to_nat (position (self w1) + 1)) (stack (self w))
                         ++ [r]
                       /\ heap (self w2) !! r = Some ent /\ state ent = s
              | Abrupt _ =>
                  position (self w2) = position (self w1)
                  /\ stack (self w2)
                     = take (Z.to_nat (position (self w1) + 1)) (stack (self w))
              end.
Proof.
  intros Hgood Hcan.
  pose proof Hgood as (Hmax & (Hlen & Hp) & Hcap & _).
  destruct (undo_preserved w (proj1 (proj2 Hgood))) as (w1 & c1 & Hundo & _).
  destruct (undo_good w w1 c1 Hgood Hcan Hundo) as (Hgood1 & Hstk & Hpos & _).
  exists w1, c1. split; [exact Hundo|]. split; [exact Hpos|].
  intros e s.
  pose proof Hgood1 as (_ & Hinv1 & Hcap1 & _). rewrite Hstk in Hcap1.
  destruct (save_no_eviction (self w1) Hinv1) as (Hsp & Hss); [lia|].
  destruct (save_returns s (install e w1) Hgood1) as (w2 & c2 & Hsave & Hnormal & Habrupt).
  exists w2, c2. split; [exact Hsave|].
  cbn [install self editor] in *.
  destruct c2 as [[]|ex].
  - destruct (save_committed s (install e w1) w2 Hgood1 Hsave)
      as (ent & Hstate & Hself & Hlook & Htail & _).
    cbn [install self] in *.
    split_and!.
    + unfold canRedo. rewrite Htail.
      destruct (Z.ltb_spec (count (self w2)) (count (self w2))); [lia|].
      apply andb_false_r.
    + exact Hnormal.
    + rewrite Hself; simpl. lia.
    + exists (length (heap (self w1))), ent. rewrite <- Hstk.
      split_and!; auto. rewrite Hself; simpl. rewrite Hss. reflexivity.
  - specialize (Habrupt ex eq_refl).
    destruct (save_shape (self w1)) as (_ & Hl & _);
      [destruct Hgood1 as (Hm1 & _); exact Hm1|exact Hinv1|].
    split_and!.
    + unfold canRedo, count. rewrite Habrupt; simpl. rewrite Hl.
      destruct (Z.ltb_spec (save_position (self w1)) (save_position (self w1) + 1 - 1));
        [lia|].
      apply andb_false_r.
    + exact Hnormal.
    + rewrite Habrupt; simpl. exact Hsp.
    + rewrite Habrupt; simpl. rewrite Hss, Hstk. reflexivity.
Qed.

(** C5.  With the read-only flag set, [canUndo()] and [canRedo()] are
    false whatever the position; and when [canUndo()] (or [canRedo()]) is
    false, [undo()] (or [redo()]) completes normally and leaves the
    world as it was: the stack, the position and [shouldSaveHistory] are
    unchanged and no call is issued. *)
Theorem read_only_guard :
  (forall u : Undo, readOnly u = true -> canUndo u = false /\ canRedo u = false)
  /\ (forall w : World E, canUndo (self w) = false -> undo w = Some (w, Normal tt))
  /\ (forall w : World E, canRedo (self w) = false -> redo w = Some (w, Normal tt)).
Proof.
  split_and!.
  - intros u Hro. unfold canUndo, canRedo. rewrite Hro. split; reflexivity.
  - apply undo_idle.
  - apply redo_idle.
Qed.

Lemma did_update_same (current : Snapshot) : did_update current current = false.
Proof.
  unfold did_update. destruct (len current =? 0); [reflexivity|].
  rewrite Z.eqb_refl, String.eqb_refl. reflexivity.
Qed.

Lemma did_update_length (current newData : Snapshot) :
  newData <> [] -> length newData <> length current ->
  did_update current newData = true.
Proof.
  intros Hne Hlen. unfold did_update.
  destruct (Z.eqb_spec (len newData) 0) as [H0|_];
    [destruct newData; [contradiction|unfold len in H0; simpl in H0; lia]|].
  destruct (Z.eqb_spec (len newData) (len current)) as [Heq|_];
    [unfold len in Heq; lia|reflexivity].
Qed.

(** On well-formed data the guard is false exactly on the snapshot
    itself. *)
Lemma did_update_identity (current newData : Snapshot) :
  newData <> [] ->
  wf_snapshot current = true -> wf_snapshot newData = true ->
  did_update current newData = false <-> newData = current.
Proof.
  intros Hne Hwc Hwn. split.
  - unfold did_update.
    destruct (Z.eqb_spec (len newData) 0) as [H0|_];
      [destruct newData; [contradiction|unfold len in H0; simpl in H0; lia]|].
    destruct (len newData =? len current); cbn [negb]; [|discriminate].
    destruct (String.eqb_spec (stringify current) (stringify newData)) as [Heq|];
      cbn [negb]; [|discriminate].
    intros _. symmetry. apply stringify_inj; assumption.
  - intros ->. apply did_update_same.
Qed.

(** C6, as amended.  [editorDidUpdate(newState)] is false when
    [newState] is empty, true when its length differs from that of the
    snapshot at the current position, and otherwise true exactly when the
    JSON serialisations of the two differ.  For well-formed data that
    comparison is identity, the order of the keys of every object
    included: on a non-empty [newState] the result is false exactly when
    [newState] is the snapshot of the current position, and a false
    result implies that the two are deep-equal, but not the other way
    round.  So [registerChange], when it observes the very snapshot of the
    current position, leaves the stack and [count()] as they were; and
    when it observes a non-empty snapshot that differs from it in any way,
    be it only in the order of the keys, and history is being recorded, it
    goes on to [save] what it observed. *)
Theorem editorDidUpdate_guard (w : World E) (current : Entry) :
  entry_at (self w) (position (self w)) = Some current ->
  (forall newData : Snapshot,
     exists b, editorDidUpdate newData w = Some (w, Normal b)
       /\ (newData = [] -> b = false)
       /\ (newData <> [] -> length newData <> length (state current) -> b = true)
       /\ (newData <> [] -> length newData = length (state current) ->
           (b = true <-> stringify (state current) <> stringify newData))
       /\ (newData <> [] ->
           wf_snapshot (state current) = true -> wf_snapshot newData = true ->
           (b = false <-> newData = state current)
           /\ (b = false -> deep_equal (state current) newData = true)))
  /\ (savedBlocks (perform EditorSave (editor w)) = state current ->
      exists w', registerChange w = Some (w', Normal tt)
        /\ stack (self w') = stack (self w)
        /\ position (self w') = position (self w)
        /\ count (self w') = count (self w))
  /\ (hasToolbox (editor w) = true -> hasSave (editor w) = true ->
      shouldSaveHistory (self w) = true ->
      savedBlocks (perform EditorSave (editor w)) <> [] ->
      savedBlocks (perform EditorSave (editor w)) <> state current ->
      wf_snapshot (state current) = true ->
      wf_snapshot (savedBlocks (perform EditorSave (editor w))) = true ->
      registerChange w
      = save (savedBlocks (perform EditorSave (editor w)))
             (mkWorld (set_shouldSaveHistory true (set_readOnly false (self w)))
                      (perform EditorSave (editor w))
                      (trace w ++ [mkEvent true EditorSave]))).
Proof.
  intros Hcur. split_and!.
  - intros newData. exists (did_update (state current) newData).
    split; [apply editorDidUpdate_spec; exact Hcur|].
    split_and!.
    + intros ->. reflexivity.
    + intros Hne Hlen. apply did_update_length; assumption.
    + intros Hne Hlen. unfold did_update.
      destruct (Z.eqb_spec (len newData) 0) as [H0|_];
        [destruct newData; [contradiction|unfold len in H0; simpl in H0; lia]|].
      destruct (Z.eqb_spec (len newData) (len (state current))) as [_|Hneq];
        [|unfold len in Hneq; lia].
      cbn [negb].
      destruct (String.eqb_spec (stringify (state current)) (stringify newData));
        cbn [negb]; split; intros; congruence.
    + intros Hne Hwc Hwn.
      pose proof (did_update_identity (state current) newData Hne Hwc Hwn) as Hid.
      split; [exact Hid|].
      intros Hb. apply Hid in Hb. rewrite Hb. apply deep_equal_refl.
      rewrite <- Hb. exact Hwn.
  - intros Hsaved. rewrite registerChange_spec. cbv zeta.
    destruct (hasToolbox (editor w)); [|eexists; split_and!; reflexivity].
    destruct (hasSave (editor w) && shouldSaveHistory (self w));
      [|eexists; split_and!; reflexivity].
    unfold bind. erewrite editorDidUpdate_spec by (simpl; exact Hcur).
    rewrite Hsaved, did_update_same.
    eexists; split_and!; reflexivity.
  - intros Htool Hsave Hflag Hne Hdiff Hwc Hwn.
    rewrite registerChange_spec. cbv zeta. rewrite Htool, Hsave, Hflag.
    cbn [andb negb]. unfold bind.
    erewrite editorDidUpdate_spec by (simpl; exact Hcur).
    destruct (did_update (state current) _) eqn:Hb; [reflexivity|].
    apply (did_update_identity _ _ Hne Hwc Hwn) in Hb. contradiction.
Qed.

(** C8, at the offset the claim singles out.  With the recorded offset
    [0] the cursor restorer does not set the caret at that offset: it
    calls [caret.setToBlock(index, "end")], the branch of an absent
    offset. *)
Theorem caret_offset_zero_goes_to_end (i : Z) (w : World E) :
  setCaretIndex i (Some 0) w
  = Some (mkWorld (self w) (perform (CaretSetToBlock i) (editor w))
                  (trace w ++ [mkEvent (shouldSaveHistory (self w))
                                       (CaretSetToBlock i)]),
          Normal tt).
Proof. reflexivity. Qed.

(** The other offsets: a recorded offset that is neither [0] nor the
    sentinel [-1] is set, deferred, when the block has a content element;
    an absent offset and the sentinel put the caret at the end. *)
Lemma setCaretIndex_spec (i : Z) (caret : option Z) (w : World E) :
  setCaretIndex i caret w
  = match caret with
    | Some c =>
        if (c =? 0) || (c =? -1) then emit (CaretSetToBlock i) w
        else if hasContent (editor w) i then emit (CaretSetPosLater i c) w
        else Some (w, Abrupt TypeError)
    | None => emit (CaretSetToBlock i) w
    end.
Proof.
  unfold setCaretIndex. destruct caret as [c|]; [|reflexivity].
  destruct (c =? 0), (c =? -1); simpl; try reflexivity.
  mstep. destruct (hasContent (editor w) i); reflexivity.
Qed.

(** C10, as amended.  [save] has no equality guard: whatever the
    snapshot, and so also for one equal to the snapshot at the current
    position, [save] returns, normally when the focused block has a
    content element; and a [save] that returns normally has pushed a new
    entry that holds the snapshot and made it the current position, which
    is then the last of the stack.  Below capacity
    ([position < maxLength]) the position goes up by one, and [count()]
    too when the position was the last of the stack; at capacity
    ([position = maxLength]) the oldest entry is evicted, and the position
    and [count()] stay as they were. *)
Theorem save_always_appends (s : Snapshot) (w : World E) :
  good (self w) ->
  exists w' c,
    save s w = Some (w', c)
    /\ (hasContent (editor w) (getCurrentBlockIndex (editor w)) = true ->
        c = Normal tt)
    /\ (c = Normal tt ->
        (exists r ent, stack (self w') = save_stack (self w) ++ [r]
                       /\ heap (self w') !! r = Some ent /\ state ent = s)
        /\ current_snapshot (self w') = Some s
        /\ position (self w') = count (self w')
        /\ (position (self w) < maxLength (self w) ->
            position (self w') = position (self w) + 1)
        /\ (position (self w) < maxLength (self w) ->
            position (self w) = count (self w) ->
            count (self w') = count (self w) + 1)
        /\ (position (self w) = maxLength (self w) ->
            position (self w') = position (self w)
            /\ count (self w') = count (self w))).
Proof.
  intros Hgood.
  destruct (save_returns s w Hgood) as (w' & c & Hsave & Hnormal & _).
  exists w', c. split; [exact Hsave|]. split; [exact Hnormal|].
  intros ->.
  destruct (save_committed s w w' Hgood Hsave)
    as (ent & Hstate & Hself & Hlook & Htail & Hcur).
  pose proof Hgood as (Hmax & Hinv & Hcap & _).
  split_and!; auto.
  - exists (length (heap (self w))), ent. rewrite Hself at 1. auto.
  - intros Hlt. destruct (save_no_eviction _ Hinv Hlt) as (Hsp & _).
    rewrite Hself; simpl. lia.
  - intros Hlt Hlast. destruct (save_no_eviction _ Hinv Hlt) as (Hsp & _).
    rewrite <- Htail, <- Hlast. rewrite Hself; simpl. lia.
  - intros Hfull.
    destruct (save_at_capacity _ Hmax Hinv Hcap Hfull) as (Hsp & Hcount).
    assert (Hp : position (self w') = position (self w))
      by (rewrite Hself; simpl; lia).
    split; [exact Hp|]. rewrite <- Htail, Hp, Hcount. exact Hfull.
Qed.

(** *** Commits at the end of the stack *)

Lemma lastn_all {A : Type} (k : nat) (l : list A) :
  (length l <= k)%nat -> lastn k l = l.
Proof.
  intros Hk. unfold lastn. replace (length l - k)%nat with 0%nat by lia.
  reflexivity.
Qed.

Lemma lastn_snoc {A : Type} (k : nat) (l : list A) (x : A) :
  (1 <= k)%nat -> lastn k (lastn k l ++ [x]) = lastn k (l ++ [x]).
Proof.
  intros Hk. destruct (Nat.le_gt_cases (length l) k) as [Hle|Hgt].
  - rewrite (lastn_all k l) by exact Hle. reflexivity.
  - unfold lastn. rewrite !length_app, length_drop. simpl.
    replace (length l - (length l - k) + 1 - k)%nat with 1%nat by lia.
    rewrite drop_app_le by (rewrite length_drop; lia).
    rewrite drop_drop.
    rewrite drop_app_le by lia.
    replace (length l + 1 - k)%nat with (length l - k + 1)%nat by lia.
    reflexivity.
Qed.

Lemma lastn_map {A B : Type} (f : A -> B) (k : nat) (l : list A) :
  lastn k (List.map f l) = List.map f (lastn k l).
Proof.
  unfold lastn. rewrite length_map.
  change (List.map f) with (fmap (M := list) f). rewrite fmap_drop. reflexivity.
Qed.

(** A commit at the end of the stack keeps the last [maxLength + 1]
    entries. *)
Lemma save_stack_at_tail (u : Undo) (r : nat) :
  good u -> position u = len (stack u) - 1 ->
  save_stack u ++ [r] = lastn (Z.to_nat (maxLength u + 1)) (stack u ++ [r]).
Proof.
  intros (Hmax & (Hlen & Hpos) & Hcap & _) Htail.
  destruct (Z_lt_ge_dec (position u) (maxLength u)) as [Hlt|Hge].
  - destruct (save_no_eviction u) as (_ & ->); [split; assumption|exact Hlt|].
    rewrite take_ge by (unfold len in *; lia).
    rewrite lastn_all; [reflexivity|].
    rewrite length_app; simpl. unfold len in *. lia.
  - assert (Hfull : length (stack u) = S (Z.to_nat (maxLength u)))
      by (unfold len in *; lia).
    unfold save_stack, save_position, save_evicted.
    destruct (Z.geb_spec (position u) (maxLength u)) as [_|Hlt]; [|lia].
    rewrite Hfull.
    replace (S (Z.to_nat (maxLength u)) - Z.to_nat (maxLength u))%nat
      with 1%nat by lia.
    assert (Hdrop : len (drop 1 (stack u)) = maxLength u)
      by (unfold len; rewrite length_drop; lia).
    rewrite Hdrop. rewrite slice0_prefix by lia.
    rewrite take_ge by (unfold len in Hdrop; lia).
    unfold lastn. rewrite length_app, Hfull. simpl length.
    replace (S (Z.to_nat (maxLength u)) + 1 - Z.to_nat (maxLength u + 1))%nat
      with 1%nat by lia.
    rewrite drop_app_le by lia. reflexivity.
Qed.

Lemma snapshots_pushed (u : Undo) (ent : Entry) :
  good u -> position u = len (stack u) - 1 ->
  snapshots (save_pushed u ent)
  = lastn (Z.to_nat (maxLength u + 1)) (snapshots u ++ [Some (state ent)]).
Proof.
  intros Hgood Htail. pose proof Hgood as (_ & _ & _ & Hrefs & _).
  unfold snapshots; simpl.
  rewrite (save_stack_at_tail u _ Hgood Htail), <- lastn_map. f_equal.
  rewrite List.map_app. simpl.
  rewrite lookup_app_r by lia. rewrite Nat.sub_diag. simpl. f_equal.
  apply List.map_ext_in. intros r Hr.
  rewrite lookup_app_l; [reflexivity|].
  rewrite Forall_forall in Hrefs. apply Hrefs. apply list_elem_of_In. exact Hr.
Qed.

Lemma commits_spec (cs : list (E * Snapshot)) (w w' : World E)
    (all : list Snapshot) :
  good (self w) -> position (self w) = len (stack (self w)) - 1 ->
  snapshots (self w)
  = List.map Some (lastn (Z.to_nat (maxLength (self w) + 1)) all) ->
  commits cs w = Some w' ->
  good (self w')
  /\ position (self w') = len (stack (self w')) - 1
  /\ maxLength (self w') = maxLength (self w)
  /\ readOnly (self w') = readOnly (self w)
  /\ snapshots (self w')
     = List.map Some (lastn (Z.to_nat (maxLength (self w) + 1))
                            (all ++ List.map snd cs)).
Proof.
  revert w all. induction cs as [|[e s] cs IH]; intros w all Hgood Htail Hsnap Hc;
    simpl in Hc.
  - inversion Hc; subst w'. simpl. rewrite app_nil_r. split_and!; auto.
  - destruct (save s (install e w)) as [[w1 [[]|ex]]|] eqn:Hsave; try discriminate.
    destruct (save_committed s (install e w) w1 Hgood Hsave)
      as (ent & Hstate & Hself & _ & Hlast & _).
    simpl in Hself.
    assert (Hgood1 : good (self w1)).
    { rewrite Hself. eapply preserved_good; [exact Hgood|].
      destruct Hgood as (Hmax & Hinv & _).
      apply save_pushed_preserved; assumption. }
    assert (Hmax1 : maxLength (self w1) = maxLength (self w))
      by (rewrite Hself; reflexivity).
    assert (Hro1 : readOnly (self w1) = readOnly (self w))
      by (rewrite Hself; reflexivity).
    assert (Hsnap1 : snapshots (self w1)
                     = List.map Some (lastn (Z.to_nat (maxLength (self w1) + 1))
                                            (all ++ [s]))).
    { rewrite Hmax1, Hself, (snapshots_pushed _ _ Hgood Htail), Hsnap, Hstate.
      change [Some s] with (List.map Some [s]).
      rewrite <- List.map_app, lastn_map. f_equal.
      apply lastn_snoc. destruct Hgood as (Hmax & _). lia. }
    destruct (IH w1 (all ++ [s]) Hgood1 Hlast Hsnap1 Hc)
      as (Hg & Ht & Hm & Hr & Hs).
    rewrite <- app_assoc in Hs. simpl in Hs.
    rewrite Hmax1 in Hs. split_and!; auto; congruence.
Qed.

(** *** Sequences of undo and redo calls *)

Lemma snapshots_ext (u u' : Undo) :
  stack u' = stack u ->
  (forall r, option_map state (heap u' !! r) = option_map state (heap u !! r)) ->
  snapshots u' = snapshots u.
Proof.
  intros Hs Hh. unfold snapshots. rewrite Hs.
  apply List.map_ext. intros r. apply Hh.
Qed.

Lemma undo_step (w : World E) :
  good (self w) -> readOnly (self w) = false ->
  exists w' c, undo w = Some (w', c)
    /\ good (self w') /\ readOnly (self w') = false
    /\ stack (self w') = stack (self w)
    /\ snapshots (self w') = snapshots (self w)
    /\ position (self w') = Z.max 0 (position (self w) - 1).
Proof.
  intros Hgood Hro. pose proof Hgood as (_ & Hinv & _).
  destruct (undo_preserved w Hinv) as (w' & c & Heq & _).
  exists w', c. split; [exact Heq|].
  destruct (canUndo (self w)) eqn:Hcan.
  - destruct (undo_good w w' c Hgood Hcan Heq)
      as (Hg & Hs & Hp & Hr & _ & _ & Hst & _).
    destruct (canUndo_true _ Hcan) as (_ & Hpos).
    split_and!; auto; [congruence|apply snapshots_ext; assumption|lia].
  - rewrite (undo_idle w Hcan) in Heq. inversion Heq; subst w' c.
    unfold canUndo in Hcan. rewrite Hro in Hcan. simpl in Hcan.
    rewrite Z.gtb_ltb in Hcan. apply Z.ltb_ge in Hcan.
    destruct Hinv as (_ & Hpos). split_and!; auto. lia.
Qed.

Lemma redo_step (w : World E) :
  good (self w) -> readOnly (self w) = false ->
  exists w' c, redo w = Some (w', c)
    /\ good (self w') /\ readOnly (self w') = false
    /\ stack (self w') = stack (self w)
    /\ snapshots (self w') = snapshots (self w)
    /\ position (self w') = Z.min (len (stack (self w)) - 1) (position (self w) + 1).
Proof.
  intros Hgood Hro. pose proof Hgood as (_ & Hinv & _).
  destruct (redo_preserved w Hinv) as (w' & c & Heq & _).
  exists w', c. split; [exact Heq|].
  destruct (canRedo (self w)) eqn:Hcan.
  - destruct (redo_good w w' c Hgood Hcan Heq)
      as (Hg & Hs & Hp & Hr & _ & _ & Hst & _).
    destruct (canRedo_true _ Hcan) as (_ & Hpos).
    split_and!; auto; [congruence|apply snapshots_ext; assumption|lia].
  - rewrite (redo_idle w Hcan) in Heq. inversion Heq; subst w' c.
    unfold canRedo, count in Hcan. rewrite Hro in Hcan. simpl in Hcan.
    apply Z.ltb_ge in Hcan.
    destruct Hinv as (_ & Hpos). split_and!; auto. lia.
Qed.

Lemma exec_undos (es : list E) (w : World E) :
  good (self w) -> readOnly (self w) = false ->
  exists w', exec (undos es) w = Some w'
    /\ good (self w') /\ readOnly (self w') = false
    /\ stack (self w') = stack (self w)
    /\ snapshots (self w') = snapshots (self w)
    /\ position (self w') = Z.max 0 (position (self w) - len es).
Proof.
  revert w. induction es as [|e es IH]; intros w Hgood Hro; simpl.
  - exists w. pose proof Hgood as (_ & (_ & Hpos) & _).
    split_and!; auto. unfold len; simpl. lia.
  - destruct (undo_step (install e w) Hgood Hro)
      as (w1 & c & Heq & Hg1 & Hr1 & Hs1 & Hsn1 & Hp1).
    rewrite Heq. destruct (IH w1 Hg1 Hr1) as (w' & Hex & Hg & Hr & Hs & Hsn & Hp).
    exists w'. simpl in *. split_and!; auto; try congruence.
    rewrite Hp, Hp1. unfold len; simpl length. lia.
Qed.

Lemma exec_redos (es : list E) (w : World E) :
  good (self w) -> readOnly (self w) = false ->
  exists w', exec (redos es) w = Some w'
    /\ good (self w') /\ readOnly (self w') = false
    /\ stack (self w') = stack (self w)
    /\ snapshots (self w') = snapshots (self w)
    /\ position (self w')
       = Z.min (len (stack (self w)) - 1) (position (self w) + len es).
Proof.
  revert w. induction es as [|e es IH]; intros w Hgood Hro; simpl.
  - exists w. pose proof Hgood as (_ & (_ & Hpos) & _).
    split_and!; auto. unfold len at 2; simpl. lia.
  - destruct (redo_step (install e w) Hgood Hro)
      as (w1 & c & Heq & Hg1 & Hr1 & Hs1 & Hsn1 & Hp1).
    rewrite Heq. destruct (IH w1 Hg1 Hr1) as (w' & Hex & Hg & Hr & Hs & Hsn & Hp).
    exists w'. simpl in *. split_and!; auto; try congruence.
    rewrite Hp, Hp1, Hs1.
    replace (len (e :: es)) with (1 + len es) by (unfold len; simpl length; lia).
    pose proof (len_nonneg es). lia.
Qed.

Lemma current_of_snapshots (u : Undo) (l : list Snapshot) :
  inv u -> snapshots u = List.map Some l ->
  current_snapshot u = l !! Z.to_nat (position u).
Proof.
  intros (Hlen & Hpos) Hsnap.
  assert (Hl : (List.map Some l) !! Z.to_nat (position u)
               = Some (current_snapshot u)).
  { rewrite <- Hsnap. unfold snapshots, current_snapshot, entry_at, at_index.
    destruct (Z.ltb_spec (position u) 0); [lia|].
    change (List.map ?f) with (fmap (M := list) f). rewrite list_lookup_fmap.
    destruct (stack u !! Z.to_nat (position u)) as [r|] eqn:Hr; [reflexivity|].
    apply lookup_ge_None in Hr. unfold len in *. lia. }
  change (List.map Some l) with (Some <$> l) in Hl.
  rewrite list_lookup_fmap in Hl.
  destruct (l !! Z.to_nat (position u)) as [x|]; simpl in Hl; congruence.
Qed.

(** C4.  Take a session that is not read-only, commit [N] snapshots, then
    call [undo] [N - 1] times and [redo] [N - 1] times, the editor being
    in any state at each call.  The stack holds the last [maxLength + 1]
    of the initial and the committed snapshots; every call returns; the
    position ends where it started; and after each call the snapshot
    stored at the position is the one originally committed there. *)
Theorem undo_redo_inverse (e : E) (db : string) (ml : option Z)
    (cs : list (E * Snapshot)) (w0 w : World E) (c0 : Completion unit)
    (es1 es2 : list E) :
  match ml with Some n => 0 <= n | None => True end ->
  constructor e false db ml = Some (w0, c0) ->
  commits cs w0 = Some w ->
  length es1 = (length cs - 1)%nat ->
  length es2 = (length cs - 1)%nat ->
  let committed :=
    lastn (Z.to_nat (maxLength (self w) + 1))
          ([mkBlock None db []] :: List.map snd cs) in
  snapshots (self w) = List.map Some committed
  /\ exists w1 w2,
       exec (undos es1) w = Some w1
       /\ exec (redos es2) w1 = Some w2
       /\ position (self w2) = position (self w)
       /\ (forall k, (k <= length es1)%nat ->
             exists wk, exec (undos (take k es1)) w = Some wk
               /\ position (self wk) = Z.max 0 (position (self w) - Z.of_nat k)
               /\ current_snapshot (self wk)
                  = committed !! Z.to_nat (position (self wk)))
       /\ (forall k, (k <= length es2)%nat ->
             exists wk, exec (redos (take k es2)) w1 = Some wk
               /\ position (self wk)
                  = Z.min (position (self w)) (position (self w1) + Z.of_nat k)
               /\ current_snapshot (self wk)
                  = committed !! Z.to_nat (position (self wk))).
Proof.
  intros Hml Hcons Hcommits Hl1 Hl2 committed.
  destruct (constructor_spec e false db ml)
    as (w0' & Heq & _ & Hlen0 & Hpos0 & _ & Hmax0 & Hro0 & _ & Hsnap0).
  destruct (constructor_good e false db ml Hml) as (w0'' & Heq' & Hgood0 & _).
  rewrite Hcons in Heq, Heq'.
  inversion Heq; subst w0'. inversion Heq'; subst w0''. clear Heq Heq'.
  pose proof (maxLength_option_positive ml Hml) as Hpositive.
  destruct (commits_spec cs w0 w [[mkBlock None db []]] Hgood0)
    as (Hgood & Htail & Hmax & Hro & Hsnap); auto.
  { lia. }
  { rewrite Hsnap0. rewrite lastn_all; [reflexivity|]. simpl. lia. }
  rewrite Hro0 in Hro. rewrite <- Hmax in Hsnap. simpl app in Hsnap.
  fold committed in Hsnap.
  split; [exact Hsnap|].
  destruct (exec_undos es1 w Hgood Hro)
    as (w1 & Hex1 & Hgood1 & Hro1 & Hstk1 & Hsnap1 & Hpos1).
  destruct (exec_redos es2 w1 Hgood1 Hro1)
    as (w2 & Hex2 & Hgood2 & Hro2 & Hstk2 & Hsnap2 & Hpos2).
  pose proof Hgood as (_ & (_ & Hrange) & _).
  exists w1, w2. split_and!; auto.
  - rewrite Hpos2, Hpos1, Hstk1. unfold len at 2 3. rewrite Hl1, Hl2. lia.
  - intros k Hk.
    destruct (exec_undos (take k es1) w Hgood Hro)
      as (wk & Hexk & Hgoodk & _ & _ & Hsnapk & Hposk).
    exists wk. split_and!; auto.
    + rewrite Hposk. unfold len. rewrite length_take. lia.
    + apply current_of_snapshots; [apply Hgoodk|].
      rewrite Hsnapk. exact Hsnap.
  - intros k Hk.
    destruct (exec_redos (take k es2) w1 Hgood1 Hro1)
      as (wk & Hexk & Hgoodk & _ & _ & Hsnapk & Hposk).
    exists wk. split_and!; auto.
    + rewrite Hposk, Hstk1. unfold len at 2. rewrite length_take. lia.
    + apply current_of_snapshots; [apply Hgoodk|].
      rewrite Hsnapk, Hsnap1. exact Hsnap.
Qed.

Lemma good_frame (u u' : Undo) :
  stack u' = stack u -> position u' = position u ->
  maxLength u' = maxLength u -> heap u' = heap u ->
  initialItem u' = initialItem u ->
  good u -> good u'.
Proof.
  intros Hs Hp Hm Hh Hi. unfold good, inv, refs_valid.
  rewrite Hs, Hp, Hm, Hh, Hi. auto.
Qed.

(** C7, as amended.  An [undo()] or [redo()] that proceeds leaves
    [shouldSaveHistory] false and issues every call of its replay after
    the flag was cleared.  While the editor is not read-only,
    [registerChange] consumes the flag once: with the flag false it calls
    neither [editor.save()] nor [save] and sets the flag back to true;
    with the flag true it observes the document and commits it when
    [editorDidUpdate] says so.  While the editor is read-only
    [registerChange] ignores the observation and leaves the flag as it
    is. *)
Theorem suppression_flag :
  (forall w : World E,
     good (self w) -> canUndo (self w) = true ->
     exists w' c evs, undo w = Some (w', c)
       /\ shouldSaveHistory (self w') = false
       /\ emitted w w' evs /\ Forall (fun ev => flag ev = false) evs)
  /\ (forall w : World E,
        good (self w) -> canRedo (self w) = true ->
        exists w' c evs, redo w = Some (w', c)
          /\ shouldSaveHistory (self w') = false
          /\ emitted w w' evs /\ Forall (fun ev => flag ev = false) evs)
  /\ (forall w : World E,
        hasToolbox (editor w) = true -> shouldSaveHistory (self w) = false ->
        registerChange w
        = Some (mkWorld (set_shouldSaveHistory true (set_readOnly false (self w)))
                        (editor w) (trace w),
                Normal tt))
  /\ (forall (w : World E) (current : Entry),
        good (self w) ->
        hasToolbox (editor w) = true -> hasSave (editor w) = true ->
        shouldSaveHistory (self w) = true ->
        entry_at (self w) (position (self w)) = Some current ->
        let observed := savedBlocks (perform EditorSave (editor w)) in
        exists w' c evs, registerChange w = Some (w', c)
          /\ shouldSaveHistory (self w') = true
          /\ emitted w w' (mkEvent true EditorSave :: evs)
          /\ (did_update (state current) observed = true -> c = Normal tt ->
              current_snapshot (self w') = Some observed)
          /\ (did_update (state current) observed = false ->
              stack (self w') = stack (self w) /\ evs = []))
  /\ (forall w : World E,
        hasToolbox (editor w) = false ->
        registerChange w
        = Some (mkWorld (set_readOnly true (self w)) (editor w) (trace w),
                Normal tt)).
Proof.
  split_and!.
  - intros w Hgood Hcan.
    pose proof Hgood as (_ & Hinv & _).
    destruct (undo_preserved w Hinv) as (w' & c & Heq & _).
    destruct (undo_good w w' c Hgood Hcan Heq)
      as (_ & _ & _ & _ & _ & Hflag & _ & evs & He & Ha).
    exists w', c, evs. split_and!; assumption.
  - intros w Hgood Hcan.
    pose proof Hgood as (_ & Hinv & _).
    destruct (redo_preserved w Hinv) as (w' & c & Heq & _).
    destruct (redo_good w w' c Hgood Hcan Heq)
      as (_ & _ & _ & _ & _ & Hflag & _ & evs & He & Ha).
    exists w', c, evs. split_and!; assumption.
  - intros w Htool Hflag. rewrite registerChange_spec. cbv zeta.
    rewrite Htool, Hflag, andb_false_r. reflexivity.
  - intros w current Hgood Htool Hsave Hflag Hcur observed.
    rewrite registerChange_spec. cbv zeta.
    rewrite Htool, Hsave, Hflag. cbn [andb negb].
    fold observed.
    set (w1 := mkWorld _ _ _).
    assert (Hgood1 : good (self w1))
      by (eapply good_frame; [| | | | |exact Hgood]; reflexivity).
    unfold bind. rewrite (editorDidUpdate_spec observed w1 current) by exact Hcur.
    destruct (did_update (state current) observed) eqn:Hdid.
    + destruct (save_spec observed w1) as (w' & c & Heq & Hc);
        [destruct Hgood1 as (Hmax & _); lia|].
      rewrite Heq. destruct c as [[]|ex].
      * destruct (save_committed observed w1 w' Hgood1 Heq)
          as (ent & _ & Hself & _ & _ & Hcurrent).
        destruct Hc as (_ & _ & _ & Htrace).
        eexists w', _, _. split; [reflexivity|]. split_and!.
        -- rewrite Hself. reflexivity.
        -- unfold emitted. rewrite Htrace. subst w1. simpl.
           rewrite <- app_assoc. reflexivity.
        -- intros _ _. exact Hcurrent.
        -- intros Hfalse. discriminate.
      * destruct Hc as (Hself & Htrace & _).
        eexists w', _, []. split; [reflexivity|]. split_and!.
        -- rewrite Hself. reflexivity.
        -- unfold emitted. rewrite Htrace. reflexivity.
        -- intros _ Habs. discriminate.
        -- intros Hfalse. discriminate.
    + eexists w1, _, []. split; [reflexivity|]. split_and!.
      * reflexivity.
      * reflexivity.
      * intros Habs. discriminate.
      * intros _. split; reflexivity.
  - intros w Htool. rewrite registerChange_spec. cbv zeta.
    rewrite Htool. reflexivity.
Qed.

(** *** The deletion round trip *)

Lemma insertDeletedBlock_removed (a b c : Block) (focus : Z) :
  id b <> id c ->
  insertDeletedBlock [a; b; c] [a; c] focus
  = bind (E := E) (emit (BlocksInsert (type b) (data b) 1 true))
         (fun _ => emit (CaretSetToBlock focus)).
Proof.
  intros Hne. unfold insertDeletedBlock. cbn [insertDeletedBlock_from].
  change (at_index [a; c] 0) with (Some a).
  change (at_index [a; c] (0 + 1)) with (Some c).
  unfold opt_string_neqb.
  rewrite opt_string_eqb_refl, (opt_string_eqb_neq _ _ Hne). reflexivity.
Qed.

Lemma deleted_index_removed (a b c : Block) :
  id b <> id c -> findIndex_from (deleted_here [a; c]) [a; b; c] 0 = 1.
Proof.
  intros Hne. cbn [findIndex_from]. unfold deleted_here.
  change (at_index [a; c] 0) with (Some a).
  change (at_index [a; c] (0 + 1)) with (Some c).
  unfold opt_string_neqb. cbn [existsb].
  rewrite !opt_string_eqb_refl.
  rewrite (opt_string_eqb_neq (id c) (id b)) by congruence.
  cbn [negb orb]. rewrite orb_true_r. reflexivity.
Qed.

Lemma structural_quiet (f : bool) (evs : list Event) :
  Forall (fun ev => flag ev = f /\ quiet (call ev)) evs -> structural evs = [].
Proof.
  unfold structural. induction 1 as [|ev evs [_ Hq] _ IH]; simpl; [reflexivity|].
  unfold quiet in Hq. rewrite Hq. exact IH.
Qed.

Lemma structural_app (xs ys : list Event) :
  structural (xs ++ ys) = structural xs ++ structural ys.
Proof. unfold structural. rewrite List.map_app, List.filter_app. reflexivity. Qed.

(** A computation that leaves the block structure alone adds no
    structural call. *)
Lemma quiet_tail {A : Type} (m : M E A) (w : World E) :
  replays quiet m ->
  exists w' c evs, m w = Some (w', c) /\ emitted w w' evs /\ structural evs = [].
Proof.
  intros Hm. destruct (Hm w) as (w' & c & Heq & Hrel).
  destruct Hrel as (_ & _ & _ & _ & _ & _ & _ & _ & _ & _ & evs & He & Ha).
  exists w', c, evs. split_and!; auto. eapply structural_quiet. exact Ha.
Qed.

(** The re-insertion of the deleted block, followed by calls that leave
    the block structure alone. *)
Lemma deleted_then_quiet (K : unit -> M E unit) (a b c : Block) (i : Z)
    (w : World E) :
  id b <> id c -> replays quiet (K tt) ->
  exists w' r evs,
    bind (insertDeletedBlock [a; b; c] [a; c] i) K w = Some (w', r)
    /\ emitted w w' evs
    /\ structural evs = [BlocksInsert (type b) (data b) 1 true].
Proof.
  intros Hne HK. rewrite (insertDeletedBlock_removed a b c i Hne).
  rewrite bind_assoc. do 2 mstep.
  lazymatch goal with
  | |- exists w' r evs, K tt ?w0 = Some (w', r) /\ _ =>
      destruct (quiet_tail (K tt) w0 HK) as (w' & r & evs & Heq & He & Hs)
  end.
  eexists w', r, (_ :: _ :: evs). split; [exact Heq|].
  unfold emitted in *. rewrite He. cbn [trace]. split.
  - rewrite <- !app_assoc. reflexivity.
  - change (?x :: ?y :: evs) with ([x; y] ++ evs).
    rewrite structural_app, Hs. reflexivity.
Qed.

Lemma undo_deletion_trace (w : World E) (a b c : Block) (prev next : Entry) :
  id b <> id c ->
  canUndo (self w) = true ->
  entry_at (self w) (position (self w)) = Some next -> state next = [a; c] ->
  entry_at (self w) (position (self w) - 1) = Some prev ->
  state prev = [a; b; c] ->
  exists w1 c1 evs1,
    undo w = Some (w1, c1) /\ emitted w w1 evs1
    /\ structural evs1 = [BlocksInsert (type b) (data b) 1 true].
Proof.
  intros Hne Hcan Hnext Hnst Hprev Hpst.
  assert (Href : exists r, at_index (stack (self w)) (position (self w) - 1) = Some r
                           /\ heap (self w) !! r = Some prev).
  { unfold entry_at in Hprev.
    destruct (at_index (stack (self w)) (position (self w) - 1)) as [r|];
      [|discriminate].
    exists r. split; [reflexivity|exact Hprev]. }
  destruct Href as (r & Hr & Hh).
  unfold undo. mstep. rewrite Hcan, Hnext. do 4 mstep.
  change (entry_at (set_shouldSaveHistory false
                      (set_position (position (self w) - 1) (self w)))
                   (position (set_shouldSaveHistory false
                      (set_position (position (self w) - 1) (self w)))))
    with (entry_at (self w) (position (self w) - 1)).
  rewrite Hprev. do 3 mstep. rewrite Hnst, Hpst.
  change (blockWasDeleted [a; b; c] [a; c]) with true. cbv iota.
  assert (Hfinish : forall (i : Z) (K : unit -> M E unit) (w0 : World E),
    replays quiet (K tt) -> trace w0 = trace w ++ [mkEvent false OnUpdate] ->
    exists w1 c1 evs1,
      bind (insertDeletedBlock [a; b; c] [a; c] i) K w0 = Some (w1, c1)
      /\ emitted w w1 evs1
      /\ structural evs1 = [BlocksInsert (type b) (data b) 1 true]).
  { intros i K w0 HK Htr.
    destruct (deleted_then_quiet K a b c i w0 Hne HK) as (w1 & c1 & evs & Heq & He & Hs).
    exists w1, c1, (mkEvent false OnUpdate :: evs). split; [exact Heq|]. split.
    - unfold emitted in *. rewrite He, Htr, <- app_assoc. reflexivity.
    - change (?x :: evs) with ([x] ++ evs). rewrite structural_app, Hs. reflexivity. }
  destruct (at_index [a; b; c] (index prev)) as [focused|].
  - mstep. apply Hfinish; [repeat replays_quiet_step|reflexivity].
  - rewrite bind_assoc. unfold write_index. rewrite !bind_assoc. mstep.
    cbn [stack position heap set_shouldSaveHistory set_position].
    rewrite Hr, !bind_assoc. mstep. rewrite Hh, !bind_assoc. do 3 mstep.
    apply Hfinish; [repeat replays_quiet_step|reflexivity].
Qed.

Lemma redo_deletion_trace (w : World E) (a b c : Block) (prev next : Entry) :
  id b <> id c ->
  canRedo (self w) = true ->
  entry_at (self w) (position (self w) + 1) = Some next -> state next = [a; c] ->
  entry_at (self w) (position (self w)) = Some prev ->
  state prev = [a; b; c] ->
  exists w2 c2 evs2,
    redo w = Some (w2, c2) /\ emitted w w2 evs2
    /\ structural evs2 = [BlocksDelete 1].
Proof.
  intros Hne Hcan Hnext Hnst Hprev Hpst.
  unfold redo. mstep. rewrite Hcan. do 3 mstep.
  change (entry_at (set_shouldSaveHistory false
                      (set_position (position (self w) + 1) (self w)))
                   (position (set_shouldSaveHistory false
                      (set_position (position (self w) + 1) (self w)))))
    with (entry_at (self w) (position (self w) + 1)).
  rewrite Hnext. mstep.
  change (entry_at (set_shouldSaveHistory false
                      (set_position (position (self w) + 1) (self w)))
                   (position (set_shouldSaveHistory false
                      (set_position (position (self w) + 1) (self w))) - 1))
    with (entry_at (self w) (position (self w) + 1 - 1)).
  replace (position (self w) + 1 - 1) with (position (self w)) by lia.
  rewrite Hprev. mstep. rewrite Hnst, Hpst.
  change (blockWasDeleted [a; b; c] [a; c]) with true. cbv iota.
  rewrite (deleted_index_removed a b c Hne).
  change (negb (1 =? -1)) with true. cbv iota.
  rewrite !bind_assoc. do 3 mstep.
  lazymatch goal with
  | |- exists w2 c2 evs2, ?m ?w0 = Some (w2, c2) /\ _ =>
      assert (Hq : replays quiet m) by (repeat replays_quiet_step);
      destruct (quiet_tail m w0 Hq) as (w2 & c2 & evs & Heq & He & Hs)
  end.
  eexists w2, c2, (_ :: _ :: _ :: evs). split; [exact Heq|].
  unfold emitted in *. rewrite He. cbn [trace]. split.
  - rewrite <- !app_assoc. reflexivity.
  - change (?x :: ?y :: ?z :: evs) with ([x; y; z] ++ evs).
    rewrite structural_app, Hs. reflexivity.
Qed.

Lemma entry_state_preserved (u u' : Undo) (i : Z) (ent : Entry) :
  stack u' = stack u ->
  (forall r, option_map state (heap u' !! r) = option_map state (heap u !! r)) ->
  entry_at u i = Some ent ->
  exists ent', entry_at u' i = Some ent' /\ state ent' = state ent.
Proof.
  intros Hs Hh Hent. unfold entry_at in *. rewrite Hs.
  destruct (at_index (stack u) i) as [r|]; [|discriminate].
  specialize (Hh r). rewrite Hent in Hh.
  destruct (heap u' !! r) as [ent'|]; simpl in Hh; [|discriminate].
  exists ent'. split; [reflexivity|congruence].
Qed.

(** C9.  Let the entry at the current position hold [[a; c]] and the one
    before it [[a; b; c]], the identifier of [b] differing from that of
    [c].  Then [undo()] issues exactly one structural call, the insertion
    of a block with the type and data of [b] at index [1]; and the
    [redo()] that follows, in whatever state the editor is, issues exactly
    one structural call, the deletion of the block at index [1]. *)
Theorem deletion_round_trip (w : World E) (a b c : Block) (prev next : Entry) :
  id b <> id c ->
  canUndo (self w) = true ->
  entry_at (self w) (position (self w)) = Some next -> state next = [a; c] ->
  entry_at (self w) (position (self w) - 1) = Some prev ->
  state prev = [a; b; c] ->
  exists w1 c1 evs1,
    undo w = Some (w1, c1) /\ emitted w w1 evs1
    /\ structural evs1 = [BlocksInsert (type b) (data b) 1 true]
    /\ forall e : E, exists w2 c2 evs2,
         redo (install e w1) = Some (w2, c2) /\ emitted (install e w1) w2 evs2
         /\ structural evs2 = [BlocksDelete 1].
Proof.
  intros Hne Hcan Hnext Hnst Hprev Hpst.
  destruct (undo_deletion_trace w a b c prev next Hne Hcan Hnext Hnst Hprev Hpst)
    as (w1 & c1 & evs1 & Hundo & He1 & Hs1).
  exists w1, c1, evs1. split_and!; auto.
  destruct (undo_proceeds w next Hcan Hnext) as (w1' & c1' & Heq & Hrel).
  rewrite Hundo in Heq. inversion Heq; subst w1' c1'; clear Heq.
  destruct Hrel as (Hstk & Hpos & _ & _ & Hro & _ & _ & _ & Hst & _).
  cbn [self stack position readOnly undo_begin set_shouldSaveHistory set_position]
    in Hstk, Hpos, Hro, Hst.
  destruct (canUndo_true _ Hcan) as (Hro0 & Hpos0).
  destruct (entry_state_preserved (self w) (self w1) _ next Hstk Hst Hnext)
    as (next' & Hnext' & Hnst').
  destruct (entry_state_preserved (self w) (self w1) _ prev Hstk Hst Hprev)
    as (prev' & Hprev' & Hpst').
  intros e.
  apply (redo_deletion_trace (install e w1) a b c prev' next' Hne); cbn [install self].
  - unfold canRedo, count. rewrite Hro, Hro0, Hstk, Hpos. cbn [negb andb].
    apply Z.ltb_lt.
    unfold entry_at in Hnext.
    destruct (at_index (stack (self w)) (position (self w))) as [r|] eqn:Hr;
      [|discriminate].
    apply at_index_Some_range in Hr. lia.
  - rewrite Hpos. replace (position (self w) - 1 + 1) with (position (self w)) by lia.
    exact Hnext'.
  - congruence.
  - rewrite Hpos. exact Hprev'.
  - congruence.
Qed.

End Claims.

(** * Further properties of the class *)

(** ** [truncate], the constructor, [clear] and the wrappers *)

(** X1.  [truncate(stack, limit)] with a limit that is not negative ends
    and keeps the newest [limit] entries, all of them when there are
    fewer; with a negative limit its loop never ends, whatever the number
    of rounds allowed. *)
Theorem truncate_keeps_newest (stk : list nat) (limit : Z) :
  (0 <= limit ->
   truncate stk limit = Some (lastn (Z.to_nat limit) stk)
   /\ len (lastn (Z.to_nat limit) stk) = Z.min limit (len stk))
  /\ (limit < 0 -> forall fuel, truncate_loop fuel stk limit = None).
Proof.
  split.
  - intros Hlimit. split; [apply truncate_nonneg; exact Hlimit|].
    unfold lastn, len. rewrite length_drop. lia.
  - intros Hlimit fuel. apply truncate_loop_negative. exact Hlimit.
Qed.

Section Further.

Context {E : Type} `{Editor E}.

(** X2.  A fresh instance holds one entry, the default empty block, at
    position 0: [count()] is 0 and [canUndo()] and [canRedo()] are false.
    [maxLength] is the option given, and 30 when the option is absent or
    0; [onUpdate] was called once. *)
Theorem fresh_history (e : E) (ro : bool) (db : string) (ml : option Z) :
  exists w,
    constructor e ro db ml = Some (w, Normal tt)
    /\ count (self w) = 0
    /\ canUndo (self w) = false /\ canRedo (self w) = false
    /\ current_snapshot (self w) = Some [mkBlock None db []]
    /\ maxLength (self w)
       = match ml with
         | Some n => if n =? 0 then 30 else n
         | None => 30
         end
    /\ maxLength (self w) <> 0
    /\ List.map call (trace w) = [OnUpdate].
Proof.
  unfold constructor. rewrite clear_spec. eexists. split; [reflexivity|].
  simpl. unfold canUndo, canRedo, count, len. simpl.
  split_and!; try reflexivity.
  - apply andb_false_r.
  - apply andb_false_r.
  - unfold maxLength_option. destruct ml as [n|]; [|discriminate].
    destruct (Z.eqb_spec n 0); [discriminate|assumption].
Qed.

(** X3.  With a negative [maxLength] the first [save] of a session never
    returns: the position is not below [maxLength], and the loop of
    [truncate] cannot end. *)
Theorem negative_maxLength_never_returns (e : E) (ro : bool) (db : string)
    (n : Z) (e' : E) (s : Snapshot) (rest : list (E * Op)) :
  n < 0 ->
  session e ro db (Some n) ((e', OpSave s) :: rest) = None.
Proof.
  intros Hn. unfold session.
  destruct (constructor_spec e ro db (Some n))
    as (w & Heq & _ & _ & Hpos & _ & Hmax & _).
  rewrite Heq. simpl. rewrite save_diverges; [reflexivity| |].
  - simpl. rewrite Hmax. unfold maxLength_option.
    destruct (Z.eqb_spec n 0); lia.
  - simpl. lia.
Qed.

(** X4.  [clear()] always returns and leaves exactly one entry at
    position 0, so that [count()] is 0 and nothing can be undone or
    redone: the entry is the initial item when [initialize] has set one,
    and a new default empty block otherwise.  It calls [onUpdate] once and
    nothing else. *)
Theorem clear_resets (w : World E) :
  exists w',
    clear w = Some (w', Normal tt)
    /\ length (stack (self w')) = 1%nat /\ position (self w') = 0
    /\ count (self w') = 0
    /\ canUndo (self w') = false /\ canRedo (self w') = false
    /\ current_snapshot (self w')
       = match initialItem (self w) with
         | Some r => option_map state (heap (self w) !! r)
         | None => Some [mkBlock None (defaultBlock (self w)) []]
         end
    /\ initialItem (self w') = initialItem (self w)
    /\ emitted w w' [mkEvent (shouldSaveHistory (self w)) OnUpdate].
Proof.
  rewrite clear_spec. eexists. split; [reflexivity|]. simpl.
  unfold cleared, canUndo, canRedo, count, current_snapshot, entry_at, emitted.
  destruct (initialItem (self w)) as [r|] eqn:Hinit; simpl;
    split_and!; try reflexivity; try apply andb_false_r; try exact Hinit.
  change ([length (heap (self w))] !! 0%nat) with (Some (length (heap (self w)))).
  cbv beta iota. rewrite lookup_app_r by lia. rewrite Nat.sub_diag. reflexivity.
Qed.

(** X5.  The public wrappers do to the instance and to the editor what
    [undo()] and [redo()] do, and they never raise an exception: when the
    replay raises one, the wrapper still completes normally. *)
Theorem perform_wrappers (w : World E) :
  (exists w' c, undo w = Some (w', c) /\ performUndo w = Some (w', Normal tt))
  /\ (exists w' c, redo w = Some (w', c) /\ performRedo w = Some (w', Normal tt)).
Proof.
  unfold performUndo, performRedo, detached. rewrite !bind_this. split.
  - destruct (canUndo (self w)) eqn:Hcan.
    + destruct (entry_at (self w) (position (self w))) as [next|] eqn:Hnext.
      * destruct (undo_proceeds w next Hcan Hnext) as (w' & c & Heq & _).
        exists w', c. rewrite Heq. split; reflexivity.
      * exists w, (Abrupt TypeError).
        rewrite (undo_throws w Hcan Hnext). split; reflexivity.
    + exists w, (Normal tt). split; [apply undo_idle; exact Hcan|reflexivity].
  - destruct (canRedo (self w)) eqn:Hcan.
    + destruct (redo_proceeds w Hcan) as (w' & c & Heq & _).
      exists w', c. rewrite Heq. split; reflexivity.
    + exists w, (Normal tt). split; [apply redo_idle; exact Hcan|reflexivity].
Qed.

End Further.

(** ** The change classifier *)

Lemma opt_string_eqb_eq (a b : option string) :
  opt_string_eqb a b = true -> a = b.
Proof.
  destruct a as [x|], b as [y|]; simpl; intros Heq; try discriminate; [|reflexivity].
  apply String.eqb_eq in Heq. congruence.
Qed.

Lemma at_index_middle {A : Type} (pre post : list A) (x : A) :
  at_index (pre ++ x :: post) (len pre) = Some x.
Proof.
  unfold at_index, len. destruct (Z.ltb_spec (Z.of_nat (length pre)) 0); [lia|].
  rewrite Nat2Z.id, lookup_app_r by lia. rewrite Nat.sub_diag. reflexivity.
Qed.

Lemma at_index_app_l {A : Type} (pre post : list A) (i : Z) :
  i < len pre -> at_index (pre ++ post) i = at_index pre i.
Proof.
  intros Hi. unfold at_index, len in *.
  destruct (Z.ltb_spec i 0); [reflexivity|].
  apply lookup_app_l. lia.
Qed.

Lemma at_index_end {A : Type} (l : list A) : at_index l (len l) = None.
Proof. apply at_index_out_of_range. lia. Qed.

Lemma len_cons {A : Type} (x : A) (l : list A) : len (x :: l) = len l + 1.
Proof. unfold len. simpl length. lia. Qed.

Lemma len_snoc {A : Type} (l : list A) (x : A) : len (l ++ [x]) = len l + 1.
Proof. rewrite len_app. reflexivity. Qed.

(** The loop of [blockWasDropped] from the index of the end of [pre]. *)
Lemma some_from_identifiers (pre st comp : Snapshot) :
  length st = length comp ->
  exists b,
    some_from (fun block i =>
                 match at_index (pre ++ comp) i with
                 | Some c => Some (negb (opt_string_eqb (id block) (id c)))
                 | None => None
                 end) st (len pre) = Some b
    /\ (b = true <-> identifiers st <> identifiers comp).
Proof.
  revert pre comp. induction st as [|x st IH]; intros pre [|y comp] Hlen;
    simpl in Hlen; try discriminate.
  - exists false. split; [reflexivity|]. split; [discriminate|].
    intros Hne. contradiction Hne. reflexivity.
  - injection Hlen as Hlen. cbn [some_from]. rewrite at_index_middle.
    destruct (opt_string_eqb (id x) (id y)) eqn:Hxy; cbn [negb].
    + apply opt_string_eqb_eq in Hxy.
      destruct (IH (pre ++ [y]) comp Hlen) as (b & Hb & Hiff).
      rewrite <- app_assoc, len_snoc in Hb. simpl app in Hb.
      exists b. split; [exact Hb|].
      rewrite Hiff. unfold identifiers. simpl. rewrite Hxy.
      split; intros Hne Heq; apply Hne; congruence.
    + exists true. split; [reflexivity|]. split; [|reflexivity].
      intros _ Heq. unfold identifiers in Heq. simpl in Heq.
      injection Heq as Heq _. rewrite Heq, opt_string_eqb_refl in Hxy. discriminate.
Qed.

Lemma blockWasDropped_same_length (st comp : Snapshot) :
  length st = length comp ->
  exists b, blockWasDropped st comp = Some b
    /\ (b = true <-> identifiers st <> identifiers comp).
Proof.
  intros Hl. unfold blockWasDropped.
  destruct (Z.eqb_spec (len st) (len comp)) as [_|Hlen]; [|unfold len in Hlen; lia].
  apply (some_from_identifiers [] st comp Hl).
Qed.

Lemma blockWasDropped_other_length (st comp : Snapshot) :
  length st <> length comp -> blockWasDropped st comp = Some false.
Proof.
  intros Hl. unfold blockWasDropped.
  destruct (Z.eqb_spec (len st) (len comp)) as [Hlen|_]; [unfold len in Hlen; lia|].
  reflexivity.
Qed.

(** X6.  [blockWasDropped] never raises an exception, and it is true
    exactly when the two snapshots have as many blocks and their
    identifiers differ at some index. *)
Theorem blockWasDropped_spec (st comp : Snapshot) :
  exists b,
    blockWasDropped st comp = Some b
    /\ (b = true <->
        length st = length comp /\ identifiers st <> identifiers comp).
Proof.
  destruct (Nat.eq_dec (length st) (length comp)) as [Hl|Hl].
  - destruct (blockWasDropped_same_length st comp Hl) as (b & Hb & Hiff).
    exists b. split; [exact Hb|]. rewrite Hiff. tauto.
  - exists false. split; [apply blockWasDropped_other_length; exact Hl|].
    split; [discriminate|]. intros (Hl' & _). contradiction.
Qed.

(** X7.  The three structural predicates exclude one another as the
    executors need: a skip is a deletion one way or the other and is the
    same both ways; a deletion is never a drop, nor a deletion the other
    way round; a skip is never a drop; and without a skip the drop is the
    same both ways. *)
Theorem classifier_exclusive (st comp : Snapshot) :
  blockWasSkipped st comp = blockWasDeleted st comp || blockWasDeleted comp st
  /\ blockWasSkipped st comp = blockWasSkipped comp st
  /\ (if blockWasDeleted st comp
      then blockWasDropped st comp = Some false
           /\ blockWasDeleted comp st = false
      else True)
  /\ (if blockWasSkipped st comp
      then blockWasDropped st comp = Some false
      else exists b, blockWasDropped st comp = Some b
                     /\ blockWasDropped comp st = Some b).
Proof.
  unfold blockWasSkipped, blockWasDeleted.
  destruct (Z.eqb_spec (len st) (len comp)) as [Hlen|Hlen];
    destruct (Z.gtb_spec (len st) (len comp)) as [Hgt|Hle];
    destruct (Z.gtb_spec (len comp) (len st)) as [Hgt'|Hle'];
    destruct (Z.eqb_spec (len comp) (len st)) as [Hlen'|Hlen'];
    try lia; cbn [negb orb]; split_and!; try reflexivity; try exact I;
    try (apply blockWasDropped_other_length; unfold len in *; lia).
  assert (Hl : length st = length comp) by (unfold len in *; lia).
  destruct (blockWasDropped_same_length st comp Hl) as (b & Hb & Hiff).
  destruct (blockWasDropped_same_length comp st (eq_sym Hl)) as (b' & Hb' & Hiff').
  exists b. split; [exact Hb|]. rewrite Hb'. f_equal.
  destruct b, b'; try reflexivity.
  - assert (Hne : identifiers st <> identifiers comp) by (apply Hiff; reflexivity).
    assert (Habs : false = true) by (apply Hiff'; congruence). discriminate.
  - assert (Hne : identifiers comp <> identifiers st) by (apply Hiff'; reflexivity).
    assert (Habs : false = true) by (apply Hiff; congruence). discriminate.
Qed.

(** ** [parseKeys] *)

Lemma specialKeys_shift (mac : bool) (key : string) :
  match specialKeys mac key with
  | KString s => String.eqb "shiftKey" s
  | _ => false
  end = String.eqb key "SHIFT".
Proof.
  unfold specialKeys.
  destruct (String.eqb_spec key "CMD") as [->|_]; [destruct mac; reflexivity|].
  destruct (String.eqb_spec key "ALT") as [->|_]; [reflexivity|].
  destruct (String.eqb_spec key "SHIFT") as [->|_]; [reflexivity|].
  destruct (inherited key); reflexivity.
Qed.

Lemma inherited_spec (key : string) :
  inherited key = true <-> List.In key object_prototype_names.
Proof.
  unfold inherited. rewrite existsb_exists. split.
  - intros (name & Hin & Heq). apply String.eqb_eq in Heq. subst. exact Hin.
  - intros Hin. exists key. split; [exact Hin|apply String.eqb_refl].
Qed.

(** The table of [specialKeys], case by case. *)
Lemma specialKeys_table (mac : bool) (key : string) :
  (key = "CMD" ->
   specialKeys mac key = KString (if mac then "metaKey" else "ctrlKey"))
  /\ (key = "ALT" -> specialKeys mac key = KString "altKey")
  /\ (key = "SHIFT" -> specialKeys mac key = KString "shiftKey")
  /\ (key <> "CMD" -> key <> "ALT" -> key <> "SHIFT" ->
      (List.In key object_prototype_names -> specialKeys mac key = KInherited key)
      /\ (~ List.In key object_prototype_names -> specialKeys mac key = KUndefined)).
Proof.
  unfold specialKeys. split_and!.
  - intros ->. reflexivity.
  - intros ->. reflexivity.
  - intros ->. reflexivity.
  - intros Hcmd Halt Hshift.
    destruct (String.eqb_spec key "CMD") as [|_]; [contradiction|].
    destruct (String.eqb_spec key "ALT") as [|_]; [contradiction|].
    destruct (String.eqb_spec key "SHIFT") as [|_]; [contradiction|].
    destruct (inherited key) eqn:Hinh.
    + split; [reflexivity|]. intros Hnot. apply inherited_spec in Hinh. contradiction.
    + split; [|reflexivity]. intros Hin. apply inherited_spec in Hin. congruence.
Qed.

(** X8.  [parseKeys] raises a [TypeError] on an empty array.  On the keys
    [init] followed by the key [k] it returns as many entries.  First,
    for each key of [init], what the table holds: for [CMD] the string
    [metaKey] on a Mac and [ctrlKey] elsewhere, for [ALT] the string
    [altKey], for [SHIFT] the string [shiftKey]; for any other key that
    names a property of [Object.prototype] ([constructor], [toString],
    [__proto__], ...) the member inherited, which is no string; and
    [undefined] for every key left.  Then [k], in upper case exactly when
    [init] is the single key [SHIFT] and in lower case otherwise. *)
Theorem parseKeys_spec (toUpperCase toLowerCase : string -> string) (mac : bool) :
  parseKeys toUpperCase toLowerCase mac [] = None
  /\ forall (init : list string) (k : string),
       exists modifiers : list KeyValue,
         parseKeys toUpperCase toLowerCase mac (init ++ [k])
         = Some (modifiers
                 ++ [KString (if match init with
                                 | [m] => String.eqb m "SHIFT"
                                 | _ => false
                                 end
                              then toUpperCase k else toLowerCase k)])
         /\ Forall2
              (fun key v =>
                 (key = "CMD" ->
                  v = KString (if mac then "metaKey" else "ctrlKey"))
                 /\ (key = "ALT" -> v = KString "altKey")
                 /\ (key = "SHIFT" -> v = KString "shiftKey")
                 /\ (key <> "CMD" -> key <> "ALT" -> key <> "SHIFT" ->
                     (List.In key
                        ["constructor"; "hasOwnProperty"; "isPrototypeOf";
                         "propertyIsEnumerable"; "toLocaleString"; "toString";
                         "valueOf"; "__proto__"; "__defineGetter__";
                         "__defineSetter__"; "__lookupGetter__";
                         "__lookupSetter__"] -> v = KInherited key)
                     /\ (~ List.In key
                            ["constructor"; "hasOwnProperty"; "isPrototypeOf";
                             "propertyIsEnumerable"; "toLocaleString"; "toString";
                             "valueOf"; "__proto__"; "__defineGetter__";
                             "__defineSetter__"; "__lookupGetter__";
                             "__lookupSetter__"] -> v = KUndefined)))
              init modifiers.
Proof.
  split; [reflexivity|]. intros init k.
  exists (List.map (specialKeys mac) init). split.
  - unfold parseKeys.
    assert (Hslice : slice0 (init ++ [k]) (-1) = init).
    { unfold slice0. cbn [Z.ltb Z.compare]. rewrite len_snoc.
      replace (Z.max (len init + 1 + -1) 0) with (len init)
        by (pose proof (len_nonneg init); lia).
      unfold len. rewrite Nat2Z.id. apply take_app_length. }
    rewrite Hslice, len_snoc.
    replace (len init + 1 - 1) with (len init) by lia.
    rewrite at_index_middle.
    assert (Hshift : includes "shiftKey" (List.map (specialKeys mac) init)
                     && (len init + 1 =? 2)
                     = match init with
                       | [m] => String.eqb m "SHIFT"
                       | _ => false
                       end).
    { destruct init as [|m [|m' init]]; cbn [List.map includes existsb].
      - reflexivity.
      - rewrite specialKeys_shift, orb_false_r. apply andb_true_r.
      - replace (len (m :: m' :: init) + 1 =? 2) with false; [apply andb_false_r|].
        symmetry. apply Z.eqb_neq. rewrite !len_cons.
        pose proof (len_nonneg init). lia. }
    rewrite Hshift. reflexivity.
  - induction init as [|key init IH]; cbn [List.map]; constructor; [|exact IH].
    exact (specialKeys_table mac key).
Qed.

(** ** The parts of the executors *)

(** Symbolic steps for goals of the form [keeps m]. *)
Ltac keeps_prim :=
  let w := fresh "w" in
  intros w; eexists _, _; split; [reflexivity|reflexivity].

Section Executors.

Context {E : Type} `{Editor E}.

Lemma keeps_ret {A : Type} (a : A) : keeps (ret a : M E A).
Proof. keeps_prim. Qed.

Lemma keeps_throw {A : Type} : keeps (throw : M E A).
Proof. keeps_prim. Qed.

Lemma keeps_query {A : Type} (q : E -> A) : keeps (query q).
Proof. keeps_prim. Qed.

Lemma keeps_this : keeps (this : M E Undo).
Proof. keeps_prim. Qed.

Lemma keeps_emit (c : Call) : keeps (emit c : M E unit).
Proof. keeps_prim. Qed.

Lemma keeps_defined {A : Type} (o : option A) : keeps (defined o : M E A).
Proof. destruct o; keeps_prim. Qed.

Lemma keeps_bind {A B : Type} (m : M E A) (k : A -> M E B) :
  keeps m -> (forall a, keeps (k a)) -> keeps (bind m k).
Proof.
  intros Hm Hk w. destruct (Hm w) as (w1 & c1 & Heq1 & Hself1).
  unfold wp, bind. rewrite Heq1. destruct c1 as [a|ex].
  - destruct (Hk a w1) as (w2 & c2 & Heq2 & Hself2).
    exists w2, c2. split; [exact Heq2|congruence].
  - exists w1, (Abrupt ex). split; [reflexivity|exact Hself1].
Qed.

End Executors.

Ltac keeps_step :=
  lazymatch goal with
  | |- keeps (bind _ _) => apply keeps_bind; [|intros ?]
  | |- keeps (ret _) => apply keeps_ret
  | |- keeps throw => apply keeps_throw
  | |- keeps this => apply keeps_this
  | |- keeps (query _) => apply keeps_query
  | |- keeps (defined _) => apply keeps_defined
  | |- keeps (emit _) => apply keeps_emit
  | |- keeps (if ?b then _ else _) => destruct b
  | |- keeps (match ?x with _ => _ end) => destruct x
  end.

Section ExecutorParts.

Context {E : Type} `{Editor E}.

Lemma keeps_setCaretIndex (i : Z) (c : option Z) :
  keeps (setCaretIndex i c : M E unit).
Proof. unfold setCaretIndex. repeat keeps_step. Qed.

Lemma keeps_insertDeletedBlock (st comp : Snapshot) (focus : Z) :
  keeps (insertDeletedBlock st comp focus : M E unit).
Proof.
  unfold insertDeletedBlock. generalize 0 as i.
  induction st as [|b st IH]; intros i; simpl.
  - apply keeps_ret.
  - destruct (match at_index comp i with
              | Some c => opt_string_neqb (id b) (id c)
              | None => true
              end); [repeat keeps_step|apply IH].
Qed.

Lemma keeps_insertSkippedBlocks (prevState st : Snapshot) (i : Z) :
  keeps (insertSkippedBlocks prevState st i : M E unit).
Proof.
  unfold insertSkippedBlocks. apply keeps_bind.
  - generalize (len prevState) as k.
    induction (length st - length prevState)%nat as [|n IH]; intros k; simpl.
    + apply keeps_ret.
    + apply keeps_bind; [unfold insertBlock; repeat keeps_step|intros _; apply IH].
  - intros _. destruct (opt_string_neqb _ _); [|apply keeps_ret].
    unfold updateModifiedBlock. repeat keeps_step.
Qed.

Lemma keeps_sync_focused (st : Snapshot) (i : Z) (caret : option Z) :
  keeps (sync_focused st i caret : M E unit).
Proof.
  unfold sync_focused.
  repeat first [apply keeps_setCaretIndex | keeps_step].
Qed.

Lemma keeps_undo_branch (st nextState : Snapshot) (i nextIndex blockCount : Z)
    (caret : option Z) :
  keeps (undo_branch st nextState i nextIndex blockCount caret : M E unit).
Proof.
  unfold undo_branch.
  repeat first [apply keeps_setCaretIndex | apply keeps_insertDeletedBlock
               | keeps_step].
Qed.

Lemma keeps_redo_branch (prevState st : Snapshot) (i p : Z) :
  keeps (redo_branch prevState st i p : M E unit).
Proof.
  unfold redo_branch. cbv zeta.
  repeat first [apply keeps_insertSkippedBlocks | keeps_step].
Qed.

Lemma replays_sync_focused (st : Snapshot) (i : Z) (caret : option Z) :
  replays quiet (sync_focused st i caret : M E unit).
Proof. unfold sync_focused. repeat replays_quiet_step. Qed.

(** [undo], once it proceeds: the position and the flag are written,
    [onUpdate] is called, the index is corrected, and the chain of
    branches and the final update of the block in focus run. *)
Lemma undo_unfold (w : World E) (next target : Entry) (r : nat) :
  canUndo (self w) = true ->
  entry_at (self w) (position (self w)) = Some next ->
  at_index (stack (self w)) (position (self w) - 1) = Some r ->
  heap (self w) !! r = Some target ->
  undo w
  = bind (undo_branch (state target) (state next) (undo_index target) (index next)
                      (getBlocksCount (perform OnUpdate (editor w)))
                      (caretIndex target))
         (fun _ => sync_focused (state target) (undo_index target) (caretIndex target))
         (mkWorld (undo_written (self w) r target) (perform OnUpdate (editor w))
                  (trace w ++ [mkEvent false OnUpdate])).
Proof.
  intros Hcan Hnext Hr Hh.
  assert (Htarget : entry_at (self w) (position (self w) - 1) = Some target)
    by (unfold entry_at; rewrite Hr; exact Hh).
  unfold undo. mstep. rewrite Hcan, Hnext. do 4 mstep.
  change (entry_at (set_shouldSaveHistory false
                      (set_position (position (self w) - 1) (self w)))
                   (position (set_shouldSaveHistory false
                      (set_position (position (self w) - 1) (self w)))))
    with (entry_at (self w) (position (self w) - 1)).
  rewrite Htarget. do 3 mstep.
  unfold undo_index, undo_written.
  destruct (at_index (state target) (index target)) as [focused|].
  - mstep. reflexivity.
  - rewrite bind_assoc. unfold write_index. rewrite !bind_assoc. mstep.
    cbn [stack position heap set_shouldSaveHistory set_position].
    rewrite Hr, !bind_assoc. mstep. rewrite Hh, !bind_assoc. do 3 mstep.
    reflexivity.
Qed.

(** [redo], once it proceeds. *)
Lemma redo_unfold (w : World E) (prev target : Entry) :
  canRedo (self w) = true ->
  entry_at (self w) (position (self w) + 1) = Some target ->
  entry_at (self w) (position (self w)) = Some prev ->
  redo w
  = bind (redo_branch (state prev) (state target) (index target)
                      (position (self w) + 1))
         (fun _ => bind (emit OnUpdate)
                        (fun _ => sync_focused (state target) (index target)
                                               (caretIndex target)))
         (mkWorld (redo_begin (self w)) (editor w) (trace w)).
Proof.
  intros Hcan Htarget Hprev.
  unfold redo. mstep. rewrite Hcan. do 3 mstep.
  change (entry_at (set_shouldSaveHistory false
                      (set_position (position (self w) + 1) (self w)))
                   (position (set_shouldSaveHistory false
                      (set_position (position (self w) + 1) (self w)))))
    with (entry_at (self w) (position (self w) + 1)).
  rewrite Htarget. mstep.
  change (entry_at (set_shouldSaveHistory false
                      (set_position (position (self w) + 1) (self w)))
                   (position (set_shouldSaveHistory false
                      (set_position (position (self w) + 1) (self w))) - 1))
    with (entry_at (self w) (position (self w) + 1 - 1)).
  replace (position (self w) + 1 - 1) with (position (self w)) by lia.
  rewrite Hprev. mstep. reflexivity.
Qed.

Lemma entry_at_ref (u : Undo) (i : Z) (ent : Entry) :
  entry_at u i = Some ent ->
  exists r, at_index (stack u) i = Some r /\ heap u !! r = Some ent.
Proof.
  unfold entry_at. destruct (at_index (stack u) i) as [r|]; [|discriminate].
  intros Hent. exists r. split; [reflexivity|exact Hent].
Qed.

End ExecutorParts.

(** ** What [undo] and [redo] write, and the calls they issue *)

Section Replay.

Context {E : Type} `{Editor E}.

Lemma undo_self (w w' : World E) (c : Completion unit) (next target : Entry)
    (r : nat) :
  canUndo (self w) = true ->
  entry_at (self w) (position (self w)) = Some next ->
  at_index (stack (self w)) (position (self w) - 1) = Some r ->
  heap (self w) !! r = Some target ->
  undo w = Some (w', c) ->
  self w' = undo_written (self w) r target.
Proof.
  intros Hcan Hnext Hr Hh Hundo.
  rewrite (undo_unfold w next target r Hcan Hnext Hr Hh) in Hundo.
  lazymatch type of Hundo with
  | ?m ?w1 = _ =>
      assert (Hk : keeps m)
        by (apply keeps_bind;
            [apply keeps_undo_branch|intros _; apply keeps_sync_focused]);
      destruct (Hk w1) as (w2 & c2 & Heq & Hself)
  end.
  rewrite Hundo in Heq. inversion Heq; subst w2 c2. exact Hself.
Qed.

(** X9.  An [undo()] that proceeds writes three things and nothing else:
    the position, one lower; the flag [shouldSaveHistory], false; and,
    when the snapshot it enters has no block at the index recorded with
    it, that index, one lower, in the entry.  The stack, the other
    entries, [maxLength], the read-only flag and the initial item are as
    they were. *)
Theorem undo_writes (w : World E) :
  good (self w) -> canUndo (self w) = true ->
  exists w' c r target,
    undo w = Some (w', c)
    /\ at_index (stack (self w)) (position (self w) - 1) = Some r
    /\ heap (self w) !! r = Some target
    /\ self w'
       = match at_index (state target) (index target) with
         | Some _ =>
             set_shouldSaveHistory false
               (set_position (position (self w) - 1) (self w))
         | None =>
             set_heap (<[r := mkEntry (index target - 1) (state target)
                                      (caretIndex target)]> (heap (self w)))
               (set_shouldSaveHistory false
                  (set_position (position (self w) - 1) (self w)))
         end.
Proof.
  intros Hgood Hcan.
  destruct (good_current _ Hgood) as (next & Hnext).
  destruct (canUndo_true _ Hcan) as (_ & Hpos).
  pose proof Hgood as (_ & (_ & Hrange) & _ & Hrefs).
  destruct (good_entry_at (self w) (position (self w) - 1) Hrefs) as (target & Ht);
    [lia|].
  destruct (entry_at_ref _ _ _ Ht) as (r & Hr & Hh).
  destruct (undo_preserved w (proj1 (proj2 Hgood))) as (w' & c & Hundo & _).
  exists w', c, r, target. split_and!; auto.
  exact (undo_self w w' c next target r Hcan Hnext Hr Hh Hundo).
Qed.

(** X10.  A [redo()] that proceeds writes the position, one higher, and
    the flag [shouldSaveHistory], false, and nothing else, whether its
    replay succeeds or raises an exception. *)
Theorem redo_writes (w : World E) :
  canRedo (self w) = true ->
  exists w' c,
    redo w = Some (w', c)
    /\ self w'
       = set_shouldSaveHistory false
           (set_position (position (self w) + 1) (self w)).
Proof.
  intros Hcan. unfold redo. rewrite bind_this, Hcan, !bind_update. cbv beta.
  lazymatch goal with
  | |- exists w' c, ?m ?w1 = Some (w', c) /\ _ =>
      assert (Hk : keeps m)
        by (repeat first [apply keeps_insertSkippedBlocks
                         | apply keeps_setCaretIndex | keeps_step]);
      destruct (Hk w1) as (w' & c & Heq & Hself)
  end.
  exists w', c. split; [exact Heq|exact Hself].
Qed.

(** *** Structural calls *)

Lemma issues_quiet {A : Type} (m : M E A) (w : World E) :
  replays quiet m -> issues m w [].
Proof. intros Hm. exact (quiet_tail m w Hm). Qed.

Lemma issues_emit_bind {B : Type} (c : Call) (K : unit -> M E B) (w : World E)
    (cs : list Call) :
  issues (K tt)
         (mkWorld (self w) (perform c (editor w))
                  (trace w ++ [mkEvent (shouldSaveHistory (self w)) c])) cs ->
  issues (bind (emit c) K) w (List.filter is_structural [c] ++ cs).
Proof.
  intros (w' & r & evs & Heq & He & Hs).
  exists w', r, (mkEvent (shouldSaveHistory (self w)) c :: evs).
  rewrite bind_emit. split; [exact Heq|]. unfold emitted in *. split.
  - rewrite He. cbn [trace]. rewrite <- app_assoc. reflexivity.
  - change (?x :: evs) with ([x] ++ evs). rewrite structural_app, Hs. reflexivity.
Qed.

Lemma issues_assoc {A B C : Type} (m : M E A) (k : A -> M E B) (h : B -> M E C)
    (w : World E) (cs : list Call) :
  issues (bind m (fun a => bind (k a) h)) w cs -> issues (bind (bind m k) h) w cs.
Proof. unfold issues. rewrite bind_assoc. auto. Qed.

Lemma issues_two_then_quiet (c1 c2 : Call) (K : unit -> M E unit) (w : World E) :
  replays quiet (K tt) ->
  issues (bind (bind (emit c1) (fun _ => emit c2)) K) w
         (List.filter is_structural [c1; c2]).
Proof.
  intros HK.
  assert (Hcs : List.filter is_structural [c1; c2]
                = List.filter is_structural [c1]
                  ++ List.filter is_structural [c2] ++ [])
    by (simpl; destruct (is_structural c1), (is_structural c2); reflexivity).
  rewrite Hcs. apply issues_assoc. apply issues_emit_bind. cbv beta.
  apply issues_emit_bind. apply issues_quiet. exact HK.
Qed.

Lemma issues_undo (w : World E) (next target : Entry) (r : nat) (cs : list Call) :
  canUndo (self w) = true ->
  entry_at (self w) (position (self w)) = Some next ->
  at_index (stack (self w)) (position (self w) - 1) = Some r ->
  heap (self w) !! r = Some target ->
  (forall w1,
     issues (bind (undo_branch (state target) (state next) (undo_index target)
                               (index next)
                               (getBlocksCount (perform OnUpdate (editor w)))
                               (caretIndex target))
                  (fun _ => sync_focused (state target) (undo_index target)
                                         (caretIndex target))) w1 cs) ->
  issues undo w cs.
Proof.
  intros Hcan Hnext Hr Hh Hbranch. unfold issues.
  rewrite (undo_unfold w next target r Hcan Hnext Hr Hh).
  lazymatch goal with
  | |- exists w' r evs, _ ?w1 = _ /\ _ =>
      destruct (Hbranch w1) as (w' & res & evs & Heq & He & Hs)
  end.
  exists w', res, (mkEvent false OnUpdate :: evs). split; [exact Heq|].
  unfold emitted in *. cbn [trace] in He. split.
  - rewrite He, <- app_assoc. reflexivity.
  - change (?x :: evs) with ([x] ++ evs). rewrite structural_app, Hs. reflexivity.
Qed.

Lemma issues_redo (w : World E) (prev target : Entry) (cs : list Call) :
  canRedo (self w) = true ->
  entry_at (self w) (position (self w) + 1) = Some target ->
  entry_at (self w) (position (self w)) = Some prev ->
  (forall w1,
     issues (bind (redo_branch (state prev) (state target) (index target)
                               (position (self w) + 1))
                  (fun _ => bind (emit OnUpdate)
                                 (fun _ => sync_focused (state target) (index target)
                                                        (caretIndex target)))) w1 cs) ->
  issues redo w cs.
Proof.
  intros Hcan Htarget Hprev Hbranch. unfold issues.
  rewrite (redo_unfold w prev target Hcan Htarget Hprev).
  lazymatch goal with
  | |- exists w' r evs, _ ?w1 = _ /\ _ =>
      destruct (Hbranch w1) as (w' & res & evs & Heq & He & Hs)
  end.
  exists w', res, evs. split_and!; auto.
Qed.

Lemma replays_redo_end (st : Snapshot) (i : Z) (caret : option Z) :
  replays quiet
    (bind (emit OnUpdate) (fun _ => sync_focused st i caret) : M E unit).
Proof.
  apply replays_bind; [apply replays_emit; reflexivity|].
  intros _. apply replays_sync_focused.
Qed.

End Replay.

(** ** Replays of a deletion, an append and an edit *)

Section Deltas.

Context {E : Type} `{Editor E}.

(** The loop of [insertDeletedBlock] stops at the block the newer
    snapshot lacks. *)
Lemma insertDeletedBlock_from_at (pre l1 l2 : list Block) (b : Block) (focus : Z) :
  match l2 with x :: _ => id b <> id x | [] => True end ->
  insertDeletedBlock_from (l1 ++ b :: l2) (len pre) (pre ++ l1 ++ l2) focus
  = bind (E := E) (emit (BlocksInsert (type b) (data b) (len pre + len l1) true))
         (fun _ => emit (CaretSetToBlock focus)).
Proof.
  revert pre. induction l1 as [|y l1 IH]; intros pre Hnext.
  - cbn [app insertDeletedBlock_from].
    replace (len pre + len (@nil Block)) with (len pre) by (unfold len; simpl; lia).
    destruct l2 as [|x l2].
    + rewrite app_nil_r, at_index_end. reflexivity.
    + rewrite at_index_middle. unfold opt_string_neqb.
      rewrite (opt_string_eqb_neq _ _ Hnext). reflexivity.
  - cbn [app insertDeletedBlock_from]. rewrite at_index_middle.
    unfold opt_string_neqb. rewrite opt_string_eqb_refl. cbn [negb].
    specialize (IH (pre ++ [y]) Hnext).
    rewrite <- app_assoc, len_snoc in IH. cbn [app] in IH. rewrite IH.
    rewrite len_cons.
    replace (len pre + 1 + len l1) with (len pre + (len l1 + 1)) by lia.
    reflexivity.
Qed.

(** The callback of [findIndex] in [redo] first holds at the block the
    newer snapshot lacks. *)
Lemma findIndex_deleted_from (st pre l1 l2 : list Block) (b : Block) :
  st = pre ++ l1 ++ l2 ->
  match l2 with
  | x :: _ => id x <> id b
  | [] => ~ List.In (id b) (identifiers st)
  end ->
  findIndex_from (deleted_here st) (l1 ++ b :: l2) (len pre) = len pre + len l1.
Proof.
  revert pre. induction l1 as [|y l1 IH]; intros pre Hst Hnext.
  - cbn [app findIndex_from].
    replace (len pre + len (@nil Block)) with (len pre) by (unfold len; simpl; lia).
    assert (Hhere : deleted_here st b (len pre) = true).
    { unfold deleted_here. destruct l2 as [|x l2].
      - destruct (existsb (fun sb => opt_string_eqb (id sb) (id b)) st) eqn:Hex;
          [|reflexivity].
        apply existsb_exists in Hex as (x & Hin & Heq).
        apply opt_string_eqb_eq in Heq. contradiction Hnext.
        rewrite <- Heq. unfold identifiers. apply in_map. exact Hin.
      - rewrite Hst. cbn [app]. rewrite at_index_middle.
        unfold opt_string_neqb. rewrite (opt_string_eqb_neq _ _ Hnext).
        apply orb_true_r. }
    rewrite Hhere. reflexivity.
  - cbn [app findIndex_from].
    assert (Hat : at_index st (len pre) = Some y)
      by (rewrite Hst; exact (at_index_middle pre (l1 ++ l2) y)).
    assert (Hex : existsb (fun sb => opt_string_eqb (id sb) (id y)) st = true).
    { apply existsb_exists. exists y. split; [|apply opt_string_eqb_refl].
      rewrite Hst. apply in_or_app. right. left. reflexivity. }
    unfold deleted_here at 1. rewrite Hex, Hat. unfold opt_string_neqb.
    rewrite opt_string_eqb_refl. cbn [negb orb].
    assert (Hst' : st = (pre ++ [y]) ++ l1 ++ l2)
      by (rewrite Hst, <- app_assoc; reflexivity).
    specialize (IH (pre ++ [y]) Hst' Hnext). rewrite len_snoc in IH.
    rewrite IH, len_cons. lia.
Qed.

Lemma distinct_after (l1 l2 : list Block) (b : Block) :
  NoDup (identifiers (l1 ++ b :: l2)) ->
  match l2 with x :: _ => id b <> id x | [] => True end.
Proof.
  intros Hnd. destruct l2 as [|x l2]; [exact I|].
  unfold identifiers in Hnd. rewrite List.map_app in Hnd.
  apply NoDup_app in Hnd as (_ & _ & Hrest). cbn [List.map] in Hrest.
  apply NoDup_cons in Hrest as (Hb & _).
  intros Heq. apply Hb. rewrite Heq. left.
Qed.

Lemma deleted_index_at (l1 l2 : list Block) (b : Block) :
  NoDup (identifiers (l1 ++ b :: l2)) ->
  findIndex_from (deleted_here (l1 ++ l2)) (l1 ++ b :: l2) 0 = len l1.
Proof.
  intros Hnd.
  pose proof (distinct_after l1 l2 b Hnd) as Hafter.
  apply (findIndex_deleted_from (l1 ++ l2) [] l1 l2 b); [reflexivity|].
  destruct l2 as [|x l2]; [|congruence].
  rewrite app_nil_r. unfold identifiers in *. rewrite List.map_app in Hnd.
  apply NoDup_app in Hnd as (_ & Hdisj & _).
  intros Hin. apply list_elem_of_In in Hin. apply (Hdisj _ Hin). left.
Qed.

Lemma blockWasDeleted_removed (l1 l2 : list Block) (b : Block) :
  blockWasDeleted (l1 ++ b :: l2) (l1 ++ l2) = true.
Proof.
  unfold blockWasDeleted. rewrite !len_app, len_cons. apply Z.gtb_lt. lia.
Qed.

Lemma undo_branch_deletion (l1 l2 : list Block) (b : Block) (i nextIndex count : Z)
    (caret : option Z) (K : unit -> M E unit) (w : World E) :
  match l2 with x :: _ => id b <> id x | [] => True end ->
  replays quiet (K tt) ->
  issues (bind (undo_branch (l1 ++ b :: l2) (l1 ++ l2) i nextIndex count caret) K) w
         [BlocksInsert (type b) (data b) (len l1) true].
Proof.
  intros Hafter HK. unfold undo_branch. rewrite blockWasDeleted_removed.
  unfold insertDeletedBlock.
  pose proof (insertDeletedBlock_from_at [] l1 l2 b i Hafter) as Hins.
  cbn [app] in Hins. change (len (@nil Block)) with 0 in Hins.
  rewrite Z.add_0_l in Hins. rewrite Hins.
  exact (issues_two_then_quiet _ _ K w HK).
Qed.

Lemma redo_branch_deletion (l1 l2 : list Block) (b : Block) (i p : Z)
    (K : unit -> M E unit) (w : World E) :
  NoDup (identifiers (l1 ++ b :: l2)) ->
  replays quiet (K tt) ->
  issues (bind (redo_branch (l1 ++ b :: l2) (l1 ++ l2) i p) K) w
         [BlocksDelete (len l1)].
Proof.
  intros Hnd HK. unfold redo_branch. rewrite blockWasDeleted_removed.
  cbv zeta. rewrite (deleted_index_at l1 l2 b Hnd).
  replace (len l1 =? -1) with false
    by (symmetry; apply Z.eqb_neq; pose proof (len_nonneg l1); lia).
  cbn [negb]. exact (issues_two_then_quiet _ _ K w HK).
Qed.

(** The entries of the two positions once an [undo()] has returned. *)
Lemma undo_leaves (w w1 : World E) (c1 : Completion unit) (prev next : Entry) :
  canUndo (self w) = true ->
  entry_at (self w) (position (self w)) = Some next ->
  entry_at (self w) (position (self w) - 1) = Some prev ->
  state prev <> state next ->
  undo w = Some (w1, c1) ->
  forall e : E,
    canRedo (self (install e w1)) = true
    /\ position (self (install e w1)) = position (self w) - 1
    /\ entry_at (self (install e w1)) (position (self w)) = Some next
    /\ entry_at (self (install e w1)) (position (self w) - 1)
       = Some (mkEntry (undo_index prev) (state prev) (caretIndex prev)).
Proof.
  intros Hcan Hnext Hprev Hne Hundo e.
  destruct (entry_at_ref _ _ _ Hprev) as (r & Hr & Hh).
  pose proof (undo_self w w1 c1 next prev r Hcan Hnext Hr Hh Hundo) as Hself.
  destruct (canUndo_true _ Hcan) as (Hro & Hpos).
  destruct (entry_at_ref _ _ _ Hnext) as (r2 & Hr2 & Hh2).
  pose proof (at_index_Some_range _ _ _ Hr2) as Hrange.
  cbn [install self]. rewrite Hself. unfold undo_written, undo_index.
  destruct (at_index (state prev) (index prev)) as [focused|] eqn:Hfocus.
  - split_and!.
    + unfold canRedo, count, undo_begin. cbn. rewrite Hro. cbn [negb andb].
      apply Z.ltb_lt. lia.
    + reflexivity.
    + exact Hnext.
    + unfold entry_at, undo_begin. cbn. rewrite Hr, Hh. destruct prev; reflexivity.
  - assert (Hrr : r <> r2).
    { intros ->. rewrite Hh in Hh2. injection Hh2 as ->. contradiction. }
    split_and!.
    + unfold canRedo, count, undo_begin. cbn. rewrite Hro. cbn [negb andb].
      apply Z.ltb_lt. lia.
    + reflexivity.
    + unfold entry_at, undo_begin. cbn. rewrite Hr2.
      rewrite list_lookup_insert_ne by exact Hrr. exact Hh2.
    + unfold entry_at, undo_begin. cbn. rewrite Hr.
      rewrite list_lookup_insert_eq by (eapply lookup_lt_Some; exact Hh).
      reflexivity.
Qed.

(** X11.  The deletion of a block anywhere in the document is replayed
    one block at a time.  Let the entry at the current position hold
    [l1 ++ l2] and the one before it [l1 ++ b :: l2], the identifiers of
    the latter distinct.  Then [undo()] issues exactly one structural
    call, the insertion of a block with the type and data of [b] at the
    index [b] had; and the [redo()] that follows, in whatever state the
    editor is, issues exactly one, the deletion of the block at that
    index. *)
Theorem deletion_anywhere (w : World E) (l1 l2 : list Block) (b : Block)
    (prev next : Entry) :
  NoDup (identifiers (l1 ++ b :: l2)) ->
  canUndo (self w) = true ->
  entry_at (self w) (position (self w)) = Some next -> state next = l1 ++ l2 ->
  entry_at (self w) (position (self w) - 1) = Some prev ->
  state prev = l1 ++ b :: l2 ->
  exists w1 c1 evs1,
    undo w = Some (w1, c1) /\ emitted w w1 evs1
    /\ structural evs1 = [BlocksInsert (type b) (data b) (len l1) true]
    /\ forall e : E, exists w2 c2 evs2,
         redo (install e w1) = Some (w2, c2) /\ emitted (install e w1) w2 evs2
         /\ structural evs2 = [BlocksDelete (len l1)].
Proof.
  intros Hnd Hcan Hnext Hnst Hprev Hpst.
  destruct (entry_at_ref _ _ _ Hprev) as (r & Hr & Hh).
  assert (Hundo : issues undo w [BlocksInsert (type b) (data b) (len l1) true]).
  { apply (issues_undo w next prev r); auto.
    intros w0. rewrite Hpst, Hnst. apply undo_branch_deletion.
    - exact (distinct_after l1 l2 b Hnd).
    - apply replays_sync_focused. }
  destruct Hundo as (w1 & c1 & evs1 & Hundo & He1 & Hs1).
  exists w1, c1, evs1. split_and!; auto. intros e.
  assert (Hne : state prev <> state next).
  { rewrite Hpst, Hnst. intros Heq. apply (f_equal len) in Heq.
    rewrite !len_app, len_cons in Heq. lia. }
  destruct (undo_leaves w w1 c1 prev next Hcan Hnext Hprev Hne Hundo e)
    as (Hcan1 & Hpos1 & Hnext1 & Hprev1).
  apply (issues_redo (install e w1)
           (mkEntry (undo_index prev) (state prev) (caretIndex prev)) next);
    try rewrite Hpos1; auto.
  - replace (position (self w) - 1 + 1) with (position (self w)) by lia.
    exact Hnext1.
  - intros w0. cbn [state]. rewrite Hpst, Hnst. apply redo_branch_deletion.
    + exact Hnd.
    + apply replays_redo_end.
Qed.

End Deltas.

Section Appends.

Context {E : Type} `{Editor E}.

Lemma completes_ret {A : Type} (a : A) (w : World E) : completes (ret a) w [].
Proof. exists w, a, []. split_and!; try reflexivity. unfold emitted. rewrite app_nil_r. reflexivity. Qed.

Lemma completes_emit (c : Call) (w : World E) :
  completes (emit c) w (List.filter is_structural [c]).
Proof. eexists _, tt, [_]. split_and!; reflexivity. Qed.

Lemma completes_bind {A B : Type} (m : M E A) (k : A -> M E B) (w : World E)
    (cs1 cs2 : list Call) :
  completes m w cs1 -> (forall w' a, completes (k a) w' cs2) ->
  completes (bind m k) w (cs1 ++ cs2).
Proof.
  intros (w1 & a & evs1 & Heq1 & He1 & Hs1 & Hself1) Hk.
  destruct (Hk w1 a) as (w2 & b & evs2 & Heq2 & He2 & Hs2 & Hself2).
  exists w2, b, (evs1 ++ evs2). unfold bind. rewrite Heq1. split_and!.
  - exact Heq2.
  - unfold emitted in *. rewrite He2, He1, <- app_assoc. reflexivity.
  - rewrite structural_app, Hs1, Hs2. reflexivity.
  - congruence.
Qed.

Lemma issues_after {A B : Type} (m : M E A) (k : A -> M E B) (w : World E)
    (cs1 cs2 : list Call) :
  completes m w cs1 -> (forall w' a, issues (k a) w' cs2) ->
  issues (bind m k) w (cs1 ++ cs2).
Proof.
  intros (w1 & a & evs1 & Heq1 & He1 & Hs1 & Hself1) Hk.
  destruct (Hk w1 a) as (w2 & b & evs2 & Heq2 & He2 & Hs2).
  exists w2, b, (evs1 ++ evs2). unfold bind. rewrite Heq1. split_and!.
  - exact Heq2.
  - unfold emitted in *. rewrite He2, He1, <- app_assoc. reflexivity.
  - rewrite structural_app, Hs1, Hs2. reflexivity.
Qed.

(** The loop of [insertSkippedBlocks] inserts the blocks the older
    snapshot lacks, in order. *)
Lemma completes_insertSkippedBlocks_loop (pre added post : list Block)
    (w : World E) :
  completes (insertSkippedBlocks_loop (length added) (len pre) (pre ++ added ++ post))
            w (insertions added (len pre)).
Proof.
  revert pre w. induction added as [|x added IH]; intros pre w.
  - apply completes_ret.
  - cbn [length insertSkippedBlocks_loop insertions].
    change (BlocksInsert (type x) (data x) (len pre) true
            :: insertions added (len pre + 1))
      with ([BlocksInsert (type x) (data x) (len pre) true]
            ++ insertions added (len pre + 1)).
    apply completes_bind.
    + unfold insertBlock. cbn [app]. rewrite at_index_middle.
      exact (completes_emit _ w).
    + intros w' _. pose proof (IH (pre ++ [x]) w') as IH'.
      rewrite <- app_assoc, len_snoc in IH'. exact IH'.
Qed.

Lemma blockWasDeleted_appended (l added : list Block) :
  blockWasDeleted l (l ++ added) = false.
Proof.
  unfold blockWasDeleted. rewrite len_app.
  destruct (Z.gtb_spec (len l) (len l + len added)) as [Hgt|_]; [|reflexivity].
  pose proof (len_nonneg added). lia.
Qed.

Lemma len_positive {A : Type} (l : list A) : l <> [] -> 0 < len l.
Proof. destruct l; [congruence|]. intros _. rewrite len_cons. pose proof (len_nonneg l). lia. Qed.

Lemma opt_string_neqb_refl (a : option string) : opt_string_neqb a a = false.
Proof. unfold opt_string_neqb. rewrite opt_string_eqb_refl. reflexivity. Qed.

Lemma undo_branch_append (l added : list Block) (focused : Block)
    (i j count : Z) (caret : option Z) :
  added <> [] -> at_index l i = Some focused ->
  data focused <> [] \/ i + 1 < len l -> i < j ->
  undo_branch l (l ++ added) i j count caret
  = bind (E := E) (emit (BlocksDelete j)) (fun _ => emit (CaretSetToBlock i)).
Proof.
  intros Hadded Hfocus Hcopy Hij. unfold undo_branch.
  rewrite blockWasDeleted_appended. unfold contentWasCopied. rewrite Hfocus.
  assert (Hfalse : (len (data focused) =? 0)
                   && opt_string_neqb (stringify_opt (at_index (l ++ added) (i + 1)))
                                      (stringify_opt (at_index l (i + 1))) = false).
  { destruct Hcopy as [Hdata|Hin].
    - apply andb_false_intro1. apply Z.eqb_neq.
      pose proof (len_positive _ Hdata). lia.
    - rewrite at_index_app_l by exact Hin. rewrite opt_string_neqb_refl.
      apply andb_false_r. }
  rewrite Hfalse.
  assert (Htrue : (i <? j) && blockWasSkipped l (l ++ added) = true).
  { apply andb_true_intro. split; [apply Z.ltb_lt; exact Hij|].
    unfold blockWasSkipped. apply negb_true_iff, Z.eqb_neq. rewrite len_app.
    pose proof (len_positive _ Hadded). lia. }
  cbn [defined]. rewrite Htrue. reflexivity.
Qed.

Lemma redo_branch_append (l added : list Block) (i p : Z)
    (K : unit -> M E unit) (w : World E) :
  added <> [] -> i <= len l -> replays quiet (K tt) ->
  issues (bind (redo_branch l (l ++ added) i p) K) w (insertions added (len l)).
Proof.
  intros Hadded Hi HK. unfold redo_branch.
  rewrite blockWasDeleted_appended.
  assert (Hskip : blockWasSkipped (l ++ added) l = true).
  { unfold blockWasSkipped. apply negb_true_iff, Z.eqb_neq. rewrite len_app.
    pose proof (len_positive _ Hadded). lia. }
  rewrite Hskip. unfold insertSkippedBlocks.
  rewrite at_index_app_l by lia. rewrite opt_string_neqb_refl.
  rewrite length_app.
  replace (length l + length added - length l)%nat with (length added) by lia.
  rewrite <- (app_nil_r (insertions added (len l))).
  do 2 apply issues_assoc. apply issues_after.
  - pose proof (completes_insertSkippedBlocks_loop l added [] w) as Hloop.
    rewrite app_nil_r in Hloop. exact Hloop.
  - intros w' _. apply issues_quiet.
    apply replays_bind; [apply replays_ret|intros _].
    apply replays_bind; [apply replays_emit; reflexivity|].
    intros []. exact HK.
Qed.

(** X12.  An append is undone one block at a time and redone in full.
    Let the entry at the current position hold [l ++ added], recorded at
    index [j], and the one before it [l], recorded at an index [i] of [l]
    with [i < j <= length l], the block at [i] having data or a block
    after it in [l].  Then [undo()] issues exactly one structural call,
    the deletion of the block at [j], however many blocks were appended;
    and the [redo()] that follows, in whatever state the editor is,
    inserts the blocks of [added], each with its type and data, at the
    indices from [length l] on, and issues no other structural call. *)
Theorem append_round_trip (w : World E) (l added : list Block) (focused : Block)
    (prev next : Entry) :
  added <> [] ->
  canUndo (self w) = true ->
  entry_at (self w) (position (self w)) = Some next ->
  state next = l ++ added ->
  entry_at (self w) (position (self w) - 1) = Some prev ->
  state prev = l ->
  at_index l (index prev) = Some focused ->
  data focused <> [] \/ index prev + 1 < len l ->
  index prev < index next <= len l ->
  exists w1 c1 evs1,
    undo w = Some (w1, c1) /\ emitted w w1 evs1
    /\ structural evs1 = [BlocksDelete (index next)]
    /\ forall e : E, exists w2 c2 evs2,
         redo (install e w1) = Some (w2, c2) /\ emitted (install e w1) w2 evs2
         /\ structural evs2 = insertions added (len l).
Proof.
  intros Hadded Hcan Hnext Hnst Hprev Hpst Hfocus Hcopy (Hij & Hj).
  destruct (entry_at_ref _ _ _ Hprev) as (r & Hr & Hh).
  assert (Hindex : undo_index prev = index prev)
    by (unfold undo_index; rewrite Hpst, Hfocus; reflexivity).
  assert (Hundo : issues undo w [BlocksDelete (index next)]).
  { apply (issues_undo w next prev r); auto.
    intros w0. rewrite Hpst, Hnst, Hindex.
    rewrite (undo_branch_append l added focused _ _ _ _ Hadded Hfocus Hcopy Hij).
    apply (issues_two_then_quiet (BlocksDelete (index next))).
    apply replays_sync_focused. }
  destruct Hundo as (w1 & c1 & evs1 & Hundo & He1 & Hs1).
  exists w1, c1, evs1. split_and!; auto. intros e.
  assert (Hne : state prev <> state next).
  { rewrite Hpst, Hnst. intros Heq. apply (f_equal len) in Heq.
    rewrite len_app in Heq. pose proof (len_positive _ Hadded). lia. }
  destruct (undo_leaves w w1 c1 prev next Hcan Hnext Hprev Hne Hundo e)
    as (Hcan1 & Hpos1 & Hnext1 & Hprev1).
  apply (issues_redo (install e w1)
           (mkEntry (undo_index prev) (state prev) (caretIndex prev)) next);
    try rewrite Hpos1; auto.
  - replace (position (self w) - 1 + 1) with (position (self w)) by lia.
    exact Hnext1.
  - intros w0. cbn [state]. rewrite Hpst, Hnst. apply redo_branch_append.
    + exact Hadded.
    + exact Hj.
    + apply replays_redo_end.
Qed.

End Appends.

Section Shrinks.

Context {E : Type} `{Editor E}.

Lemma at_index_cons {A : Type} (x : A) (l : list A) (k : Z) :
  at_index (x :: l) k = if k =? 0 then Some x else at_index l (k - 1).
Proof.
  unfold at_index. destruct (Z.eqb_spec k 0) as [->|Hk]; [reflexivity|].
  destruct (Z.ltb_spec k 0) as [Hneg|Hpos].
  - destruct (Z.ltb_spec (k - 1) 0); [reflexivity|lia].
  - destruct (Z.ltb_spec (k - 1) 0); [lia|].
    replace (Z.to_nat k) with (S (Z.to_nat (k - 1))) by lia. reflexivity.
Qed.

(** [findIndex] returns [-1] when the callback holds nowhere, and else
    an index where it holds. *)
Lemma findIndex_from_spec {A : Type} (p : A -> Z -> bool) (l : list A) (i : Z) :
  (findIndex_from p l i = -1
   /\ forall k x, at_index l k = Some x -> p x (i + k) = false)
  \/ (exists k x, findIndex_from p l i = i + k
      /\ at_index l k = Some x /\ p x (i + k) = true).
Proof.
  revert i. induction l as [|x l IH]; intros i.
  - left. split; [reflexivity|]. intros k x Hx.
    rewrite at_index_out_of_range in Hx; [discriminate|].
    change (len (@nil A)) with 0. lia.
  - cbn [findIndex_from]. destruct (p x i) eqn:Hp.
    + right. exists 0, x. rewrite Z.add_0_r. split_and!; auto.
    + destruct (IH (i + 1)) as [(Hnone & Hall)|(k & y & Hfound & Hy & Hpy)].
      * left. split; [exact Hnone|]. intros k y Hy.
        rewrite at_index_cons in Hy. destruct (Z.eqb_spec k 0) as [->|Hk].
        -- injection Hy as <-. rewrite Z.add_0_r. exact Hp.
        -- specialize (Hall (k - 1) y Hy).
           replace (i + 1 + (k - 1)) with (i + k) in Hall by lia. exact Hall.
      * right. exists (k + 1), y.
        pose proof (at_index_Some_range _ _ _ Hy) as Hrange.
        rewrite at_index_cons.
        destruct (Z.eqb_spec (k + 1) 0) as [Hk|_]; [lia|].
        replace (k + 1 - 1) with k by lia.
        replace (i + (k + 1)) with (i + 1 + k) by lia. split_and!; auto.
Qed.

Lemma existsb_identifier (st : Snapshot) (x : Block) :
  existsb (fun sb => opt_string_eqb (id sb) (id x)) st = true
  <-> List.In (id x) (identifiers st).
Proof.
  unfold identifiers. rewrite existsb_exists, in_map_iff. split.
  - intros (y & Hin & Heq). apply opt_string_eqb_eq in Heq. exists y. auto.
  - intros (y & Heq & Hin). exists y. split; [exact Hin|].
    rewrite Heq. apply opt_string_eqb_refl.
Qed.

(** A snapshot with distinct identifiers that is longer than another has
    a block [findIndex] stops at. *)
Lemma deleted_index_found (prevState st : Snapshot) :
  len st < len prevState -> NoDup (identifiers prevState) ->
  exists k x,
    findIndex_from (deleted_here st) prevState 0 = k
    /\ at_index prevState k = Some x
    /\ (~ List.In (id x) (identifiers st)
        \/ exists y, at_index st k = Some y /\ id y <> id x).
Proof.
  intros Hlen Hnd.
  destruct (findIndex_from_spec (deleted_here st) prevState 0)
    as [(_ & Hall)|(k & x & Hfound & Hx & Hp)].
  - exfalso.
    assert (Hincl : incl (identifiers prevState) (identifiers st)).
    { intros o Ho. unfold identifiers in Ho. apply in_map_iff in Ho as (x & <- & Hin).
      apply list_elem_of_In, list_elem_of_lookup_1 in Hin as (n & Hn).
      assert (Hx : at_index prevState (Z.of_nat n) = Some x).
      { unfold at_index. destruct (Z.ltb_spec (Z.of_nat n) 0); [lia|].
        rewrite Nat2Z.id. exact Hn. }
      specialize (Hall _ _ Hx). unfold deleted_here in Hall.
      apply orb_false_elim in Hall as (Hex & _).
      apply negb_false_iff in Hex. apply existsb_identifier. exact Hex. }
    pose proof (NoDup_incl_length (proj1 (NoDup_ListNoDup _) Hnd) Hincl) as Hle.
    unfold identifiers in Hle. rewrite !length_map in Hle.
    unfold len in Hlen. lia.
  - exists k, x. rewrite Z.add_0_l in *. split_and!; auto.
    unfold deleted_here in Hp. apply orb_true_iff in Hp as [Hgone|Hmoved].
    + left. apply negb_true_iff in Hgone. intros Hin.
      apply existsb_identifier in Hin. congruence.
    + right. destruct (at_index st k) as [y|]; [|discriminate].
      exists y. split; [reflexivity|]. intros Heq.
      unfold opt_string_neqb in Hmoved. rewrite Heq, opt_string_eqb_refl in Hmoved.
      discriminate.
Qed.

(** X13.  A [redo()] into a shorter snapshot deletes exactly one block,
    however many blocks the snapshot lost.  When the identifiers of the
    snapshot it leaves are distinct, the block deleted is at an index of
    that snapshot, and it is one whose identifier the snapshot entered
    lacks, or has another block at that index. *)
Theorem redo_of_shrink (w : World E) (prev target : Entry) :
  canRedo (self w) = true ->
  entry_at (self w) (position (self w) + 1) = Some target ->
  entry_at (self w) (position (self w)) = Some prev ->
  len (state target) < len (state prev) ->
  NoDup (identifiers (state prev)) ->
  exists k x,
    at_index (state prev) k = Some x
    /\ (~ List.In (id x) (identifiers (state target))
        \/ exists y, at_index (state target) k = Some y /\ id y <> id x)
    /\ issues redo w [BlocksDelete k].
Proof.
  intros Hcan Htarget Hprev Hlen Hnd.
  destruct (deleted_index_found _ _ Hlen Hnd) as (k & x & Hk & Hx & Hwhy).
  exists k, x. split_and!; auto.
  apply (issues_redo w prev target); auto. intros w0. unfold redo_branch.
  replace (blockWasDeleted (state prev) (state target)) with true
    by (symmetry; unfold blockWasDeleted; apply Z.gtb_lt; lia).
  cbv zeta. rewrite Hk.
  replace (k =? -1) with false
    by (symmetry; apply Z.eqb_neq; apply at_index_Some_range in Hx; lia).
  cbn [negb]. apply (issues_two_then_quiet (BlocksDelete k)).
  apply replays_redo_end.
Qed.

Lemma issues_emit_then_quiet (c : Call) (m K : unit -> M E unit) (w : World E) :
  replays quiet (m tt) -> replays quiet (K tt) ->
  issues (bind (bind (emit c) m) K) w (List.filter is_structural [c]).
Proof.
  intros Hm HK.
  rewrite <- (app_nil_r (List.filter is_structural [c])).
  apply issues_assoc, issues_emit_bind, issues_quiet.
  apply replays_bind; [exact Hm|]. intros []. exact HK.
Qed.

Lemma blockWasDeleted_same_length (st comp : Snapshot) :
  length st = length comp -> blockWasDeleted st comp = false.
Proof.
  intros Hl. unfold blockWasDeleted, len. rewrite Hl.
  destruct (Z.gtb_spec (Z.of_nat (length comp)) (Z.of_nat (length comp)));
    [lia|reflexivity].
Qed.

Lemma blockWasSkipped_same_length (st comp : Snapshot) :
  length st = length comp -> blockWasSkipped st comp = false.
Proof.
  intros Hl. unfold blockWasSkipped, len. rewrite Hl, Z.eqb_refl. reflexivity.
Qed.

(** X14.  An [undo()] between two snapshots of the same length never
    inserts or deletes a block.  Let the snapshot it enters have a block
    at the recorded index.  It renders that snapshot, and issues no other
    structural call, when the block has no data and the blocks after it
    differ in the two snapshots, or the editor shows more blocks than the
    snapshot has, or the identifiers of the two snapshots differ; and it
    issues no structural call at all otherwise. *)
Theorem undo_same_length (w : World E) (prev next : Entry) (focused : Block) :
  canUndo (self w) = true ->
  entry_at (self w) (position (self w)) = Some next ->
  entry_at (self w) (position (self w) - 1) = Some prev ->
  length (state prev) = length (state next) ->
  at_index (state prev) (index prev) = Some focused ->
  let copied :=
    data focused = []
    /\ stringify_opt (at_index (state next) (index prev + 1))
       <> stringify_opt (at_index (state prev) (index prev + 1)) in
  let crowded :=
    len (state prev) < getBlocksCount (perform OnUpdate (editor w)) in
  let moved := identifiers (state prev) <> identifiers (state next) in
  (copied \/ crowded \/ moved -> issues undo w [BlocksRender (state prev)])
  /\ (~ copied -> ~ crowded -> ~ moved -> issues undo w []).
Proof.
  intros Hcan Hnext Hprev Hl Hfocus copied crowded moved.
  destruct (entry_at_ref _ _ _ Hprev) as (r & Hr & Hh).
  assert (Hindex : undo_index prev = index prev)
    by (unfold undo_index; rewrite Hfocus; reflexivity).
  destruct (blockWasDropped_same_length _ _ Hl) as (dropped & Hdropped & Hiff).
  pose proof (replays_sync_focused (E := E) (state prev) (index prev)
                (caretIndex prev)) as Hsync.
  assert (Hcopied : exists b, contentWasCopied (state prev) (state next) (index prev)
                              = Some b /\ (b = true <-> copied)).
  { unfold contentWasCopied. rewrite Hfocus. eexists. split; [reflexivity|].
    unfold copied. rewrite andb_true_iff, Z.eqb_eq. unfold opt_string_neqb.
    rewrite negb_true_iff. split.
    - intros (Hdata & Hne). split.
      + destruct (data focused) as [|field fields]; [reflexivity|].
        rewrite len_cons in Hdata. pose proof (len_nonneg fields). lia.
      + intros Heq. rewrite Heq, opt_string_eqb_refl in Hne. discriminate.
    - intros (Hdata & Hne). split; [rewrite Hdata; reflexivity|].
      destruct (opt_string_eqb _ _) eqn:Heq; [|reflexivity].
      apply opt_string_eqb_eq in Heq. contradiction. }
  destruct Hcopied as (b & Hb & Hbiff).
  assert (Hbranch : forall cs,
    (forall w0,
       issues (bind (if b then
                       bind (emit (BlocksRender (state prev)))
                            (fun _ => emit (CaretSetToBlock (index prev)))
                     else if getBlocksCount (perform OnUpdate (editor w))
                             >? len (state prev) then
                       bind (emit (BlocksRender (state prev)))
                            (fun _ => setCaretIndex (index prev) (caretIndex prev))
                     else if dropped then
                       bind (emit (BlocksRender (state prev)))
                            (fun _ => emit (CaretSetToBlock (index prev)))
                     else if contentChangedInNoFocusBlock (index prev) (index next) then
                       bind (query (fun e => getBlockByIndex e (index next))) (fun live =>
                       bind (defined live) (fun blockId =>
                       bind (defined (at_index (state prev) (index next))) (fun b =>
                       bind (emit (BlocksUpdate (Some blockId) (data b))) (fun _ =>
                       setCaretIndex (index prev) (caretIndex prev)))))
                     else ret tt)
                    (fun _ => sync_focused (state prev) (index prev) (caretIndex prev)))
              w0 cs) ->
    issues undo w cs).
  { intros cs Hcs. apply (issues_undo w next prev r); auto. intros w0.
    rewrite Hindex. unfold undo_branch.
    rewrite (blockWasDeleted_same_length _ _ Hl), Hb.
    rewrite (blockWasSkipped_same_length _ _ Hl), andb_false_r, Hdropped.
    specialize (Hcs w0). destruct b; [exact Hcs|].
    destruct (_ >? _); exact Hcs. }
  split.
  - intros Hrender. apply Hbranch. intros w0.
    destruct b.
    { apply (issues_two_then_quiet (BlocksRender (state prev))). exact Hsync. }
    destruct (Z.gtb_spec (getBlocksCount (perform OnUpdate (editor w)))
                         (len (state prev))) as [Hgt|Hle].
    { apply (issues_emit_then_quiet (BlocksRender (state prev)));
        [apply replays_setCaretIndex|exact Hsync]. }
    destruct dropped.
    { apply (issues_two_then_quiet (BlocksRender (state prev))). exact Hsync. }
    exfalso. destruct Hrender as [Hc|[Hc|Hm]].
    + apply Hbiff in Hc. discriminate.
    + unfold crowded in Hc. lia.
    + apply Hiff in Hm. discriminate.
  - intros Hnc Hncr Hnm. apply Hbranch. intros w0.
    destruct b; [contradiction Hnc; apply Hbiff; reflexivity|].
    destruct (Z.gtb_spec (getBlocksCount (perform OnUpdate (editor w)))
                         (len (state prev))) as [Hgt|Hle];
      [contradiction Hncr|].
    destruct dropped; [contradiction Hnm; apply Hiff; reflexivity|].
    apply issues_quiet.
    apply replays_bind; [|intros []; exact Hsync].
    repeat replays_quiet_step.
Qed.

(** X15.  A [redo()] between two snapshots of the same length never
    inserts or deletes a block: it renders the snapshot it enters, and
    issues no other structural call, when the identifiers of the two
    snapshots differ and the position it enters is not [1]; it issues no
    structural call at all when the identifiers agree, or when the
    position it enters is [1]. *)
Theorem redo_same_length (w : World E) (prev target : Entry) :
  canRedo (self w) = true ->
  entry_at (self w) (position (self w) + 1) = Some target ->
  entry_at (self w) (position (self w)) = Some prev ->
  length (state target) = length (state prev) ->
  (identifiers (state target) <> identifiers (state prev) ->
   position (self w) <> 0 -> issues redo w [BlocksRender (state target)])
  /\ (identifiers (state target) = identifiers (state prev)
      \/ position (self w) = 0 -> issues redo w []).
Proof.
  intros Hcan Htarget Hprev Hl.
  destruct (blockWasDropped_same_length _ _ Hl) as (dropped & Hdropped & Hiff).
  assert (Hbranch : forall cs,
    (forall w0,
       issues (bind (if dropped && negb (position (self w) + 1 =? 1) then
                       bind (emit (BlocksRender (state target)))
                            (fun _ => emit (CaretSetToBlock (index target)))
                     else ret tt)
                    (fun _ => bind (emit OnUpdate)
                                (fun _ => sync_focused (state target) (index target)
                                                       (caretIndex target))))
              w0 cs) ->
    issues redo w cs).
  { intros cs Hcs. apply (issues_redo w prev target); auto. intros w0.
    unfold redo_branch.
    rewrite (blockWasDeleted_same_length _ _ (eq_sym Hl)).
    rewrite (blockWasSkipped_same_length _ _ Hl), Hdropped. exact (Hcs w0). }
  split.
  - intros Hmoved Hpos. apply Hbranch. intros w0.
    replace dropped with true by (symmetry; apply Hiff; exact Hmoved).
    replace (position (self w) + 1 =? 1) with false
      by (symmetry; apply Z.eqb_neq; lia).
    apply (issues_two_then_quiet (BlocksRender (state target))).
    apply replays_redo_end.
  - intros Hquiet. apply Hbranch. intros w0.
    assert (Hcond : dropped && negb (position (self w) + 1 =? 1) = false).
    { destruct Hquiet as [Hsame|Hpos].
      - destruct dropped; [|reflexivity].
        assert (Hne : identifiers (state target) <> identifiers (state prev))
          by (apply Hiff; reflexivity).
        contradiction.
      - rewrite Hpos. apply andb_false_r. }
    rewrite Hcond. apply issues_quiet.
    apply replays_bind; [apply replays_ret|intros []; apply replays_redo_end].
Qed.

End Shrinks.

(** ** [save], the store and [registerChange] *)

Section Commits.

Context {E : Type} `{Editor E}.

(** X16.  What [save] does, in every state of the instance and of the
    editor, [maxLength] not negative.  It records the index of the live
    block in focus, moved back by the number of blocks the snapshot lacks
    when the snapshot has no block there.  When the snapshot has a
    paragraph or a header at the recorded index, it reads the caret of the
    live block in focus: it raises a [TypeError] when that block has no
    content element, after it has evicted and cut the stack, so that the
    entries above the position are lost and nothing is recorded.
    Otherwise it pushes the entry, with the caret offset or with none,
    moves the position to it and calls [onUpdate] once. *)
Theorem save_outcome (s : Snapshot) (w : World E) :
  0 <= maxLength (self w) ->
  save s w
  = Some (if save_reads_caret (editor w) s
             && negb (hasContent (editor w) (getCurrentBlockIndex (editor w)))
          then (mkWorld (save_prepared (self w)) (editor w) (trace w),
                Abrupt TypeError)
          else (mkWorld (save_pushed (self w) (save_entry (editor w) s))
                        (perform OnUpdate (editor w))
                        (trace w ++ [mkEvent (shouldSaveHistory (self w)) OnUpdate]),
                Normal tt)).
Proof.
  intros Hmax. destruct w as [u e tr]. simpl in *.
  unfold save. rewrite bind_this. simpl self.
  assert (Hstep : forall (B : Type) (k : unit -> M E B),
    bind (if position u >=? maxLength u
          then match truncate (stack u) (maxLength u) with
               | Some stk => update (set_stack stk)
               | None => diverge
               end
          else ret tt) k (mkWorld u e tr)
    = k tt (mkWorld (set_stack (save_evicted u) u) e tr)).
  { intros B k. unfold save_evicted.
    destruct (position u >=? maxLength u).
    - rewrite truncate_nonneg by exact Hmax. reflexivity.
    - destruct u; reflexivity. }
  rewrite Hstep. do 4 mstep. simpl.
  fold (save_position u). fold (save_stack u).
  unfold save_reads_caret, save_entry, save_reads_caret, save_index.
  set (i := getCurrentBlockIndex e).
  set (ix := match at_index s i with
             | Some _ => i
             | None => i - (getBlocksCount e - len s)
             end).
  destruct (at_index s ix) as [b|]; [|reflexivity].
  destruct (is_text_type (type b)); [|reflexivity].
  unfold getCaretIndex. rewrite !bind_assoc. mstep. cbn [editor].
  destruct (hasContent e i); reflexivity.
Qed.

Lemma extends_refl (u : Undo) : extends u u.
Proof. split; [lia|]. intros r ent Hr. exists ent. auto. Qed.

Lemma extends_trans (u1 u2 u3 : Undo) :
  extends u1 u2 -> extends u2 u3 -> extends u1 u3.
Proof.
  intros (Hl1 & H1) (Hl2 & H2). split; [lia|]. intros r ent Hr.
  destruct (H1 r ent Hr) as (ent2 & Hr2 & Hs2 & Hc2).
  destruct (H2 r ent2 Hr2) as (ent3 & Hr3 & Hs3 & Hc3).
  exists ent3. split_and!; congruence.
Qed.

Lemma extends_heap (u u' : Undo) : heap u' = heap u -> extends u u'.
Proof.
  intros Hh. split; [rewrite Hh; lia|]. intros r ent Hr. exists ent.
  rewrite Hh. auto.
Qed.

Lemma extends_alloc (u u' : Undo) (ents : list Entry) :
  heap u' = heap u ++ ents -> extends u u'.
Proof.
  intros Hh. split; [rewrite Hh, length_app; lia|]. intros r ent Hr. exists ent.
  rewrite Hh. split_and!; auto. apply lookup_app_l_Some. exact Hr.
Qed.

Lemma extends_replay (Q : Call -> Prop) (w w' : World E) :
  replay_rel Q w w' -> extends (self w) (self w').
Proof.
  intros (_ & _ & _ & _ & _ & _ & _ & Hlen & Hst & Hcaret & _).
  split; [lia|]. intros r ent Hr.
  specialize (Hst r). specialize (Hcaret r). rewrite Hr in Hst, Hcaret.
  destruct (heap (self w') !! r) as [ent'|]; [|discriminate].
  exists ent'. simpl in Hst, Hcaret. split_and!; congruence.
Qed.

Lemma save_kept (s : Snapshot) (w : World E) :
  0 <= maxLength (self w) ->
  wp (save s) w (fun w' _ =>
    extends (self w) (self w') /\ maxLength (self w') = maxLength (self w)
    /\ defaultBlock (self w') = defaultBlock (self w)
    /\ initialItem (self w') = initialItem (self w)
    /\ readOnly (self w') = readOnly (self w)).
Proof.
  intros Hmax. destruct (save_spec s w Hmax) as (w' & c & Heq & Hc).
  exists w', c. split; [exact Heq|]. destruct c as [[]|ex].
  - destruct Hc as (ent & _ & -> & _). split_and!; try reflexivity.
    apply (extends_alloc _ _ [ent]). reflexivity.
  - destruct Hc as (-> & _). split_and!; try reflexivity.
    apply extends_heap. reflexivity.
Qed.

Lemma run_kept (op : Op) (w : World E) :
  0 <= maxLength (self w) ->
  wp (run op) w (fun w' _ =>
    extends (self w) (self w')
    /\ maxLength (self w') = maxLength (self w)
    /\ defaultBlock (self w') = defaultBlock (self w)
    /\ match op with
       | OpInitialize _ => True
       | _ => initialItem (self w') = initialItem (self w)
       end).
Proof.
  intros Hmax. unfold wp. destruct op as [s| | | |d|]; cbn [run].
  - destruct (save_kept s w Hmax) as (w' & c & Heq & He & Hm & Hd & Hi & _).
    exists w', c. auto.
  - destruct (canUndo (self w)) eqn:Hcan.
    + destruct (entry_at (self w) (position (self w))) as [next|] eqn:Hnext.
      * destruct (undo_proceeds w next Hcan Hnext) as (w' & c & Heq & Hrel).
        exists w', c. split; [exact Heq|].
        pose proof (extends_replay _ _ _ Hrel) as Hext.
        destruct Hrel as (_ & _ & Hm & _ & _ & Hi & Hd & _).
        split_and!; auto.
      * exists w, (Abrupt TypeError). split; [apply undo_throws; assumption|].
        split_and!; auto using extends_refl.
    + exists w, (Normal tt). split; [apply undo_idle; exact Hcan|].
      split_and!; auto using extends_refl.
  - destruct (canRedo (self w)) eqn:Hcan.
    + destruct (redo_proceeds w Hcan) as (w' & c & Heq & Hrel).
      exists w', c. split; [exact Heq|].
      pose proof (extends_replay _ _ _ Hrel) as Hext.
      destruct Hrel as (_ & _ & Hm & _ & _ & Hi & Hd & _).
      split_and!; auto.
    + exists w, (Normal tt). split; [apply redo_idle; exact Hcan|].
      split_and!; auto using extends_refl.
  - rewrite clear_spec. eexists _, _. split; [reflexivity|]. cbn [self].
    unfold cleared. destruct (initialItem (self w)) as [r|] eqn:Hinit;
      cbn [heap maxLength defaultBlock initialItem]; split_and!; auto.
    + apply extends_heap. reflexivity.
    + eapply extends_alloc. reflexivity.
  - rewrite initialize_spec. eexists _, _. split; [reflexivity|]. cbn [self].
    split_and!; auto. eapply extends_alloc. reflexivity.
  - rewrite registerChange_spec. cbv zeta.
    destruct (hasToolbox (editor w)).
    + destruct (hasSave (editor w) && shouldSaveHistory (self w)).
      * unfold bind, editorDidUpdate at 1. rewrite bind_this. cbn [self].
        destruct (entry_at _ _) as [current|].
        -- rewrite bind_defined_Some.
           lazymatch goal with
           | |- context [(if ?c1 then ret false else if ?c2 then ret true
                          else ret ?c3) ?w1] =>
               assert (Hret : exists b, (if c1 then ret false else if c2 then ret true
                                         else ret c3) w1 = Some (w1, Normal b))
                 by (destruct c1; [|destruct c2]; eexists; reflexivity);
               destruct Hret as (b & ->)
           end.
           destruct b.
           ++ lazymatch goal with
              | |- exists w' c, save ?s ?w1 = _ /\ _ =>
                  destruct (save_kept s w1 Hmax)
                    as (w' & c & Heq & He & Hm & Hd & Hi & _)
              end.
              exists w', c. split; [exact Heq|]. split_and!; auto.
           ++ eexists _, _. split; [reflexivity|]. cbn [self].
              split_and!; auto. apply extends_heap. reflexivity.
        -- rewrite bind_defined_None. eexists _, _. split; [reflexivity|].
           cbn [self]. split_and!; auto. apply extends_heap. reflexivity.
      * eexists _, _. split; [reflexivity|]. cbn [self].
        split_and!; auto. apply extends_heap. reflexivity.
    + eexists _, _. split; [reflexivity|]. cbn [self].
      split_and!; auto. apply extends_heap. reflexivity.
Qed.

Lemma exec_kept (calls : list (E * Op)) (w : World E) :
  0 <= maxLength (self w) ->
  exists w',
    exec calls w = Some w'
    /\ extends (self w) (self w')
    /\ maxLength (self w') = maxLength (self w)
    /\ defaultBlock (self w') = defaultBlock (self w)
    /\ (no_initialize calls -> initialItem (self w') = initialItem (self w)).
Proof.
  revert w. induction calls as [|[e op] calls IH]; intros w Hmax.
  - exists w. split_and!; auto using extends_refl.
  - cbn [exec].
    destruct (run_kept op (install e w) Hmax) as (w1 & c & Heq & He & Hm & Hd & Hi).
    rewrite Heq. cbn [install self] in He, Hm, Hd, Hi.
    destruct (IH w1) as (w' & Hexec & He' & Hm' & Hd' & Hi'); [lia|].
    exists w'. split_and!; try congruence.
    + eapply extends_trans; eassumption.
    + intros Hno. apply Forall_cons in Hno as (Hop & Hno). cbn [snd] in Hop.
      rewrite (Hi' Hno). destruct op; auto. contradiction.
Qed.

(** X17.  From every state with a [maxLength] that is not negative,
    whatever the state of the stack and of the position, every sequence of
    calls returns; no call ever changes the snapshot or the caret offset
    of an entry that exists, nor [maxLength]; and the initial item changes
    in [initialize] only. *)
Theorem entries_immutable (calls : list (E * Op)) (w : World E) :
  0 <= maxLength (self w) ->
  exists w',
    exec calls w = Some w'
    /\ (forall r ent, heap (self w) !! r = Some ent ->
          exists ent', heap (self w') !! r = Some ent'
            /\ state ent' = state ent /\ caretIndex ent' = caretIndex ent)
    /\ maxLength (self w') = maxLength (self w)
    /\ (no_initialize calls -> initialItem (self w') = initialItem (self w)).
Proof.
  intros Hmax.
  destruct (exec_kept calls w Hmax) as (w' & Hexec & (_ & He) & Hm & _ & Hi).
  exists w'. split_and!; auto.
Qed.

(** X18.  [clear()] goes back to the document [initialize] was given.
    After [initialize(d)], then any calls other than [initialize], then
    [clear()], the stack holds one entry, with the snapshot [d], at
    position 0, and nothing can be undone or redone. *)
Theorem clear_restores_initial (d : Snapshot) (calls : list (E * Op))
    (e1 e2 : E) (w : World E) :
  0 <= maxLength (self w) -> no_initialize calls ->
  exists w',
    exec ((e1, OpInitialize d) :: calls ++ [(e2, OpClear)]) w = Some w'
    /\ snapshots (self w') = [Some d]
    /\ position (self w') = 0
    /\ canUndo (self w') = false /\ canRedo (self w') = false.
Proof.
  intros Hmax Hno. cbn [exec run]. rewrite initialize_spec, exec_app.
  lazymatch goal with
  | |- context [exec calls ?w1] =>
      destruct (exec_kept calls w1) as (w2 & Hexec & (_ & He) & _ & _ & Hi);
        [exact Hmax|]
  end.
  rewrite Hexec. cbn [exec run]. rewrite clear_spec.
  eexists. split; [reflexivity|]. cbn [self].
  specialize (Hi Hno). cbn [self initialized initialItem] in Hi.
  destruct (He (length (heap (self w)))
               (mkEntry (len d - 1) d None)) as (ent & Hent & Hst & _).
  { cbn [self install initialized heap]. rewrite lookup_app_r by lia.
    rewrite Nat.sub_diag. reflexivity. }
  cbn [install self state] in *. unfold cleared. rewrite Hi.
  unfold snapshots, canUndo, canRedo, count.
  cbn [stack heap position List.map]. rewrite Hent. cbn [option_map].
  rewrite Hst. split_and!; try reflexivity; apply andb_false_r.
Qed.

(** X19.  [registerChange] derives the read-only flag from the toolbox at
    every call, whatever the configuration said: the flag is true
    afterwards exactly when the holder has no toolbox.  Without a toolbox
    the call does nothing else, and neither [undo()] nor [redo()] can
    proceed after it. *)
Theorem registerChange_tracks_toolbox (w : World E) :
  0 <= maxLength (self w) ->
  exists w' c,
    registerChange w = Some (w', c)
    /\ readOnly (self w') = negb (hasToolbox (editor w))
    /\ (hasToolbox (editor w) = false ->
        c = Normal tt /\ self w' = set_readOnly true (self w)
        /\ editor w' = editor w /\ trace w' = trace w
        /\ canUndo (self w') = false /\ canRedo (self w') = false).
Proof.
  intros Hmax. rewrite registerChange_spec. cbv zeta.
  destruct (hasToolbox (editor w)).
  - destruct (hasSave (editor w) && shouldSaveHistory (self w)).
    + unfold bind, editorDidUpdate at 1. rewrite bind_this. cbn [self].
      destruct (entry_at _ _) as [current|].
      * rewrite bind_defined_Some.
        lazymatch goal with
        | |- context [(if ?c1 then ret false else if ?c2 then ret true
                       else ret ?c3) ?w1] =>
            assert (Hret : exists b, (if c1 then ret false else if c2 then ret true
                                      else ret c3) w1 = Some (w1, Normal b))
              by (destruct c1; [|destruct c2]; eexists; reflexivity);
            destruct Hret as (b & ->)
        end.
        destruct b.
        -- lazymatch goal with
           | |- exists w' c, save ?s ?w1 = _ /\ _ =>
               destruct (save_kept s w1 Hmax)
                 as (w' & c & Heq & _ & _ & _ & _ & Hro)
           end.
           exists w', c. split; [exact Heq|]. split; [exact Hro|].
           intros Habs. discriminate.
        -- eexists _, _. split; [reflexivity|]. split; [reflexivity|].
           intros Habs. discriminate.
      * rewrite bind_defined_None. eexists _, _. split; [reflexivity|].
        split; [reflexivity|]. intros Habs. discriminate.
    + eexists _, _. split; [reflexivity|]. split; [reflexivity|].
      intros Habs. discriminate.
  - eexists _, _. split; [reflexivity|]. split; [reflexivity|].
    intros _. split_and!; reflexivity.
Qed.

(** X20.  An empty document is never recorded.  When the editor has a
    toolbox and [editor.save()] resolves with no block, [registerChange]
    returns and leaves the stack, the position and every entry as they
    were: it only clears the read-only flag and sets [shouldSaveHistory]. *)
Theorem registerChange_ignores_empty (w : World E) :
  hasToolbox (editor w) = true ->
  savedBlocks (perform EditorSave (editor w)) = [] ->
  exists w' c,
    registerChange w = Some (w', c)
    /\ self w' = set_shouldSaveHistory true (set_readOnly false (self w)).
Proof.
  intros Htool Hempty. rewrite registerChange_spec. cbv zeta. rewrite Htool.
  destruct (hasSave (editor w) && shouldSaveHistory (self w)).
  - rewrite Hempty. unfold bind, editorDidUpdate at 1. rewrite bind_this.
    cbn [self]. destruct (entry_at _ _) as [current|].
    + rewrite bind_defined_Some. eexists _, _. split; reflexivity.
    + rewrite bind_defined_None. eexists _, _. split; reflexivity.
  - eexists _, _. split; reflexivity.
Qed.

End Commits.

Section Failures.

Context {E : Type} `{Editor E}.

(** X21.  An [undo()] into a snapshot that is not longer than the one it
    leaves and has no block at the recorded index, nor at the index before
    it, raises a [TypeError]; an empty snapshot, as [initialize] records
    for a document without blocks, is the case in point.  The exception
    comes after the position has moved, [shouldSaveHistory] is false,
    [onUpdate] was called and the recorded index was lowered; no block is
    touched. *)
Theorem undo_into_missing_block (w : World E) (prev next : Entry) :
  canUndo (self w) = true ->
  entry_at (self w) (position (self w)) = Some next ->
  entry_at (self w) (position (self w) - 1) = Some prev ->
  at_index (state prev) (index prev) = None ->
  at_index (state prev) (index prev - 1) = None ->
  len (state prev) <= len (state next) ->
  exists w',
    undo w = Some (w', Abrupt TypeError)
    /\ position (self w') = position (self w) - 1
    /\ stack (self w') = stack (self w)
    /\ shouldSaveHistory (self w') = false
    /\ entry_at (self w') (position (self w'))
       = Some (mkEntry (index prev - 1) (state prev) (caretIndex prev))
    /\ emitted w w' [mkEvent false OnUpdate].
Proof.
  intros Hcan Hnext Hprev Hfocus Hbefore Hlen.
  destruct (entry_at_ref _ _ _ Hprev) as (r & Hr & Hh).
  rewrite (undo_unfold w next prev r Hcan Hnext Hr Hh).
  unfold undo_written, undo_index. rewrite Hfocus. unfold undo_branch.
  replace (blockWasDeleted (state prev) (state next)) with false
    by (symmetry; unfold blockWasDeleted;
        destruct (Z.gtb_spec (len (state prev)) (len (state next)));
        [lia|reflexivity]).
  unfold contentWasCopied. rewrite Hbefore.
  eexists. split; [reflexivity|]. cbn [self trace]. unfold undo_begin.
  split_and!; try reflexivity.
  unfold entry_at. cbn [stack heap position set_heap set_shouldSaveHistory
                        set_position].
  rewrite Hr. apply list_lookup_insert_eq. eapply lookup_lt_Some. exact Hh.
Qed.

End Failures.

(** ** Replays between snapshots of different lengths *)

Section Lengths.

Context {E : Type} `{Editor E}.

(** The loop of [insertDeletedBlock] stops at the first index where the
    shorter snapshot ends or has a block with another identifier. *)
Lemma insertDeletedBlock_from_found (rest : list Block) (i : Z)
    (comp : Snapshot) (focus : Z) :
  0 <= i <= len comp -> len comp < i + len rest ->
  exists k b,
    i <= k /\ at_index rest (k - i) = Some b
    /\ (forall j, i <= j < k ->
          exists x y, at_index rest (j - i) = Some x
                      /\ at_index comp j = Some y /\ id x = id y)
    /\ (forall y, at_index comp k = Some y -> id b <> id y)
    /\ insertDeletedBlock_from rest i comp focus
       = bind (E := E) (emit (BlocksInsert (type b) (data b) k true))
              (fun _ => emit (CaretSetToBlock focus)).
Proof.
  revert i. induction rest as [|b rest IH]; intros i Hi Hlen.
  - change (len (@nil Block)) with 0 in Hlen. lia.
  - cbn [insertDeletedBlock_from].
    destruct (at_index comp i) as [y|] eqn:Hy.
    + destruct (opt_string_eqb (id b) (id y)) eqn:Hby.
      * unfold opt_string_neqb. rewrite Hby. cbn [negb].
        apply opt_string_eqb_eq in Hby.
        pose proof (at_index_Some_range _ _ _ Hy) as Hrange.
        rewrite len_cons in Hlen.
        destruct (IH (i + 1)) as (k & x & Hk & Hx & Hagree & Hstop & Heq);
          [lia|lia|].
        exists k, x. split_and!; auto.
        -- lia.
        -- rewrite at_index_cons. destruct (Z.eqb_spec (k - i) 0); [lia|].
           replace (k - i - 1) with (k - (i + 1)) by lia. exact Hx.
        -- intros j Hj. destruct (Z.eq_dec j i) as [->|Hne].
           ++ exists b, y. rewrite Z.sub_diag. split_and!; auto.
           ++ destruct (Hagree j) as (x' & y' & Hx' & Hy' & Hid); [lia|].
              exists x', y'. split_and!; auto.
              rewrite at_index_cons. destruct (Z.eqb_spec (j - i) 0); [lia|].
              replace (j - i - 1) with (j - (i + 1)) by lia. exact Hx'.
      * unfold opt_string_neqb. rewrite Hby. cbn [negb].
        exists i, b. rewrite Z.sub_diag. split_and!; auto.
        -- lia.
        -- intros j Hj. lia.
        -- intros y' Hy' Heq. rewrite Hy in Hy'. injection Hy' as <-.
           rewrite Heq, opt_string_eqb_refl in Hby. discriminate.
    + exists i, b. rewrite Z.sub_diag. split_and!; auto.
      * lia.
      * intros j Hj. lia.
      * intros y Hy'. rewrite Hy in Hy'. discriminate.
Qed.

(** X22.  An [undo()] into a snapshot longer than the one it leaves
    inserts exactly one block, however many blocks the snapshot has more:
    the block of the snapshot it enters at the first index where the other
    snapshot ends or has a block with another identifier, at that index. *)
Theorem undo_of_shrink (w : World E) (prev next : Entry) :
  canUndo (self w) = true ->
  entry_at (self w) (position (self w)) = Some next ->
  entry_at (self w) (position (self w) - 1) = Some prev ->
  len (state next) < len (state prev) ->
  exists k b,
    at_index (state prev) k = Some b
    /\ (forall j, 0 <= j < k ->
          exists x y, at_index (state prev) j = Some x
                      /\ at_index (state next) j = Some y /\ id x = id y)
    /\ (forall y, at_index (state next) k = Some y -> id b <> id y)
    /\ issues undo w [BlocksInsert (type b) (data b) k true].
Proof.
  intros Hcan Hnext Hprev Hlen.
  destruct (entry_at_ref _ _ _ Hprev) as (r & Hr & Hh).
  destruct (insertDeletedBlock_from_found (state prev) 0 (state next)
              (undo_index prev))
    as (k & b & Hk & Hb & Hagree & Hstop & Heq);
    [pose proof (len_nonneg (state next)); lia|lia|].
  rewrite Z.sub_0_r in Hb. exists k, b. split_and!; auto.
  - intros j Hj. destruct (Hagree j Hj) as (x & y & Hx & Hy & Hid).
    rewrite Z.sub_0_r in Hx. exists x, y. auto.
  - apply (issues_undo w next prev r); auto. intros w0. unfold undo_branch.
    replace (blockWasDeleted (state prev) (state next)) with true
      by (symmetry; unfold blockWasDeleted; apply Z.gtb_lt; lia).
    unfold insertDeletedBlock. rewrite Heq.
    apply (issues_two_then_quiet (BlocksInsert (type b) (data b) k true)).
    apply replays_sync_focused.
Qed.

Lemma blockWasDeleted_shorter (st comp : Snapshot) :
  len st <= len comp -> blockWasDeleted st comp = false.
Proof.
  intros Hlen. unfold blockWasDeleted.
  destruct (Z.gtb_spec (len st) (len comp)); [lia|reflexivity].
Qed.

Lemma blockWasSkipped_other_length (st comp : Snapshot) :
  len st <> len comp -> blockWasSkipped st comp = true.
Proof.
  intros Hlen. unfold blockWasSkipped. apply negb_true_iff, Z.eqb_neq. exact Hlen.
Qed.

(** X23.  An [undo()] into a snapshot shorter than the one it leaves, with
    a block at its recorded index, issues at most one structural call.
    When the block in focus has no data and the blocks after it differ in
    the two snapshots, it renders the snapshot it enters.  Otherwise, when
    its recorded index is below the one of the snapshot it leaves, it
    deletes the block at the latter index, and that block only, however
    many blocks the snapshot it leaves has more.  Otherwise it renders the
    snapshot it enters when the editor shows more blocks than the snapshot
    has, and issues no structural call when not. *)
Theorem undo_of_growth (w : World E) (prev next : Entry) (focused : Block) :
  canUndo (self w) = true ->
  entry_at (self w) (position (self w)) = Some next ->
  entry_at (self w) (position (self w) - 1) = Some prev ->
  len (state prev) < len (state next) ->
  at_index (state prev) (index prev) = Some focused ->
  let copied :=
    data focused = []
    /\ stringify_opt (at_index (state next) (index prev + 1))
       <> stringify_opt (at_index (state prev) (index prev + 1)) in
  let crowded :=
    len (state prev) < getBlocksCount (perform OnUpdate (editor w)) in
  (copied -> issues undo w [BlocksRender (state prev)])
  /\ (~ copied -> index prev < index next ->
      issues undo w [BlocksDelete (index next)])
  /\ (~ copied -> index next <= index prev -> crowded ->
      issues undo w [BlocksRender (state prev)])
  /\ (~ copied -> index next <= index prev -> ~ crowded -> issues undo w []).
Proof.
  intros Hcan Hnext Hprev Hlen Hfocus copied crowded.
  destruct (entry_at_ref _ _ _ Hprev) as (r & Hr & Hh).
  assert (Hindex : undo_index prev = index prev)
    by (unfold undo_index; rewrite Hfocus; reflexivity).
  pose proof (replays_sync_focused (E := E) (state prev) (index prev)
                (caretIndex prev)) as Hsync.
  assert (Hcopied : exists b, contentWasCopied (state prev) (state next) (index prev)
                              = Some b /\ (b = true <-> copied)).
  { unfold contentWasCopied. rewrite Hfocus. eexists. split; [reflexivity|].
    unfold copied. rewrite andb_true_iff, Z.eqb_eq. unfold opt_string_neqb.
    rewrite negb_true_iff. split.
    - intros (Hdata & Hne). split.
      + destruct (data focused) as [|field fields]; [reflexivity|].
        rewrite len_cons in Hdata. pose proof (len_nonneg fields). lia.
      + intros Heq. rewrite Heq, opt_string_eqb_refl in Hne. discriminate.
    - intros (Hdata & Hne). split; [rewrite Hdata; reflexivity|].
      destruct (opt_string_eqb _ _) eqn:Heq; [|reflexivity].
      apply opt_string_eqb_eq in Heq. contradiction. }
  destruct Hcopied as (b & Hb & Hbiff).
  assert (Hbranch : forall cs,
    (forall w0,
       issues (bind (if b then
                       bind (emit (BlocksRender (state prev)))
                            (fun _ => emit (CaretSetToBlock (index prev)))
                     else if index prev <? index next then
                       bind (emit (BlocksDelete (index next)))
                            (fun _ => emit (CaretSetToBlock (index prev)))
                     else if getBlocksCount (perform OnUpdate (editor w))
                             >? len (state prev) then
                       bind (emit (BlocksRender (state prev)))
                            (fun _ => setCaretIndex (index prev) (caretIndex prev))
                     else if contentChangedInNoFocusBlock (index prev) (index next) then
                       bind (query (fun e => getBlockByIndex e (index next))) (fun live =>
                       bind (defined live) (fun blockId =>
                       bind (defined (at_index (state prev) (index next))) (fun b =>
                       bind (emit (BlocksUpdate (Some blockId) (data b))) (fun _ =>
                       setCaretIndex (index prev) (caretIndex prev)))))
                     else ret tt)
                    (fun _ => sync_focused (state prev) (index prev) (caretIndex prev)))
              w0 cs) ->
    issues undo w cs).
  { intros cs Hcs. apply (issues_undo w next prev r); auto. intros w0.
    rewrite Hindex. unfold undo_branch.
    rewrite (blockWasDeleted_shorter (state prev) (state next)) by lia.
    rewrite Hb.
    rewrite (blockWasSkipped_other_length (state prev) (state next)) by lia.
    rewrite andb_true_r.
    rewrite (blockWasDropped_other_length (state prev) (state next))
      by (unfold len in Hlen; lia).
    specialize (Hcs w0). destruct b; [exact Hcs|].
    destruct (_ <? _); [exact Hcs|]. destruct (_ >? _); exact Hcs. }
  split_and!.
  - intros Hc. apply Hbranch. intros w0.
    replace b with true by (symmetry; apply Hbiff; exact Hc).
    apply (issues_two_then_quiet (BlocksRender (state prev))). exact Hsync.
  - intros Hnc Hlt. apply Hbranch. intros w0.
    destruct b; [contradiction Hnc; apply Hbiff; reflexivity|].
    replace (index prev <? index next) with true
      by (symmetry; apply Z.ltb_lt; exact Hlt).
    apply (issues_two_then_quiet (BlocksDelete (index next))). exact Hsync.
  - intros Hnc Hge Hcr. apply Hbranch. intros w0.
    destruct b; [contradiction Hnc; apply Hbiff; reflexivity|].
    replace (index prev <? index next) with false
      by (symmetry; apply Z.ltb_ge; exact Hge).
    replace (getBlocksCount (perform OnUpdate (editor w)) >? len (state prev))
      with true by (symmetry; apply Z.gtb_lt; exact Hcr).
    apply (issues_emit_then_quiet (BlocksRender (state prev)));
      [apply replays_setCaretIndex|exact Hsync].
  - intros Hnc Hge Hncr. apply Hbranch. intros w0.
    destruct b; [contradiction Hnc; apply Hbiff; reflexivity|].
    replace (index prev <? index next) with false
      by (symmetry; apply Z.ltb_ge; exact Hge).
    destruct (Z.gtb_spec (getBlocksCount (perform OnUpdate (editor w)))
                         (len (state prev))) as [Hgt|Hle];
      [contradiction Hncr|].
    apply issues_quiet.
    apply replays_bind; [|intros []; exact Hsync].
    repeat replays_quiet_step.
Qed.

Lemma issues_after_some {A B : Type} (m : M E A) (k : A -> M E B) (w : World E)
    (cs1 : list Call) (P : list Call -> Prop) :
  completes m w cs1 ->
  (forall w' a, exists cs2, issues (k a) w' cs2 /\ P cs2) ->
  exists cs2, issues (bind m k) w (cs1 ++ cs2) /\ P cs2.
Proof.
  intros (w1 & a & evs1 & Heq1 & He1 & Hs1 & Hself1) Hk.
  destruct (Hk w1 a) as (cs2 & (w2 & b & evs2 & Heq2 & He2 & Hs2) & HP).
  exists cs2. split; [|exact HP].
  exists w2, b, (evs1 ++ evs2). unfold bind. rewrite Heq1. split_and!.
  - exact Heq2.
  - unfold emitted in *. rewrite He2, He1, <- app_assoc. reflexivity.
  - rewrite structural_app, Hs1, Hs2. reflexivity.
Qed.

(** The loop of [insertSkippedBlocks] on any two snapshots, the second
    the longer. *)
Lemma completes_insertSkippedBlocks_loop_drop (prevState st : Snapshot)
    (w : World E) :
  len prevState <= len st ->
  completes (insertSkippedBlocks_loop (length st - length prevState)
                                      (len prevState) st)
            w (insertions (drop (length prevState) st) (len prevState)).
Proof.
  intros Hlen. unfold len in Hlen.
  pose proof (completes_insertSkippedBlocks_loop
                (take (length prevState) st) (drop (length prevState) st) [] w)
    as Hloop.
  rewrite app_nil_r, take_drop, length_drop in Hloop.
  replace (len (take (length prevState) st)) with (len prevState) in Hloop
    by (unfold len; rewrite length_take; lia).
  exact Hloop.
Qed.

Lemma issues_redo_at (w : World E) (prev target : Entry) (cs : list Call) :
  canRedo (self w) = true ->
  entry_at (self w) (position (self w) + 1) = Some target ->
  entry_at (self w) (position (self w)) = Some prev ->
  issues (bind (redo_branch (state prev) (state target) (index target)
                            (position (self w) + 1))
               (fun _ => bind (emit OnUpdate)
                              (fun _ => sync_focused (state target) (index target)
                                                     (caretIndex target))))
         (mkWorld (redo_begin (self w)) (editor w) (trace w)) cs ->
  issues redo w cs.
Proof.
  intros Hcan Htarget Hprev (w' & res & evs & Heq & He & Hs). unfold issues.
  rewrite (redo_unfold w prev target Hcan Htarget Hprev).
  exists w', res, evs. split_and!; auto.
Qed.

(** The end of [redo] after [insertSkippedBlocks]. *)
Lemma redo_growth_end (st : Snapshot) (i : Z) (caret : option Z) (w : World E) :
  issues (bind (emit (CaretSetToBlock i))
               (fun _ => bind (emit OnUpdate)
                              (fun _ => sync_focused st i caret)))
         w [].
Proof.
  apply issues_quiet.
  apply replays_bind; [apply replays_emit; reflexivity|].
  intros _. apply replays_redo_end.
Qed.

(** [updateModifiedBlock] followed by the end of [redo]: it renders the
    snapshot when the editor does not know the identifier of the block. *)
Lemma updateModifiedBlock_then (st : Snapshot) (i : Z) (caret : option Z)
    (w : World E) :
  exists cs,
    issues (bind (updateModifiedBlock st i)
                 (fun _ => bind (emit (CaretSetToBlock i))
                             (fun _ => bind (emit OnUpdate)
                                         (fun _ => sync_focused st i caret))))
           w cs
    /\ (cs = [] \/ cs = [BlocksRender st]).
Proof.
  unfold updateModifiedBlock.
  destruct (at_index st (i - 1)) as [block|].
  - destruct (getById (editor w) (id block)) eqn:Hknown.
    + exists []. split; [|left; reflexivity].
      unfold issues. rewrite !bind_assoc. mstep. rewrite !bind_assoc. mstep.
      rewrite Hknown.
      lazymatch goal with
      | |- exists w' r evs, ?m ?w0 = Some (w', r) /\ _ => change (issues m w0 [])
      end.
      apply issues_quiet.
      apply replays_bind; [apply replays_emit; reflexivity|intros _].
      apply replays_bind; [apply replays_emit; reflexivity|intros _].
      apply replays_redo_end.
    + exists [BlocksRender st]. split; [|right; reflexivity].
      unfold issues. rewrite !bind_assoc. mstep. rewrite !bind_assoc. mstep.
      rewrite Hknown.
      lazymatch goal with
      | |- exists w' r evs, ?m ?w0 = Some (w', r) /\ _ =>
          change (issues m w0 (List.filter is_structural [BlocksRender st] ++ []))
      end.
      apply issues_emit_bind. apply redo_growth_end.
  - exists []. split; [|left; reflexivity].
    exists w, (Abrupt TypeError), []. split_and!; try reflexivity.
    unfold emitted. rewrite app_nil_r. reflexivity.
Qed.

(** X24.  A [redo()] into a snapshot longer than the one it leaves
    inserts the blocks the snapshot has beyond the length of the other,
    in order and at their indices, wherever in the document the blocks
    were added; then it may render the snapshot, once, and it issues no
    other structural call.  It does not render when the block before the
    recorded index is the same in the two snapshots. *)
Theorem redo_of_growth (w : World E) (prev target : Entry) :
  canRedo (self w) = true ->
  entry_at (self w) (position (self w) + 1) = Some target ->
  entry_at (self w) (position (self w)) = Some prev ->
  len (state prev) < len (state target) ->
  let inserted :=
    insertions (drop (length (state prev)) (state target)) (len (state prev)) in
  (exists cs,
     issues redo w (inserted ++ cs)
     /\ (cs = [] \/ cs = [BlocksRender (state target)]))
  /\ (stringify_opt (at_index (state prev) (index target - 1))
      = stringify_opt (at_index (state target) (index target - 1)) ->
      issues redo w inserted).
Proof.
  intros Hcan Htarget Hprev Hlen inserted.
  assert (Hloop := fun w0 =>
    completes_insertSkippedBlocks_loop_drop (state prev) (state target) w0
      (Z.lt_le_incl _ _ Hlen)).
  assert (Hbranch : forall cs,
    issues (bind (insertSkippedBlocks_loop
                    (length (state target) - length (state prev))
                    (len (state prev)) (state target))
              (fun _ =>
                 bind (if opt_string_neqb
                            (stringify_opt (at_index (state prev)
                                                     (index target - 1)))
                            (stringify_opt (at_index (state target)
                                                     (index target - 1)))
                       then updateModifiedBlock (state target) (index target)
                       else ret tt)
                      (fun _ =>
                         bind (emit (CaretSetToBlock (index target)))
                              (fun _ => bind (emit OnUpdate)
                                          (fun _ => sync_focused (state target)
                                                      (index target)
                                                      (caretIndex target))))))
           (mkWorld (redo_begin (self w)) (editor w) (trace w)) cs ->
    issues redo w cs).
  { intros cs Hcs. apply (issues_redo_at w prev target); auto.
    unfold redo_branch.
    rewrite (blockWasDeleted_shorter (state prev) (state target)) by lia.
    rewrite (blockWasSkipped_other_length (state target) (state prev)) by lia.
    unfold insertSkippedBlocks. apply issues_assoc, issues_assoc. exact Hcs. }
  split.
  - assert (Hsome : exists cs,
      issues (bind (insertSkippedBlocks_loop
                      (length (state target) - length (state prev))
                      (len (state prev)) (state target))
                (fun _ =>
                   bind (if opt_string_neqb
                              (stringify_opt (at_index (state prev)
                                                       (index target - 1)))
                              (stringify_opt (at_index (state target)
                                                       (index target - 1)))
                         then updateModifiedBlock (state target) (index target)
                         else ret tt)
                        (fun _ =>
                           bind (emit (CaretSetToBlock (index target)))
                                (fun _ => bind (emit OnUpdate)
                                            (fun _ => sync_focused (state target)
                                                        (index target)
                                                        (caretIndex target))))))
             (mkWorld (redo_begin (self w)) (editor w) (trace w)) (inserted ++ cs)
      /\ (cs = [] \/ cs = [BlocksRender (state target)])).
    { apply issues_after_some; [apply Hloop|]. intros w1 _.
      destruct (opt_string_neqb _ _).
      - apply updateModifiedBlock_then.
      - exists []. split; [|left; reflexivity]. apply redo_growth_end. }
    destruct Hsome as (cs & Hissues & Hcs). exists cs. split; [|exact Hcs].
    apply Hbranch. exact Hissues.
  - intros Hsame. apply Hbranch.
    rewrite Hsame, opt_string_neqb_refl.
    rewrite <- (app_nil_r inserted).
    apply issues_after; [apply Hloop|].
    intros w1 _. apply redo_growth_end.
Qed.

End Lengths.

(** * The claims on the sample sessions *)

Import Demo Scenario.

(** The invariant of a concrete state, by computation. *)
Ltac concrete_good :=
  unfold good, inv, refs_valid, len; simpl;
  repeat split; try lia;
  try (intros ? ?; discriminate);
  repeat (constructor; try (simpl; lia)).

(** C1 fails as it is stated: with [maxLength] 2, two commits leave three
    entries in the stack. *)
Lemma stack_bound_counterexample :
  exists w,
    session (showing [] 0 0) false "paragraph" (Some 2)
            (saves [(showing [a] 0 0, [a]); (showing [a; b] 1 0, [a; b])])
    = Some w
    /\ len (stack (self w)) = 3
    /\ maxLength (self w) = 2
    /\ ~ len (stack (self w)) <= maxLength (self w).
Proof.
  eexists. split; [vm_compute; reflexivity|].
  split; [reflexivity|]. split; [reflexivity|].
  simpl. unfold len. simpl. lia.
Qed.

(** The amended bound on a session with [maxLength] 2 and three commits. *)
Lemma stack_bound_witness :
  exists w,
    session (showing [] 0 0) false "paragraph" small (saves three) = Some w
    /\ len (stack (self w)) <= maxLength (self w) + 1
    /\ count (self w) <= maxLength (self w).
Proof.
  apply (stack_bound (showing [] 0 0) false "paragraph" small three).
  simpl. lia.
Defined.

(** The invariant is kept by a commit at capacity. *)
Lemma history_invariant_witness :
  exists w' c,
    run (OpSave [a]) full = Some (w', c)
    /\ inv (self w') /\ maxLength (self w') = maxLength (self full).
Proof.
  apply (proj1 (proj2 (@history_invariant Ref.Live Ref.editor))).
  - simpl. lia.
  - unfold inv, len. simpl. lia.
Defined.

(** The commit after the undo of the sample session. *)
Lemma redo_invalidated_witness :
  exists w1 c1,
    undo committed = Some (w1, c1)
    /\ position (self w1) = position (self committed) - 1
    /\ forall (e : Ref.Live) (s : Snapshot),
         exists w2 c2,
           save s (install e w1) = Some (w2, c2)
           /\ canRedo (self w2) = false
           /\ (hasContent e (getCurrentBlockIndex e) = true -> c2 = Normal tt)
           /\ match c2 with
              | Normal _ =>
                  position (self w2) = position (self w1) + 1
                  /\ exists r ent,
                       stack (self w2)
                       = take (Z.to_nat (position (self w1) + 1))
                              (stack (self committed)) ++ [r]
                       /\ heap (self w2) !! r = Some ent /\ state ent = s
              | Abrupt _ =>
                  position (self w2) = position (self w1)
                  /\ stack (self w2)
                     = take (Z.to_nat (position (self w1) + 1))
                            (stack (self committed))
              end.
Proof.
  apply (redo_invalidated committed).
  - concrete_good.
  - reflexivity.
Defined.

(** On the sample session: the commit of [[a]] after the undo leaves the
    initial entry, the entry of [[a; b; c]] and the new one. *)
Example sample_commit_after_undo :
  undo committed = Some (undone, Normal tt)
  /\ save [a] (install (showing [a] 0 0) undone) = Some (recommitted, Normal tt)
  /\ List.length (stack (self committed)) = 3%nat
  /\ position (self undone) = 1
  /\ snapshots (self recommitted)
     = [Some [mkBlock None "paragraph" []]; Some [a; b; c]; Some [a]]
  /\ canRedo (self recommitted) = false.
Proof. repeat split; vm_compute; reflexivity. Qed.

(** Three commits with [maxLength] 2, then two undos and two redos. *)
Lemma undo_redo_inverse_witness :
  let kept :=
    lastn (Z.to_nat (maxLength (self committed_three) + 1))
          ([mkBlock None "paragraph" []] :: List.map snd three) in
  snapshots (self committed_three) = List.map Some kept
  /\ exists w1 w2,
       exec (undos [editing_abc; editing_ac]) committed_three = Some w1
       /\ exec (redos [editing_ac; editing_abc]) w1 = Some w2
       /\ position (self w2) = position (self committed_three)
       /\ (forall k, (k <= 2)%nat ->
             exists wk,
               exec (undos (take k [editing_abc; editing_ac])) committed_three
               = Some wk
               /\ position (self wk)
                  = Z.max 0 (position (self committed_three) - Z.of_nat k)
               /\ current_snapshot (self wk) = kept !! Z.to_nat (position (self wk)))
       /\ (forall k, (k <= 2)%nat ->
             exists wk,
               exec (redos (take k [editing_ac; editing_abc])) w1 = Some wk
               /\ position (self wk)
                  = Z.min (position (self committed_three))
                          (position (self w1) + Z.of_nat k)
               /\ current_snapshot (self wk) = kept !! Z.to_nat (position (self wk))).
Proof.
  apply (undo_redo_inverse (showing [] 0 0) "paragraph" small three
                           opened_small committed_three (Normal tt)
                           [editing_abc; editing_ac] [editing_ac; editing_abc]).
  - simpl. lia.
  - vm_compute. reflexivity.
  - vm_compute. reflexivity.
  - reflexivity.
  - reflexivity.
Defined.

(** A session that turned read-only at position 1 of 2, where an undo
    and a redo would both proceed otherwise: neither is available, and
    both calls leave the world as it is. *)
Lemma read_only_guard_witness :
  readOnly (self locked_midway) = true
  /\ position (self locked_midway) = 1 /\ count (self locked_midway) = 2
  /\ canUndo (self locked_midway) = false /\ canRedo (self locked_midway) = false
  /\ undo locked_midway = Some (locked_midway, Normal tt)
  /\ redo locked_midway = Some (locked_midway, Normal tt).
Proof.
  destruct (@read_only_guard Ref.Live Ref.editor) as (Hflag & Hundo & Hredo).
  destruct (Hflag (self locked_midway) eq_refl) as (Hcu & Hcr).
  split; [reflexivity|]. split; [reflexivity|]. split; [reflexivity|].
  split; [exact Hcu|]. split; [exact Hcr|].
  split; [exact (Hundo locked_midway Hcu)|exact (Hredo locked_midway Hcr)].
Defined.

(** The guard against the snapshot [[a; c]] of the sample session, which
    is well-formed and which the editor shows; and the observation of the
    heading once the keys of its data have changed places, which goes on
    to [save]. *)
Lemma editorDidUpdate_guard_witness :
  (wf_snapshot [a; c] = true
   /\ (forall newData : Snapshot,
        exists b, editorDidUpdate newData committed = Some (committed, Normal b)
          /\ (newData = [] -> b = false)
          /\ (newData <> [] -> length newData <> length [a; c] -> b = true)
          /\ (newData <> [] -> length newData = length [a; c] ->
              (b = true <-> stringify [a; c] <> stringify newData))
          /\ (newData <> [] -> wf_snapshot newData = true ->
              (b = false <-> newData = [a; c])
              /\ (b = false -> deep_equal [a; c] newData = true)))
   /\ exists w', registerChange committed = Some (w', Normal tt)
        /\ stack (self w') = stack (self committed)
        /\ position (self w') = position (self committed)
        /\ count (self w') = count (self committed))
  /\ registerChange retitling
     = save [heading_reordered]
            (mkWorld (set_shouldSaveHistory true (set_readOnly false (self retitling)))
                     (perform EditorSave (editor retitling))
                     (trace retitling ++ [mkEvent true EditorSave])).
Proof.
  split.
  - destruct (editorDidUpdate_guard committed (mkEntry 0 [a; c] (Some 1)) eq_refl)
      as (Hguard & Hsame & _).
    split; [reflexivity|]. split.
    + intros newData. destruct (Hguard newData) as (b & Hrun & H1 & H2 & H3 & H4).
      exists b. split; [exact Hrun|]. split; [exact H1|]. split; [exact H2|].
      split; [exact H3|]. intros Hne Hwn. exact (H4 Hne eq_refl Hwn).
    + exact (Hsame eq_refl).
  - destruct (editorDidUpdate_guard retitling (mkEntry 0 [heading] (Some 0)) eq_refl)
      as (_ & _ & Hdiff).
    apply Hdiff; try reflexivity; discriminate.
Defined.

(** C6 fails as it is stated: the heading with the keys of its data in the
    other order is deep-equal to the snapshot of the current position, yet
    [editorDidUpdate] is true of it, and [registerChange], observing it,
    commits: [count()] goes from 1 to 2. *)
Lemma editorDidUpdate_guard_counterexample :
  current_snapshot (self titled) = Some [heading]
  /\ wf_snapshot [heading] = true /\ wf_snapshot [heading_reordered] = true
  /\ deep_equal [heading] [heading_reordered] = true
  /\ editorDidUpdate [heading_reordered] titled = Some (titled, Normal true)
  /\ savedBlocks (perform EditorSave (editor retitling)) = [heading_reordered]
  /\ registerChange retitling = Some (retitled, Normal tt)
  /\ count (self titled) = 1 /\ count (self retitled) = 2.
Proof. split_and!; reflexivity. Qed.

(** Deep equality on the heading: the order of the keys does not count;
    a value, a key or a block that differs does. *)
Example deep_equal_samples :
  let level (x : number) := mkBlock (Some "h") "header"
                                    [("text", JStr "Title"); ("level", JNum x)] in
  deep_equal [heading] [heading_reordered] = true
  /\ deep_equal [heading_reordered] [heading] = true
  /\ deep_equal [heading] [level (NumDec false 3 1)] = false
  /\ deep_equal [heading] [mkBlock (Some "h") "header" [("text", JStr "Title")]]
     = false
  /\ deep_equal [heading]
                [mkBlock (Some "h") "header"
                         [("text", JStr "Title"); ("size", JNum (NumDec false 2 1))]]
     = false
  /\ deep_equal [heading] [heading; heading] = false
  /\ deep_equal [heading] [] = false.
Proof. repeat split. Qed.

(** Numbers as [JSON.stringify] prints them: [2], [10 ^ 20], [10 ^ 21],
    [1.5], [-0.15], [0.0000015], [1.5e-7], [1.2345e+24] and the smallest
    positive number. *)
Example number_to_string_samples :
  number_to_string NumZero = "0"
  /\ number_to_string (NumDec false 2 1) = "2"
  /\ number_to_string (NumDec false 1 21) = "100000000000000000000"
  /\ number_to_string (NumDec false 1 22) = "1e+21"
  /\ number_to_string (NumDec false 15 1) = "1.5"
  /\ number_to_string (NumDec true 15 0) = "-0.15"
  /\ number_to_string (NumDec false 15 (-5)) = "0.0000015"
  /\ number_to_string (NumDec false 15 (-6)) = "1.5e-7"
  /\ number_to_string (NumDec false 12345 25) = "1.2345e+24"
  /\ number_to_string (NumDec false 5 (-323)) = "5e-324"
  /\ number_to_string (NumDec false 9007199254740992 16) = "9007199254740992".
Proof. repeat split. Qed.

(** C7 fails as it is stated: after an [undo] that proceeded, an
    observation made while the editor is read-only does not set the flag
    back to true. *)
Lemma suppression_flag_counterexample :
  canUndo (self committed) = true
  /\ undo committed = Some (undone, Normal tt)
  /\ shouldSaveHistory (self undone) = false
  /\ exists w',
       registerChange (install (read_only [a; b; c] 1 2) undone)
       = Some (w', Normal tt)
       /\ shouldSaveHistory (self w') = false.
Proof.
  split; [reflexivity|]. split; [vm_compute; reflexivity|].
  split; [reflexivity|].
  eexists. split; [vm_compute; reflexivity|reflexivity].
Qed.

(** The observation that follows the undo of the sample session is
    swallowed. *)
Lemma suppression_flag_witness :
  registerChange undone
  = Some (mkWorld (set_shouldSaveHistory true (set_readOnly false (self undone)))
                  (editor undone) (trace undone),
          Normal tt).
Proof.
  apply (proj1 (proj2 (proj2 (@suppression_flag Ref.Live Ref.editor)))).
  - reflexivity.
  - reflexivity.
Defined.

(** The round trip on the sample session. *)
Lemma deletion_round_trip_witness :
  exists w1 c1 evs1,
    undo committed = Some (w1, c1) /\ emitted committed w1 evs1
    /\ structural evs1 = [BlocksInsert (type b) (data b) 1 true]
    /\ forall e : Ref.Live, exists w2 c2 evs2,
         redo (install e w1) = Some (w2, c2) /\ emitted (install e w1) w2 evs2
         /\ structural evs2 = [BlocksDelete 1].
Proof.
  apply (deletion_round_trip committed a b c
           (mkEntry 1 [a; b; c] (Some 2)) (mkEntry 0 [a; c] (Some 1))).
  - discriminate.
  - reflexivity.
  - reflexivity.
  - reflexivity.
  - reflexivity.
  - reflexivity.
Defined.

(** On the reference editor the round trip restores the document: after
    the [undo] it shows the type and data of [[a; b; c]] again, and after
    the [redo] those of [[a; c]]. *)
Example sample_round_trip_document :
  Ref.contents (Ref.doc (editor committed)) = Ref.contents [a; c]
  /\ undo committed = Some (undone, Normal tt)
  /\ Ref.contents (Ref.doc (editor undone)) = Ref.contents [a; b; c]
  /\ redo undone = Some (redone, Normal tt)
  /\ Ref.contents (Ref.doc (editor redone)) = Ref.contents [a; c].
Proof. repeat split; vm_compute; reflexivity. Qed.

(** C10 fails as it is stated: at capacity a [save] of the snapshot of
    the current position evicts the oldest entry, and neither the position
    nor [count()] goes up. *)
Lemma save_always_appends_counterexample :
  current_snapshot (self full) = Some [a]
  /\ save [a] full = Some (full_again, Normal tt)
  /\ position (self full_again) = position (self full)
  /\ count (self full_again) = count (self full).
Proof. repeat split; vm_compute; reflexivity. Qed.

(** A second commit of the snapshot of the current position. *)
Lemma save_always_appends_witness :
  exists w' outcome,
    save [a; c] committed = Some (w', outcome)
    /\ (hasContent (editor committed) (getCurrentBlockIndex (editor committed))
        = true -> outcome = Normal tt)
    /\ (outcome = Normal tt ->
        (exists r ent, stack (self w') = save_stack (self committed) ++ [r]
                       /\ heap (self w') !! r = Some ent /\ state ent = [a; c])
        /\ current_snapshot (self w') = Some [a; c]
        /\ position (self w') = count (self w')
        /\ (position (self committed) < maxLength (self committed) ->
            position (self w') = position (self committed) + 1)
        /\ (position (self committed) < maxLength (self committed) ->
            position (self committed) = count (self committed) ->
            count (self w') = count (self committed) + 1)
        /\ (position (self committed) = maxLength (self committed) ->
            position (self w') = position (self committed)
            /\ count (self w') = count (self committed))).
Proof.
  apply (save_always_appends [a; c] committed). concrete_good.
Defined.

(** On the sample session: the second commit of [[a; c]] takes the
    position and [count()] from 2 to 3. *)
Example sample_repeated_commit :
  current_snapshot (self committed) = Some [a; c]
  /\ save [a; c] committed = Some (committed_again, Normal tt)
  /\ position (self committed) = 2 /\ count (self committed) = 2
  /\ position (self committed_again) = 3 /\ count (self committed_again) = 3.
Proof. repeat split; vm_compute; reflexivity. Qed.

(** * The further properties on the sample sessions *)

Import Samples.

(** The identifiers of a concrete snapshot are distinct. *)
Ltac distinct_identifiers :=
  unfold identifiers; simpl;
  repeat (apply NoDup_cons_2;
          [let Hin := fresh "Hin" in
           intros Hin; apply list_elem_of_In in Hin; simpl in Hin;
           intuition discriminate|]);
  apply NoDup_nil_2.

(** Three entries cut to two, and a loop that never ends. *)
Lemma truncate_keeps_newest_witness :
  (truncate [1; 2; 3]%nat 2 = Some [2; 3]%nat
   /\ len (lastn (Z.to_nat 2) [1; 2; 3]%nat) = Z.min 2 (len [1; 2; 3]%nat))
  /\ forall fuel, truncate_loop fuel [1]%nat (-1) = None.
Proof.
  split.
  - apply (proj1 (truncate_keeps_newest [1; 2; 3]%nat 2)). lia.
  - apply (proj2 (truncate_keeps_newest [1]%nat (-1))). lia.
Defined.

(** A session with [maxLength] -1. *)
Lemma negative_maxLength_never_returns_witness :
  session (showing [] 0 0) false "paragraph" (Some (-1))
          ((showing [a] 0 0, OpSave [a]) :: []) = None.
Proof.
  apply (negative_maxLength_never_returns (showing [] 0 0) false "paragraph" (-1)).
  lia.
Defined.

(** The undo of the sample session. *)
Lemma undo_writes_witness :
  exists w' c r target,
    undo committed = Some (w', c)
    /\ at_index (stack (self committed)) (position (self committed) - 1) = Some r
    /\ heap (self committed) !! r = Some target
    /\ self w'
       = match at_index (state target) (index target) with
         | Some _ =>
             set_shouldSaveHistory false
               (set_position (position (self committed) - 1) (self committed))
         | None =>
             set_heap (<[r := mkEntry (index target - 1) (state target)
                                      (caretIndex target)]> (heap (self committed)))
               (set_shouldSaveHistory false
                  (set_position (position (self committed) - 1) (self committed)))
         end.
Proof.
  apply (undo_writes committed).
  - concrete_good.
  - reflexivity.
Defined.

(** The redo that follows. *)
Lemma redo_writes_witness :
  exists w' c,
    redo undone = Some (w', c)
    /\ self w'
       = set_shouldSaveHistory false
           (set_position (position (self undone) + 1) (self undone)).
Proof. apply (redo_writes undone). reflexivity. Defined.

(** The removal of the first block of [[a; b; c]]. *)
Lemma deletion_anywhere_witness :
  exists w1 c1 evs1,
    undo removed = Some (w1, c1) /\ emitted removed w1 evs1
    /\ structural evs1 = [BlocksInsert (type a) (data a) 0 true]
    /\ forall e : Ref.Live, exists w2 c2 evs2,
         redo (install e w1) = Some (w2, c2) /\ emitted (install e w1) w2 evs2
         /\ structural evs2 = [BlocksDelete 0].
Proof.
  apply (deletion_anywhere removed [] [b; c] a
           (mkEntry 1 [a; b; c] (Some 2)) (mkEntry 0 [b; c] (Some 0))).
  - distinct_identifiers.
  - reflexivity.
  - reflexivity.
  - reflexivity.
  - reflexivity.
  - reflexivity.
Defined.

(** The append of [c] to [[a; b]] in the session of three commits. *)
Lemma append_round_trip_witness :
  exists w1 c1 evs1,
    undo committed_three = Some (w1, c1) /\ emitted committed_three w1 evs1
    /\ structural evs1 = [BlocksDelete 2]
    /\ forall e : Ref.Live, exists w2 c2 evs2,
         redo (install e w1) = Some (w2, c2) /\ emitted (install e w1) w2 evs2
         /\ structural evs2 = [BlocksInsert (type c) (data c) 2 true].
Proof.
  apply (append_round_trip committed_three [a; b] [c] b
           (mkEntry 1 [a; b] (Some 0)) (mkEntry 2 [a; b; c] (Some 0))).
  - discriminate.
  - reflexivity.
  - reflexivity.
  - reflexivity.
  - reflexivity.
  - reflexivity.
  - reflexivity.
  - left. discriminate.
  - simpl. unfold len. simpl. lia.
Defined.

(** The redo of the removal of [b] from [[a; b; c]]. *)
Lemma redo_of_shrink_witness :
  exists k x,
    at_index [a; b; c] k = Some x
    /\ (~ List.In (id x) (identifiers [a; c])
        \/ exists y, at_index [a; c] k = Some y /\ id y <> id x)
    /\ issues redo undone [BlocksDelete k].
Proof.
  apply (redo_of_shrink undone (mkEntry 1 [a; b; c] (Some 2))
                        (mkEntry 0 [a; c] (Some 1))).
  - reflexivity.
  - reflexivity.
  - reflexivity.
  - simpl. unfold len. simpl. lia.
  - distinct_identifiers.
Defined.

(** The undo of a move renders the older snapshot; the undo of an edit
    issues no structural call. *)
Lemma undo_same_length_witness :
  issues undo moved [BlocksRender [a; b]] /\ issues undo edited [].
Proof.
  split.
  - apply (proj1 (undo_same_length moved (mkEntry 0 [a; b] (Some 5))
                    (mkEntry 1 [b; a] (Some 5)) a
                    eq_refl eq_refl eq_refl eq_refl eq_refl)).
    right. right. discriminate.
  - apply (proj2 (undo_same_length edited (mkEntry 0 [a; b] (Some 5))
                    (mkEntry 0 [a_edited; b] (Some 13)) a
                    eq_refl eq_refl eq_refl eq_refl eq_refl)).
    + intros (Hdata & _). discriminate Hdata.
    + simpl. unfold len. simpl. lia.
    + intros Hmoved. apply Hmoved. reflexivity.
Defined.

(** The redo of the move renders the newer snapshot; the redo of the edit
    issues no structural call. *)
Lemma redo_same_length_witness :
  issues redo move_undone [BlocksRender [b; a]] /\ issues redo edit_undone [].
Proof.
  split.
  - apply (proj1 (redo_same_length move_undone (mkEntry 0 [a; b] (Some 5))
                    (mkEntry 1 [b; a] (Some 5))
                    eq_refl eq_refl eq_refl eq_refl)).
    + discriminate.
    + discriminate.
  - apply (proj2 (redo_same_length edit_undone (mkEntry 0 [a; b] (Some 5))
                    (mkEntry 0 [a_edited; b] (Some 13))
                    eq_refl eq_refl eq_refl eq_refl)).
    left. reflexivity.
Defined.

(** A commit of [[a; c]] in the sample session: the focus is on [a], a
    paragraph with a content element, and the caret offset 1 is recorded. *)
Lemma save_outcome_witness :
  save [a; c] committed
  = Some (mkWorld (save_pushed (self committed) (mkEntry 0 [a; c] (Some 1)))
                  (editor committed)
                  (trace committed ++ [mkEvent true OnUpdate]),
          Normal tt).
Proof.
  etransitivity; [apply (save_outcome [a; c] committed); simpl; lia|].
  reflexivity.
Defined.

(** The entries of the sample session through an undo, a commit and a
    [clear]. *)
Lemma entries_immutable_witness :
  exists w',
    exec [(editing_abc, OpUndo); (showing [a] 0 0, OpSave [a]);
          (showing [a] 0 0, OpClear)] committed = Some w'
    /\ (forall r ent, heap (self committed) !! r = Some ent ->
          exists ent', heap (self w') !! r = Some ent'
            /\ state ent' = state ent /\ caretIndex ent' = caretIndex ent)
    /\ maxLength (self w') = maxLength (self committed)
    /\ (no_initialize [(editing_abc, OpUndo); (showing [a] 0 0, OpSave [a]);
                       (showing [a] 0 0, OpClear)] ->
        initialItem (self w') = initialItem (self committed)).
Proof. apply (entries_immutable _ committed). simpl. lia. Defined.

(** [initialize] with [[a; b]], a commit, an undo, a commit, [clear]. *)
Lemma clear_restores_initial_witness :
  exists w',
    exec ((showing [a; b] 0 0, OpInitialize [a; b])
          :: busy ++ [(showing [a] 0 0, OpClear)]) opened_small = Some w'
    /\ snapshots (self w') = [Some [a; b]]
    /\ position (self w') = 0
    /\ canUndo (self w') = false /\ canRedo (self w') = false.
Proof.
  apply (clear_restores_initial [a; b] busy).
  - simpl. lia.
  - unfold no_initialize, busy. repeat constructor.
Defined.

(** The sample session once the toolbox is gone. *)
Lemma registerChange_tracks_toolbox_witness :
  exists w' outcome,
    registerChange (install (read_only [a; c] 0 1) committed) = Some (w', outcome)
    /\ readOnly (self w') = true
    /\ (false = false ->
        outcome = Normal tt /\ self w' = set_readOnly true (self committed)
        /\ editor w' = read_only [a; c] 0 1 /\ trace w' = trace committed
        /\ canUndo (self w') = false /\ canRedo (self w') = false).
Proof.
  assert (Hmax : 0 <= maxLength (self (install (read_only [a; c] 0 1) committed)))
    by (simpl; lia).
  exact (registerChange_tracks_toolbox
           (install (read_only [a; c] 0 1) committed) Hmax).
Defined.

(** The sample session when the editor shows no block. *)
Lemma registerChange_ignores_empty_witness :
  exists w' c,
    registerChange (install (showing [] 0 0) committed) = Some (w', c)
    /\ self w' = set_shouldSaveHistory true (set_readOnly false (self committed)).
Proof.
  apply (registerChange_ignores_empty (install (showing [] 0 0) committed)).
  - reflexivity.
  - reflexivity.
Defined.

(** The undo into the empty initial document. *)
Lemma undo_into_missing_block_witness :
  exists w',
    undo emptied = Some (w', Abrupt TypeError)
    /\ position (self w') = position (self emptied) - 1
    /\ stack (self w') = stack (self emptied)
    /\ shouldSaveHistory (self w') = false
    /\ entry_at (self w') (position (self w')) = Some (mkEntry (-2) [] None)
    /\ emitted emptied w' [mkEvent false OnUpdate].
Proof.
  apply (undo_into_missing_block emptied (mkEntry (-1) [] None)
           (mkEntry 0 [a] (Some 0))).
  - reflexivity.
  - reflexivity.
  - reflexivity.
  - reflexivity.
  - reflexivity.
  - simpl. unfold len. simpl. lia.
Defined.

(** [parseKeys] on the shortcuts of a Mac: the letter is in upper case
    with [SHIFT] alone before it, and in lower case otherwise; a key the
    table lacks gives [undefined], unless [Object.prototype] has it. *)
Example sample_shortcuts :
  let parse := parseKeys (string_map ascii_upper) (string_map ascii_lower) true in
  parse ["CMD"; "Z"] = Some [KString "metaKey"; KString "z"]
  /\ parse ["SHIFT"; "z"] = Some [KString "shiftKey"; KString "Z"]
  /\ parse ["CMD"; "SHIFT"; "Z"]
     = Some [KString "metaKey"; KString "shiftKey"; KString "z"]
  /\ parse ["F1"; "y"] = Some [KUndefined; KString "y"]
  /\ parse ["constructor"; "y"] = Some [KInherited "constructor"; KString "y"]
  /\ parse [] = None.
Proof. repeat split; vm_compute; reflexivity. Qed.

(** The undo of the removal of [b] from [[a; b; c]]. *)
Lemma undo_of_shrink_witness :
  exists k x,
    at_index [a; b; c] k = Some x
    /\ (forall j, 0 <= j < k ->
          exists y z, at_index [a; b; c] j = Some y
                      /\ at_index [a; c] j = Some z /\ id y = id z)
    /\ (forall y, at_index [a; c] k = Some y -> id x <> id y)
    /\ issues undo committed [BlocksInsert (type x) (data x) k true].
Proof.
  apply (undo_of_shrink committed (mkEntry 1 [a; b; c] (Some 2))
                        (mkEntry 0 [a; c] (Some 1))).
  - reflexivity.
  - reflexivity.
  - reflexivity.
  - simpl. unfold len. simpl. lia.
Defined.

(** The four cases of the undo of an append: after an empty paragraph; with
    the focus moved to the new block; with the focus left behind, the
    editor showing the new block or not. *)
Lemma undo_of_growth_witness :
  issues undo grown [BlocksRender [blank_paragraph]]
  /\ issues undo committed_three [BlocksDelete 2]
  /\ issues undo refocused [BlocksRender [a; b]]
  /\ issues undo (install (showing [a; b] 0 0) refocused) [].
Proof.
  assert (Hlen1 : len [blank_paragraph] < len [blank_paragraph; b])
    by (unfold len; simpl; lia).
  assert (Hlen2 : len [a; b] < len [a; b; c]) by (unfold len; simpl; lia).
  split_and!.
  - apply (proj1 (undo_of_growth grown (mkEntry 0 [blank_paragraph] (Some 0))
                    (mkEntry 1 [blank_paragraph; b] (Some 0)) blank_paragraph
                    eq_refl eq_refl eq_refl Hlen1 eq_refl)).
    split; [reflexivity|discriminate].
  - apply (proj1 (proj2 (undo_of_growth committed_three
                    (mkEntry 1 [a; b] (Some 0)) (mkEntry 2 [a; b; c] (Some 0)) b
                    eq_refl eq_refl eq_refl Hlen2 eq_refl))).
    + intros (Hdata & _). discriminate Hdata.
    + simpl. lia.
  - apply (proj1 (proj2 (proj2 (undo_of_growth refocused
                    (mkEntry 1 [a; b] (Some 0)) (mkEntry 0 [a; b; c] (Some 0)) b
                    eq_refl eq_refl eq_refl Hlen2 eq_refl)))).
    + intros (Hdata & _). discriminate Hdata.
    + simpl. lia.
    + simpl. unfold len. simpl. lia.
  - apply (proj2 (proj2 (proj2 (undo_of_growth
                    (install (showing [a; b] 0 0) refocused)
                    (mkEntry 1 [a; b] (Some 0)) (mkEntry 0 [a; b; c] (Some 0)) b
                    eq_refl eq_refl eq_refl Hlen2 eq_refl)))).
    + intros (Hdata & _). discriminate Hdata.
    + simpl. lia.
    + simpl. unfold len. simpl. lia.
Defined.

(** The redo of the append of [c] to [[a; b]]. *)
Lemma redo_of_growth_witness :
  (exists cs,
     issues redo three_undone ([BlocksInsert (type c) (data c) 2 true] ++ cs)
     /\ (cs = [] \/ cs = [BlocksRender [a; b; c]]))
  /\ issues redo three_undone [BlocksInsert (type c) (data c) 2 true].
Proof.
  assert (Hlen : len [a; b] < len [a; b; c]) by (unfold len; simpl; lia).
  pose proof (redo_of_growth three_undone (mkEntry 1 [a; b] (Some 0))
                (mkEntry 2 [a; b; c] (Some 0)) eq_refl eq_refl eq_refl Hlen)
    as (Hsome & Hsame).
  split; [exact Hsome|]. apply Hsame. reflexivity.
Defined.
